(** * Offline operation queue of the farmer app (src/utils/offlineQueue.ts)

    A shallow embedding of [OfflineQueueManager]: the pending-operation
    queue, its persistence in one [localStorage] slot, the connectivity flag
    and the drain pass [syncQueue], together with the properties the
    specification states about them.

    Modelling decisions.
    - The manager is a record of its three fields plus the two things it
      acts on: the storage slot and the log of calls made to
      [harvestService].  [syncQueue] is an [async] function whose body
      suspends at every [await]; the suspended frame (iterator position of
      the [for ... of] loop and the local [successfulOperations]) is the
      [pending] field.  One [step] of the model is one uninterrupted run of
      JavaScript: a method call or event handler up to its return, or the
      continuation of the suspended pass up to its next [await] or its end.
    - [operation.retryCount++] mutates the object that sits in [this.queue];
      the model updates the queue at the iterator position.  The array
      iterator is live: an operation pushed while the pass is suspended is
      visited by the same pass.
    - What the environment decides is carried by the event: the two
      readings of [Date.now()], the suffix drawn from [Math.random()],
      whether [localStorage.setItem] succeeds, whether a delivery settles
      successfully.
    - Payloads ([data: any]) are JSON values; numbers are integers.
      [retryCount] is an integer.  Stored text is represented by what
      [JSON.parse] makes of it.
    - The manager is typed: [queue] is a list of operations, and [slot]
      ranges over the stored states that keep it so (no item, the empty
      text, text that does not parse, the text of a queue).  [loadQueue]
      itself does not look at what it parses: [Raw] models it on every
      stored text, with [this.queue] as the JSON value it then holds, and
      [item_of] places the typed slots among the stored texts.
    - [clearQueue] replaces the array a pass may be iterating over; it is
      modelled on an extended state, [xmanager].  [console] output is not
      modelled. *)

From Stdlib Require Import ZArith Lia.
From stdpp Require Import base tactics option list sets strings pretty.

Module OfflineQueue.

(** ** Data *)

#[local] Unset Elimination Schemes.
Inductive json : Type :=
  | JNull
  | JBool (b : bool)
  | JNum (n : Z)
  | JStr (s : string)
  | JArr (items : list json)
  | JObj (fields : list (string * json)).
#[local] Set Elimination Schemes.

(** A JavaScript value as far as the queue handles it: [None] is
    [undefined]. *)
Definition value : Type := option json.

Fixpoint field (k : string) (fs : list (string * json)) : value :=
  match fs with
  | [] => None
  | (k', v) :: fs' =>
      match field k fs' with
      | Some w => Some w
      | None => if String.eqb k k' then Some v else None
      end
  end.

(** [v.k] for the keys the queue reads ([id], [updates]).  The outer
    [None] is the [TypeError] of reading a property of [null] or
    [undefined]; primitives and arrays have no such property. *)
Definition get_prop (v : value) (k : string) : option value :=
  match v with
  | None => None
  | Some JNull => None
  | Some (JObj fs) => Some (field k fs)
  | Some _ => Some None
  end.

(** [type: 'CREATE' | 'UPDATE' | 'DELETE'], and what [executeOperation]'s
    [default:] branch is there for. *)
Inductive op_type : Type :=
  | CREATE
  | UPDATE
  | DELETE
  | OTHER (tag : string).

Record QueuedOperation : Type := mkOp {
  id : string;
  type : op_type;
  data : value;
  timestamp : Z;
  retryCount : Z
}.

Definition MAX_RETRIES : Z := 3%Z.

(** Calls on [harvestService]. *)
Inductive service_call : Type :=
  | createHarvest (d : value)
  | updateHarvest (i u : value)
  | deleteHarvest (i : value).

(** The [localStorage] slot [STORAGE_KEY], as far as it keeps the manager
    typed: the states the manager itself leaves ([Saved]) or recovers from.
    Text that parses to something else is an [item], below. *)
Inductive slot : Type :=
  | Missing                                (* getItem gives null *)
  | Blank                                  (* the empty string *)
  | Garbled                                (* text JSON.parse rejects *)
  | Saved (q : list QueuedOperation).      (* text of a queue *)

(** The suspended frame of [syncQueue]. *)
Record frame : Type := mkFrame {
  cursor : nat;
  successfulOperations : list string
}.

Record manager : Type := mkManager {
  queue : list QueuedOperation;
  isOnline : bool;
  syncInProgress : bool;
  store : slot;
  calls : list service_call;
  pending : option frame
}.

Definition set_queue (q : list QueuedOperation) (m : manager) : manager :=
  mkManager q (isOnline m) (syncInProgress m) (store m) (calls m) (pending m).
Definition set_isOnline (b : bool) (m : manager) : manager :=
  mkManager (queue m) b (syncInProgress m) (store m) (calls m) (pending m).
Definition set_syncInProgress (b : bool) (m : manager) : manager :=
  mkManager (queue m) (isOnline m) b (store m) (calls m) (pending m).
Definition set_store (s : slot) (m : manager) : manager :=
  mkManager (queue m) (isOnline m) (syncInProgress m) s (calls m) (pending m).
Definition set_calls (c : list service_call) (m : manager) : manager :=
  mkManager (queue m) (isOnline m) (syncInProgress m) (store m) c (pending m).
Definition set_pending (f : option frame) (m : manager) : manager :=
  mkManager (queue m) (isOnline m) (syncInProgress m) (store m) (calls m) f.

(** ** Queue store *)

(** [loadQueue] (lines 42-52), called by the constructor on a manager whose
    queue is the initial [[]]: a falsy item leaves it, a parsed one replaces
    it, a parse error resets it. *)
Definition loadQueue (m : manager) : manager :=
  match store m with
  | Saved q => set_queue q m
  | Missing | Blank => m
  | Garbled => set_queue [] m
  end.

(** [saveQueue] (lines 54-60); [writable] is false when
    [localStorage.setItem] throws, which the method catches. *)
Definition saveQueue (writable : bool) (m : manager) : manager :=
  if writable then set_store (Saved (queue m)) m else m.

(** [generateId] (lines 62-64): [now] is [Date.now()], [sfx] is
    [Math.random().toString(36).substr(2, 9)]. *)
Definition generateId (now : Z) (sfx : string) : string :=
  "offline_" +:+ pretty now +:+ "_" +:+ sfx.

(** ** Sync engine *)

(** What [executeOperation] (lines 130-144) asks of the service; [None]
    when it throws before reaching it: unknown type, or [operation.data]
    without properties. *)
Definition executeOperation (op : QueuedOperation) : option service_call :=
  match type op with
  | CREATE => Some (createHarvest (data op))
  | UPDATE =>
      i ← get_prop (data op) "id";
      u ← get_prop (data op) "updates";
      Some (updateHarvest i u)
  | DELETE =>
      i ← get_prop (data op) "id";
      Some (deleteHarvest i)
  | OTHER _ => None
  end.

(** Loop body up to the [await]: the call goes out, the frame is parked. *)
Definition attempt (op : QueuedOperation) (f : frame) (m : manager) : manager :=
  set_pending (Some f)
    (set_calls (calls m ++ option_list (executeOperation op)) m).

(** [syncQueue] (lines 90-128) from its entry to its first [await]: the
    guard, the flag, the first turn of the loop. *)
Definition syncQueue (m : manager) : manager :=
  if negb (isOnline m) || syncInProgress m || (length (queue m) =? 0)
  then m
  else
    match queue m !! 0 with
    | Some op => attempt op (mkFrame 0 []) (set_syncInProgress true m)
    | None => m
    end.

(** [operation.retryCount++] (line 109). *)
Definition bump (op : QueuedOperation) : QueuedOperation :=
  mkOp (id op) (type op) (data op) (timestamp op) (retryCount op + 1)%Z.

(** The predicate of the final [filter] (line 120). *)
Definition unmarked (marks : list string) (op : QueuedOperation) : Prop :=
  id op ∉ marks.

#[global] Instance unmarked_dec marks op : Decision (unmarked marks op).
Proof. unfold unmarked. apply _. Defined.

(** After the loop (lines 119-123): filter, save, clear the flag. *)
Definition finish (writable : bool) (marks : list string) (m : manager) : manager :=
  set_pending None
    (set_syncInProgress false
       (saveQueue writable (set_queue (filter (unmarked marks) (queue m)) m))).

(** Outcome of the awaited [executeOperation]: fulfilled only if the
    request went out and the service answered well. *)
Definition delivered (ok : bool) (op : QueuedOperation) : bool :=
  ok && bool_decide (is_Some (executeOperation op)).

(** The queue after the [try]/[catch] of the loop body: untouched on
    success, [retryCount++] on the visited operation otherwise. *)
Definition visited (ok : bool) (i : nat) (op : QueuedOperation)
    (q : list QueuedOperation) : list QueuedOperation :=
  if delivered ok op then q else <[i := bump op]> q.

(** [successfulOperations] after the loop body (lines 103, 112-115). *)
Definition marked (ok : bool) (op : QueuedOperation) (marks : list string)
    : list string :=
  if delivered ok op then marks ++ [id op]
  else if (MAX_RETRIES <=? retryCount (bump op))%Z then marks ++ [id op]
       else marks.

(** The pending delivery settles ([ok] = fulfilled) and the pass runs on to
    its next [await] or to its end. *)
Definition resume (ok writable : bool) (m : manager) : manager :=
  match pending m with
  | None => m
  | Some f =>
      match queue m !! cursor f with
      | None => m
      | Some op =>
          let m1 := set_queue (visited ok (cursor f) op (queue m)) m in
          let f' := mkFrame (S (cursor f)) (marked ok op (successfulOperations f)) in
          match queue m1 !! S (cursor f) with
          | Some next => attempt next f' m1
          | None => finish writable (successfulOperations f') m1
          end
      end
  end.

(** [queueOperation] (lines 67-87); [now'] is the second reading of
    [Date.now()], for [timestamp]. *)
Definition queueOperation (ty : op_type) (d : value)
    (now : Z) (sfx : string) (now' : Z) (writable : bool)
    (m : manager) : string * manager :=
  let operation := mkOp (generateId now sfx) ty d now' 0%Z in
  let m1 := saveQueue writable (set_queue (queue m ++ [operation]) m) in
  let m2 := if isOnline m1 && negb (syncInProgress m1) then syncQueue m1 else m1 in
  (id operation, m2).

(** [new OfflineQueueManager()] (lines 15-27); [online] is
    [navigator.onLine]. *)
Definition create (online : bool) (s : slot) : manager :=
  let m := loadQueue (mkManager [] online false s [] None) in
  if isOnline m then syncQueue m else m.

(** ** Runs *)

(** What can happen to the manager: a call of [queueOperation], the
    [online] and [offline] listeners (lines 29-40), a call of [syncQueue],
    the answer to the delivery the pass is waiting for. *)
Inductive event : Type :=
  | Enqueue (ty : op_type) (d : value)
            (now : Z) (sfx : string) (now' : Z) (writable : bool)
  | Online
  | Offline
  | Sync
  | Settle (ok writable : bool).

Definition step (e : event) (m : manager) : manager :=
  match e with
  | Enqueue ty d now sfx now' w => (queueOperation ty d now sfx now' w m).2
  | Online => syncQueue (set_isOnline true m)
  | Offline => set_isOnline false m
  | Sync => syncQueue m
  | Settle ok w => resume ok w m
  end.

Definition run (tr : list event) (m : manager) : manager :=
  foldl (fun m e => step e m) m tr.

(** ** The same methods with their exceptions written out

    The definitions above fold every [try ... catch] into a case analysis.
    Here the throwing primitives ([JSON.parse], [localStorage.setItem], the
    awaited delivery) return a [result], and the
    methods are written with the [try]/[catch] blocks of the source. *)

Inductive error : Type :=
  | SyntaxError
  | QuotaExceededError
  | TypeError
  | DeliveryError.

Inductive result (A : Type) : Type :=
  | Returned (a : A)
  | Thrown (err : error).
Arguments Returned {A} a.
Arguments Thrown {A} err.

Definition andThen {A B : Type} (r : result A) (k : A -> result B) : result B :=
  match r with
  | Returned a => k a
  | Thrown err => Thrown err
  end.

Definition try_catch {A : Type} (body : result A) (handler : error -> result A)
    : result A :=
  match body with
  | Returned a => Returned a
  | Thrown err => handler err
  end.

Module Exn.

Definition getItem (s : slot) : result slot := Returned s.

(** [if (saved)]: [null] and the empty string are falsy. *)
Definition truthy (s : slot) : bool :=
  match s with
  | Missing | Blank => false
  | Garbled | Saved _ => true
  end.

(** [JSON.parse] on a typed slot: the text of a queue parses back to that
    queue ([JSON_parse_item_of] relates it to [Raw.JSON_parse]). *)
Definition JSON_parse (s : slot) : result (list QueuedOperation) :=
  match s with
  | Saved q => Returned q
  | Missing | Blank | Garbled => Thrown SyntaxError
  end.

Definition setItem (writable : bool) (q : list QueuedOperation) : result slot :=
  if writable then Returned (Saved q) else Thrown QuotaExceededError.

Definition loadQueue (m : manager) : result manager :=
  try_catch
    (andThen (getItem (store m)) (fun saved =>
       if truthy saved
       then andThen (JSON_parse saved) (fun q => Returned (set_queue q m))
       else Returned m))
    (fun _ => Returned (set_queue [] m)).

Definition saveQueue (writable : bool) (m : manager) : result manager :=
  try_catch
    (andThen (setItem writable (queue m)) (fun s => Returned (set_store s m)))
    (fun _ => Returned m).

(** [await this.executeOperation(operation)] once the service has answered. *)
Definition awaitOperation (ok : bool) (op : QueuedOperation) : result unit :=
  match executeOperation op with
  | None => Thrown TypeError
  | Some _ => if ok then Returned tt else Thrown DeliveryError
  end.

Definition syncQueue (m : manager) : result manager :=
  if negb (isOnline m) || syncInProgress m || (length (queue m) =? 0)
  then Returned m
  else
    match queue m !! 0 with
    | Some op => Returned (attempt op (mkFrame 0 []) (set_syncInProgress true m))
    | None => Returned m
    end.

Definition finish (writable : bool) (marks : list string) (m : manager)
    : result manager :=
  andThen (saveQueue writable (set_queue (filter (unmarked marks) (queue m)) m))
    (fun m1 => Returned (set_pending None (set_syncInProgress false m1))).

Definition resume (ok writable : bool) (m : manager) : result manager :=
  match pending m with
  | None => Returned m
  | Some f =>
      match queue m !! cursor f with
      | None => Returned m
      | Some op =>
          andThen
            (try_catch
               (andThen (awaitOperation ok op) (fun _ =>
                  Returned (m, successfulOperations f ++ [id op])))
               (fun _ =>
                  let m1 := set_queue (<[cursor f := bump op]> (queue m)) m in
                  Returned
                    (m1,
                     if (MAX_RETRIES <=? retryCount (bump op))%Z
                     then successfulOperations f ++ [id op]
                     else successfulOperations f)))
            (fun '(m1, marks) =>
               match queue m1 !! S (cursor f) with
               | Some next =>
                   Returned (attempt next (mkFrame (S (cursor f)) marks) m1)
               | None => finish writable marks m1
               end)
      end
  end.

Definition queueOperation (ty : op_type) (d : value)
    (now : Z) (sfx : string) (now' : Z) (writable : bool)
    (m : manager) : result (string * manager) :=
  let operation := mkOp (generateId now sfx) ty d now' 0%Z in
  andThen (saveQueue writable (set_queue (queue m ++ [operation]) m)) (fun m1 =>
  andThen (if isOnline m1 && negb (syncInProgress m1)
           then syncQueue m1 else Returned m1) (fun m2 =>
  Returned (id operation, m2))).

Definition create (online : bool) (s : slot) : result manager :=
  andThen (loadQueue (mkManager [] online false s [] None)) (fun m =>
  if isOnline m then syncQueue m else Returned m).

Definition step (e : event) (m : manager) : result manager :=
  match e with
  | Enqueue ty d now sfx now' w =>
      andThen (queueOperation ty d now sfx now' w m) (fun r => Returned r.2)
  | Online => syncQueue (set_isOnline true m)
  | Offline => Returned (set_isOnline false m)
  | Sync => syncQueue m
  | Settle ok w => resume ok w m
  end.

Definition run (tr : list event) (m : manager) : result manager :=
  foldl (fun r e => andThen r (step e)) (Returned m) tr.

End Exn.

(** ** [loadQueue] on any stored text

    [localStorage] may hold any text under [STORAGE_KEY].  [loadQueue]
    assigns what [JSON.parse] returns to [this.queue] as it is (line 46);
    here [this.queue] is the JSON value it holds. *)

(** The item under [STORAGE_KEY]: what [getItem] returns and, for a text,
    what [JSON.parse] makes of it. *)
Inductive item : Type :=
  | NoItem                     (* getItem gives null *)
  | EmptyText                  (* the empty string *)
  | Unparsable                 (* text JSON.parse rejects *)
  | Parses (v : json).         (* text JSON.parse turns into v *)

Definition type_tag (ty : op_type) : string :=
  match ty with
  | CREATE => "CREATE"
  | UPDATE => "UPDATE"
  | DELETE => "DELETE"
  | OTHER tag => tag
  end.

(** The JSON value of what [JSON.stringify] writes for an operation and
    for a queue (line 56); a property whose value is [undefined] is left
    out. *)
Definition stringify_op (o : QueuedOperation) : json :=
  JObj ([("id", JStr (id o)); ("type", JStr (type_tag (type o)))]
        ++ match data o with
           | Some d => [("data", d)]
           | None => []
           end
        ++ [("timestamp", JNum (timestamp o));
            ("retryCount", JNum (retryCount o))]).

Definition stringify (q : list QueuedOperation) : json :=
  JArr (stringify_op <$> q).

(** A typed slot as a stored text. *)
Definition item_of (s : slot) : item :=
  match s with
  | Missing => NoItem
  | Blank => EmptyText
  | Garbled => Unparsable
  | Saved q => Parses (stringify q)
  end.

Module Raw.

Definition getItem (it : item) : result item := Returned it.

(** [if (saved)]. *)
Definition truthy (it : item) : bool :=
  match it with
  | NoItem | EmptyText => false
  | Unparsable | Parses _ => true
  end.

(** [JSON.parse(saved)]; [null] is read as the text [null]. *)
Definition JSON_parse (it : item) : result json :=
  match it with
  | NoItem => Returned JNull
  | EmptyText | Unparsable => Thrown SyntaxError
  | Parses v => Returned v
  end.

(** [loadQueue] (lines 42-52); [queue] is [this.queue] before the call,
    the result is [this.queue] after it. *)
Definition loadQueue (it : item) (queue : json) : result json :=
  try_catch
    (andThen (getItem it) (fun saved =>
       if truthy saved
       then andThen (JSON_parse saved) (fun v => Returned v)
       else Returned queue))
    (fun _ => Returned (JArr [])).

End Raw.

(** ** Reachable states, invariants and observations on runs *)

Definition ids (q : list QueuedOperation) : list string := id <$> q.

Definition reachable (m : manager) : Prop :=
  exists online s tr, m = run tr (create online s).

(** The flag and the parked frame agree; the frame's cursor points into the
    queue and its marks come from operations already visited. *)
Definition wf (m : manager) : Prop :=
  match pending m with
  | None => syncInProgress m = false
  | Some f =>
      syncInProgress m = true /\
      cursor f < length (queue m) /\
      forall x, x ∈ successfulOperations f -> x ∈ ids (take (cursor f) (queue m))
  end.

(** The environment never hands [generateId] an id that is already queued. *)
Definition fresh_step (e : event) (m : manager) : Prop :=
  match e with
  | Enqueue _ _ now sfx _ _ => generateId now sfx ∉ ids (queue m)
  | _ => True
  end.

Fixpoint fresh_run (tr : list event) (m : manager) : Prop :=
  match tr with
  | [] => True
  | e :: tr' => fresh_step e m /\ fresh_run tr' (step e m)
  end.

(** What a restart would read back from the slot. *)
Definition persisted (s : slot) : list QueuedOperation :=
  match s with
  | Saved q => q
  | Missing | Blank | Garbled => []
  end.

(** The stored queue is the in-memory queue. *)
Definition synced (m : manager) : Prop := store m = Saved (queue m).

Definition is_enqueue (e : event) : bool :=
  match e with
  | Enqueue _ _ _ _ _ _ => true
  | _ => false
  end.

(** The storage write made by the event, if it makes one, succeeds. *)
Definition writes (e : event) : bool :=
  match e with
  | Enqueue _ _ _ _ _ w => w
  | Settle _ w => w
  | _ => true
  end.

(** The event is the stretch of [syncQueue] that ends a pass. *)
Definition ends_pass (e : event) (m : manager) : bool :=
  bool_decide (is_Some (pending m)) && bool_decide (pending (step e m) = None).

(** During a pass, every operation already visited and not marked for
    removal is below the cap. *)
Definition capped (m : manager) : Prop :=
  match pending m with
  | None => True
  | Some f =>
      forall i o, i < cursor f -> queue m !! i = Some o ->
        id o ∉ successfulOperations f -> (retryCount o < MAX_RETRIES)%Z
  end.

(** Number of passes that end along a run. *)
Fixpoint passes (tr : list event) (m : manager) : nat :=
  match tr with
  | [] => 0
  | e :: tr' => (if ends_pass e m then 1 else 0) + passes tr' (step e m)
  end.

(** The run goes up to the end of a pass and no further: its last event
    is the first one that ends a pass. *)
Fixpoint completes_pass (tr : list event) (m : manager) : Prop :=
  match tr with
  | [] => False
  | e :: tr' => if ends_pass e m then tr' = [] else completes_pass tr' (step e m)
  end.

(** The event delivers the answer to the attempt on the operation with id
    [x]. *)
Definition settles_on (x : string) (e : event) (m : manager) : bool :=
  match e, pending m with
  | Settle _ _, Some f =>
      match queue m !! cursor f with
      | Some op => bool_decide (id op = x)
      | None => false
      end
  | _, _ => false
  end.

(** Number of attempts on [x] that are answered along a run. *)
Fixpoint attempts_on (x : string) (tr : list event) (m : manager) : nat :=
  match tr with
  | [] => 0
  | e :: tr' => (if settles_on x e m then 1 else 0) + attempts_on x tr' (step e m)
  end.

(** If the event answers an attempt on [x], the attempt has failed. *)
Definition fails_on (x : string) (e : event) (m : manager) : Prop :=
  match e with
  | Settle ok _ =>
      forall f op, pending m = Some f -> queue m !! cursor f = Some op ->
        id op = x -> delivered ok op = false
  | _ => True
  end.

(** Every attempt on [x] answered along the run fails. *)
Fixpoint always_fails (x : string) (tr : list event) (m : manager) : Prop :=
  match tr with
  | [] => True
  | e :: tr' => fails_on x e m /\ always_fails x tr' (step e m)
  end.

(** The id handed out by the event, if it is an enqueue. *)
Definition issued (e : event) : option string :=
  match e with
  | Enqueue _ _ now sfx _ _ => Some (generateId now sfx)
  | _ => None
  end.

(** No enqueue of the run is handed the id [x]. *)
Definition never_reissued (x : string) (tr : list event) : Prop :=
  forall e, e ∈ tr -> issued e <> Some x.

(** Where the operation with id [x] stands after [k] completed passes and
    [a] answered attempts, all failed: below the cap it is queued with
    [retryCount = k], or [k + 1] once the pass in progress has visited it;
    from the cap on it is gone. *)
Definition tracked (x : string) (k a : nat) (m : manager) : Prop :=
  if decide (Z.of_nat k < MAX_RETRIES)%Z then
    exists i o, queue m !! i = Some o /\ id o = x /\
      match pending m with
      | None => retryCount o = Z.of_nat k /\ a = k
      | Some f =>
          (cursor f <= i /\ retryCount o = Z.of_nat k /\ a = k) \/
          (i < cursor f /\ retryCount o = (Z.of_nat k + 1)%Z /\ a = S k /\
           (x ∈ successfulOperations f <-> (MAX_RETRIES <= Z.of_nat k + 1)%Z))
      end
  else (x ∉ ids (queue m)) /\ a = Z.to_nat MAX_RETRIES.

(** The operation with id [x] has just been queued: it sits in the queue
    with [retryCount = 0], not yet visited by a pass in progress. *)
Definition newly_queued (x : string) (m : manager) : Prop :=
  exists i o, queue m !! i = Some o /\ id o = x /\ retryCount o = 0%Z /\
    forall f, pending m = Some f -> cursor f <= i.

(** The answers of the service (and of the storage write, should the pass
    end there), one per attempt. *)
Definition settles (os : list (bool * bool)) : list event :=
  (fun o => Settle o.1 o.2) <$> os.

(** ** Sample data *)

Definition corn : value :=
  Some (JObj [("cropName", JStr "Corn"); ("quantity", JNum 12); ("unit", JStr "kg")]).
Definition wheat : value :=
  Some (JObj [("cropName", JStr "Wheat"); ("quantity", JNum 3); ("unit", JStr "t")]).

(** A manager started offline on an empty slot. *)
Definition fresh_offline : manager := create false Missing.

Definition enqueueA : event := Enqueue CREATE corn 1700000000000 "k3j2h1g0f" 1700000000000 true.
Definition enqueueB : event := Enqueue CREATE wheat 1700000000050 "z9y8x7w6v" 1700000000050 true.

(** A slot left by an earlier session: one operation stored with a counter
    far above the cap, one stored with a fresh counter. *)
Definition stale_slot : slot :=
  Saved [mkOp "offline_1_old" CREATE corn 1 7; mkOp "offline_2_new" CREATE wheat 2 0].

Definition idA : string := generateId 1700000000000 "k3j2h1g0f".

(** Three reconnect/drain cycles in which every delivery fails, followed by
    one more drain request. *)
Definition three_failures : list event :=
  [Online; Settle false true; Offline;
   Online; Settle false true;
   Sync; Settle false true;
   Sync].

(** Two enqueues that read the same clock value and draw the same suffix:
    an update without payload, which [executeOperation] cannot even send,
    and a create. *)
Definition twinA : event :=
  Enqueue UPDATE None 1700000000000 "k3j2h1g0f" 1700000000000 true.
Definition twinB : event :=
  Enqueue CREATE corn 1700000000000 "k3j2h1g0f" 1700000000000 true.

(** Enqueued offline, then two drain cycles whose delivery fails, then a
    third drain request: the third attempt is under way. *)
Definition two_failures : list event :=
  [enqueueA; Online; Settle false true; Sync; Settle false true; Sync].

(** ** Status, harvest helper and observations for further properties *)

(** The object returned by [getQueueStatus] (lines 147-153). *)
Module Status.
Record t : Type := mk {
  isOnline : bool;
  queueLength : nat;
  syncInProgress : bool
}.
End Status.

Definition getQueueStatus (m : manager) : Status.t :=
  Status.mk (isOnline m) (length (queue m)) (syncInProgress m).

(** [getOfflineStatus] (line 174) reads the status of the singleton. *)
Definition getOfflineStatus (m : manager) : Status.t := getQueueStatus m.

(** [queueHarvest] (lines 162-164). *)
Definition queueHarvest (harvest : value)
    (now : Z) (sfx : string) (now' : Z) (writable : bool)
    (m : manager) : string * manager :=
  queueOperation CREATE harvest now sfx now' writable m.

(** What of an operation is fixed at enqueue time. *)
Definition core (o : QueuedOperation) : string * op_type * value * Z :=
  (id o, type o, data o, timestamp o).

(** The operation an event appends, if it is an enqueue. *)
Definition enqueued (e : event) : list QueuedOperation :=
  match e with
  | Enqueue ty d now sfx now' _ => [mkOp (generateId now sfx) ty d now' 0%Z]
  | _ => []
  end.

(** What the two listeners (lines 29-40) make of a run, starting from
    [b]. *)
Definition connectivity (b : bool) (tr : list event) : bool :=
  foldl (fun b e => match e with
                    | Online => true
                    | Offline => false
                    | _ => b
                    end) b tr.

(** Every counter in the queue is a number of failures below the cap. *)
Definition sane (q : list QueuedOperation) : Prop :=
  forall o, o ∈ q -> (0 <= retryCount o < MAX_RETRIES)%Z.

(** Counters at any moment: below the cap, or at the cap for an operation
    the pass in progress has visited and marked for removal. *)
Definition bounded (m : manager) : Prop :=
  forall i o, queue m !! i = Some o ->
    (0 <= retryCount o)%Z /\
    ((retryCount o < MAX_RETRIES)%Z \/
     exists f, pending m = Some f /\ i < cursor f /\
       id o ∈ successfulOperations f /\ retryCount o = MAX_RETRIES).

(** What one attempt leaves of an operation at the end of the pass. *)
Definition outcome (ok : bool) (o : QueuedOperation) : option QueuedOperation :=
  if delivered ok o then None
  else if (MAX_RETRIES <=? retryCount (bump o))%Z then None
       else Some (bump o).

(** The queue a pass leaves, given the answer to each attempt in turn. *)
Fixpoint pass_result (oks : list bool) (q : list QueuedOperation)
    : list QueuedOperation :=
  match oks, q with
  | ok :: oks', o :: q' => option_list (outcome ok o) ++ pass_result oks' q'
  | _, _ => []
  end.

(** The separator [generateId] puts between clock reading and suffix. *)
Definition underscore : Ascii.ascii := Ascii.ascii_of_nat 95.

(** Whether a character occurs in a string. *)
Fixpoint has_char (c : Ascii.ascii) (s : string) : bool :=
  match s with
  | EmptyString => false
  | String c' s' => if Ascii.eqb c c' then true else has_char c s'
  end.

(** ** Harvest records and the dashboard figures (pages/Home.tsx) *)

(** The [Harvest] interface is declared in services/api, which is not
    among the sources; its fields are those the pages read and write
    (CreateHarvest.tsx lines 62-90, Home.tsx lines 58-71).  [quantity] is an
    integer here. *)
Module Api.
Record Harvest : Type := mkHarvest {
  _id : string;
  cropName : string;
  quantity : Z;
  unit : string;
  location : string;
  harvestDate : string;
  createdAt : string;
  updatedAt : string
}.
End Api.

Module Home.

(** [getUniqueFields] (lines 62-64): the size of the set of locations. *)
Definition getUniqueFields (harvests : list Api.Harvest) : nat :=
  length (remove_dups (Api.location <$> harvests)).

(** [new Date(current.harvestDate) > new Date(latest.harvestDate)];
    [time] is the time value [new Date] gives a date string, [None] for an
    invalid date, whose comparisons are all false. *)
Definition later (time : string -> option Z) (current latest : Api.Harvest)
    : bool :=
  match time (Api.harvestDate current), time (Api.harvestDate latest) with
  | Some c, Some l => bool_decide (l < c)%Z
  | _, _ => false
  end.

(** [getMostRecentHarvest] (lines 66-71): [reduce] without initial value
    starts from the first harvest. *)
Definition getMostRecentHarvest (time : string -> option Z)
    (harvests : list Api.Harvest) : option Api.Harvest :=
  match harvests with
  | [] => None
  | first :: rest =>
      Some (foldl (fun latest current =>
                     if later time current latest then current else latest)
                  first rest)
  end.

End Home.

(** A reading of three date strings, for examples. *)
Definition sample_time (s : string) : option Z :=
  if String.eqb s "2024-03-01T00:00:00.000Z" then Some 1709251200000%Z
  else if String.eqb s "2024-05-01T00:00:00.000Z" then Some 1714521600000%Z
  else None.

Definition harvestMarch : Api.Harvest :=
  Api.mkHarvest "h1" "Corn" 12 "kg" "North field"
    "2024-03-01T00:00:00.000Z" "2024-03-01T00:00:00.000Z" "2024-03-01T00:00:00.000Z".
Definition harvestMay : Api.Harvest :=
  Api.mkHarvest "h2" "Wheat" 3 "t" "North field"
    "2024-05-01T00:00:00.000Z" "2024-05-01T00:00:00.000Z" "2024-05-01T00:00:00.000Z".
Definition harvestUndated : Api.Harvest :=
  Api.mkHarvest "h3" "Rye" 5 "kg" "South field" "soon" "soon" "soon".

(** ** The submit handler (pages/CreateHarvest.tsx) and the QR link *)

Module Page.

(** The validated form values [onSubmit] receives; [harvestDate] stands for
    [data.harvestDate.toISOString()], the date being valid. *)
Record HarvestForm : Type := mkForm {
  cropName : string;
  quantity : Z;
  unit : string;
  harvestDate : string;
  location : string
}.

(** [harvestData] (lines 62-68). *)
Definition harvestData (data : HarvestForm) : value :=
  Some (JObj [("cropName", JStr (cropName data));
              ("quantity", JNum (quantity data));
              ("unit", JStr (unit data));
              ("location", JStr (location data));
              ("harvestDate", JStr (harvestDate data))]).

(** The three toasts of [onSubmit], by what varies in them. *)
Inductive toast : Type :=
  | Success (crop : string)
  | SavedOffline (crop : string)
  | Failed (description : string).

(** What [harvestService.createHarvest] answers to the page: the stored
    record, or an error with [error.response?.data?.message]. *)
Inductive answer : Type :=
  | Created (result : Api.Harvest)
  | Rejected (message : option string).

(** [error.response?.data?.message || "Failed to create harvest. ..."]: a
    missing or empty message gives way to the default. *)
Definition describe (message : option string) : string :=
  match message with
  | Some s => if String.eqb s "" then "Failed to create harvest. Please try again."
              else s
  | None => "Failed to create harvest. Please try again."
  end.

(** The state of the page that [onSubmit] writes. *)
Record page : Type := mkPage {
  loading : bool;
  createdHarvest : option Api.Harvest;
  showQR : bool;
  toasts : list toast;
  form : HarvestForm
}.

(** What the environment decides during one submission: the two readings
    of [navigator.onLine] (lines 70 and 114), the answer of the service,
    the draws of [queueOperation], the clock readings for the temporary
    record and for the reset form. *)
Record env : Type := mkEnv {
  online_at_submit : bool;
  service : answer;
  online_at_failure : bool;
  now : Z;
  sfx : string;
  now' : Z;
  writable : bool;
  createdAt : string;
  updatedAt : string;
  today : string
}.

(** The form after [reset] (lines 103-109). *)
Definition blank (today : string) : HarvestForm := mkForm "" 0 "kg" today "".

(** The temporary record shown for a queued harvest (lines 85-90). *)
Definition tempHarvest (queueId : string) (data : HarvestForm)
    (createdAt updatedAt : string) : Api.Harvest :=
  Api.mkHarvest queueId (cropName data) (quantity data) (unit data)
    (location data) (harvestDate data) createdAt updatedAt.

(** [onSubmit] (lines 58-124).  The direct request is entered in the same
    log as the manager's requests.  The handler touches the manager before
    its [await] and the page after it. *)
Definition onSubmit (data : HarvestForm) (e : env) (p : page) (m : manager)
    : page * manager :=
  if online_at_submit e then
    let m1 := set_calls (calls m ++ [createHarvest (harvestData data)]) m in
    match service e with
    | Created result =>
        (mkPage false (Some result) true
           (toasts p ++ [Success (cropName data)]) (blank (today e)), m1)
    | Rejected message =>
        (mkPage false (createdHarvest p) (showQR p)
           (toasts p ++ (if online_at_failure e
                         then [Failed (describe message)] else []))
           (form p), m1)
    end
  else
    let r := queueHarvest (harvestData data) (now e) (sfx e) (now' e)
                          (writable e) m in
    (mkPage false (Some (tempHarvest r.1 data (createdAt e) (updatedAt e))) true
       (toasts p ++ [SavedOffline (cropName data)]) (blank (today e)), r.2).

(** [harvestUrl] of the QR preview (QRPreview, line 192 of
    utils/offlineQueue.ts). *)
Definition harvestUrl (harvestId : string) : string :=
  "https://customer-app.farmtracker.com/harvest/" +:+ harvestId.

(** The link in the QR code the page shows (CreateHarvest.tsx lines
    240-260): none unless [showQR] is set and a harvest has been created. *)
Definition shownLink (p : page) : option string :=
  if showQR p then (fun h => harvestUrl (Api._id h)) <$> createdHarvest p
  else None.

End Page.

Definition cornForm : Page.HarvestForm :=
  Page.mkForm "Corn" 12 "kg" "2024-03-01T00:00:00.000Z" "North field".

Definition offlineEnv : Page.env :=
  Page.mkEnv false (Page.Rejected None) false 1700000000000 "k3j2h1g0f"
    1700000000000 true "2024-03-01T08:00:00.000Z" "2024-03-01T08:00:00.000Z"
    "2024-03-01T08:00:00.000Z".

Definition blankPage : Page.page :=
  Page.mkPage false None false [] (Page.blank "2024-03-01T07:00:00.000Z").

(** ** [clearQueue]

    [clearQueue] (lines 156-159) assigns a new, empty array to
    [this.queue].  A pass in progress keeps iterating over the array it
    started on, which from then on is no longer the queue; [detached] holds
    that array.  The final [filter] of the pass applies to [this.queue] as
    it is then. *)

Record xmanager : Type := mkX {
  base : manager;
  detached : option (list QueuedOperation)
}.

Inductive xevent : Type :=
  | Plain (e : event)
  | Clear (writable : bool).

Definition clearQueue (writable : bool) (x : xmanager) : xmanager :=
  let m := base x in
  mkX (saveQueue writable (set_queue [] m))
      (match detached x, pending m with
       | Some a, _ => Some a
       | None, Some _ => Some (queue m)
       | None, None => None
       end).

(** The pass resumes over a detached array: counters are incremented in
    the old array, the next operation is taken from it, and the end of the
    pass filters and saves the current queue. *)
Definition xresume (ok writable : bool) (x : xmanager) : xmanager :=
  match detached x with
  | None => mkX (resume ok writable (base x)) None
  | Some a =>
      match pending (base x) with
      | None => x
      | Some f =>
          match a !! cursor f with
          | None => x
          | Some op =>
              let a1 := visited ok (cursor f) op a in
              let marks := marked ok op (successfulOperations f) in
              match a1 !! S (cursor f) with
              | Some next =>
                  mkX (attempt next (mkFrame (S (cursor f)) marks) (base x))
                      (Some a1)
              | None => mkX (finish writable marks (base x)) None
              end
          end
      end
  end.

Definition xstep (e : xevent) (x : xmanager) : xmanager :=
  match e with
  | Plain (Settle ok w) => xresume ok w x
  | Plain e' => mkX (step e' (base x)) (detached x)
  | Clear w => clearQueue w x
  end.

Definition xrun (tr : list xevent) (x : xmanager) : xmanager :=
  foldl (fun x e => xstep e x) x tr.

Definition has_enqueue (tr : list event) : bool :=
  existsb is_enqueue tr.

(** After [k] completed passes, what is known of the queued operations
    with id [x] that were there from the start: below the cap each has
    failed at least [k] times, and one the pass in progress has visited has
    failed once more or is marked for removal; from the cap on there is
    none. *)
Definition aged (x : string) (k : nat) (m : manager) : Prop :=
  if decide (Z.of_nat k < MAX_RETRIES)%Z then
    forall i o, queue m !! i = Some o -> id o = x ->
      match pending m with
      | None => (Z.of_nat k <= retryCount o)%Z
      | Some f =>
          if decide (i < cursor f)
          then (Z.of_nat k + 1 <= retryCount o)%Z \/ x ∈ successfulOperations f
          else (Z.of_nat k <= retryCount o)%Z
      end
  else x ∉ ids (queue m).

(** What holds of the extended state: without a detached array the manager
    is well-formed; with one, a pass is parked on a position of it. *)
Definition xwf (x : xmanager) : Prop :=
  match detached x with
  | None => wf (base x)
  | Some a =>
      syncInProgress (base x) = true /\
      exists f, pending (base x) = Some f /\ cursor f < length a
  end.

(** States reached from the constructor by calls of [queueOperation],
    [syncQueue] and [clearQueue], the two listeners and the answers of the
    service. *)
Definition xreachable (x : xmanager) : Prop :=
  exists online s tr, x = xrun tr (mkX (create online s) None).

Definition is_settle (e : event) : bool :=
  match e with
  | Settle _ _ => true
  | _ => false
  end.

(** Number of answers in a run. *)
Fixpoint answers (tr : list event) : nat :=
  match tr with
  | [] => 0
  | e :: tr' => (if is_settle e then 1 else 0) + answers tr'
  end.


(** A third enqueue, some time after [enqueueA] and [enqueueB]. *)
Definition enqueueC : event :=
  Enqueue CREATE corn 1700000000100 "m5n4b3v2c" 1700000000100 true.

(** ** The two presentations agree *)

Lemma loadQueue_returns m : Exn.loadQueue m = Returned (loadQueue m).
Proof.
  unfold Exn.loadQueue, loadQueue, Exn.getItem. simpl.
  by destruct (store m).
Qed.

Lemma saveQueue_returns writable m :
  Exn.saveQueue writable m = Returned (saveQueue writable m).
Proof. by destruct writable. Qed.

Lemma syncQueue_returns m : Exn.syncQueue m = Returned (syncQueue m).
Proof.
  unfold Exn.syncQueue, syncQueue.
  destruct (negb (isOnline m) || syncInProgress m || (length (queue m) =? 0));
    [done|].
  by destruct (queue m !! 0).
Qed.

Lemma finish_returns writable marks m :
  Exn.finish writable marks m = Returned (finish writable marks m).
Proof. unfold Exn.finish. by rewrite saveQueue_returns. Qed.

Lemma resume_returns ok writable m :
  Exn.resume ok writable m = Returned (resume ok writable m).
Proof.
  unfold Exn.resume, resume, Exn.awaitOperation.
  destruct (pending m) as [f|]; [|done].
  destruct (queue m !! cursor f) as [op|]; [|done].
  unfold visited, marked, delivered.
  destruct m as [q o p st cs pd]; simpl in *.
  destruct (executeOperation op) as [c|], ok; simpl;
    repeat case_match; rewrite ?finish_returns; simplify_eq; try done.
Qed.

Lemma queueOperation_returns ty d now sfx now' writable m :
  Exn.queueOperation ty d now sfx now' writable m
  = Returned (queueOperation ty d now sfx now' writable m).
Proof.
  unfold Exn.queueOperation, queueOperation.
  rewrite saveQueue_returns. simpl.
  case_match; by rewrite ?syncQueue_returns.
Qed.

Lemma create_returns online s :
  Exn.create online s = Returned (create online s).
Proof.
  unfold Exn.create, create. rewrite loadQueue_returns. simpl.
  case_match; by rewrite ?syncQueue_returns.
Qed.

Lemma step_returns e m : Exn.step e m = Returned (step e m).
Proof.
  destruct e; simpl;
    rewrite ?queueOperation_returns, ?syncQueue_returns, ?resume_returns; done.
Qed.

(** ** Basic facts *)

Lemma id_bump op : id (bump op) = id op.
Proof. done. Qed.

Lemma executeOperation_bump op : executeOperation (bump op) = executeOperation op.
Proof. done. Qed.

Lemma ids_insert_bump (q : list QueuedOperation) i op :
  q !! i = Some op -> ids (<[i := bump op]> q) = ids q.
Proof.
  intros H. unfold ids. rewrite list_fmap_insert. simpl.
  apply list_insert_id. by rewrite list_lookup_fmap, H.
Qed.

Lemma ids_visited ok (q : list QueuedOperation) i op :
  q !! i = Some op -> ids (visited ok i op q) = ids q.
Proof. unfold visited. case_match; [done|]. apply ids_insert_bump. Qed.

Lemma length_visited ok (q : list QueuedOperation) i op :
  length (visited ok i op q) = length q.
Proof. unfold visited. case_match; [done|]. apply length_insert. Qed.

Lemma lookup_visited_ne ok (q : list QueuedOperation) i j op :
  i <> j -> visited ok i op q !! j = q !! j.
Proof. unfold visited. case_match; [done|]. apply list_lookup_insert_ne. Qed.

Lemma lookup_visited_eq ok (q : list QueuedOperation) i op :
  q !! i = Some op ->
  visited ok i op q !! i = Some (if delivered ok op then op else bump op).
Proof.
  intros H. unfold visited. case_match; [done|].
  apply list_lookup_insert_eq. by eapply lookup_lt_Some.
Qed.

Lemma marked_mono ok op marks x : x ∈ marks -> x ∈ marked ok op marks.
Proof.
  unfold marked. intros H. repeat case_match; try done;
    apply elem_of_app; by left.
Qed.

Lemma marked_inv ok op marks x :
  x ∈ marked ok op marks -> x ∈ marks \/ x = id op.
Proof.
  unfold marked. intros H.
  repeat case_match; try (by left);
    apply elem_of_app in H as [H | H]; [by left | | by left | ];
    apply list_elem_of_singleton in H; by right.
Qed.

Lemma queue_syncQueue m : queue (syncQueue m) = queue m.
Proof. unfold syncQueue. by repeat case_match. Qed.

Lemma store_syncQueue m : store (syncQueue m) = store m.
Proof. unfold syncQueue. by repeat case_match. Qed.

Lemma isOnline_syncQueue m : isOnline (syncQueue m) = isOnline m.
Proof. unfold syncQueue. by repeat case_match. Qed.

(** [syncQueue] past its guard. *)
Lemma syncQueue_starts m op :
  isOnline m = true -> syncInProgress m = false -> queue m !! 0 = Some op ->
  syncQueue m = attempt op (mkFrame 0 []) (set_syncInProgress true m).
Proof.
  intros Ho Hs Hq. unfold syncQueue. rewrite Ho, Hs, Hq. simpl.
  destruct (queue m); [done|]. done.
Qed.

Lemma syncQueue_guarded m :
  isOnline m = false \/ syncInProgress m = true \/ queue m = [] ->
  syncQueue m = m.
Proof.
  intros [H|[H|H]]; unfold syncQueue; rewrite H; simpl;
    rewrite ?orb_true_r; done.
Qed.

Lemma resume_unfold ok w m f op :
  pending m = Some f -> queue m !! cursor f = Some op ->
  resume ok w m =
    let m1 := set_queue (visited ok (cursor f) op (queue m)) m in
    let marks := marked ok op (successfulOperations f) in
    match queue m !! S (cursor f) with
    | Some next => attempt next (mkFrame (S (cursor f)) marks) m1
    | None => finish w marks m1
    end.
Proof.
  intros Hp Hq. unfold resume. rewrite Hp, Hq. simpl.
  rewrite lookup_visited_ne by lia. done.
Qed.

(** A parked frame that points outside the queue never resumes; under [wf]
    there is none. *)
Lemma resume_stuck ok w m f :
  pending m = Some f -> queue m !! cursor f = None -> resume ok w m = m.
Proof. intros Hp Hq. unfold resume. by rewrite Hp, Hq. Qed.

Lemma resume_idle ok w m : pending m = None -> resume ok w m = m.
Proof. intros Hp. unfold resume. by rewrite Hp. Qed.

(** ** The invariant [wf] *)

Lemma wf_syncQueue m : wf m -> wf (syncQueue m).
Proof.
  intros Hwf. unfold syncQueue.
  destruct (negb (isOnline m) || syncInProgress m || (length (queue m) =? 0))
    eqn:Hg; [done|].
  destruct (queue m !! 0) as [op|] eqn:Hq; [|done].
  unfold wf, attempt; simpl. split; [done|].
  split; [by eapply lookup_lt_Some|]. intros x Hx. by apply elem_of_nil in Hx.
Qed.

Lemma wf_set_isOnline b m : wf m -> wf (set_isOnline b m).
Proof. done. Qed.

Lemma wf_queueOperation ty d now sfx now' w m :
  wf m -> wf (queueOperation ty d now sfx now' w m).2.
Proof.
  intros Hwf. unfold queueOperation; simpl.
  set (op := mkOp _ _ _ _ _).
  assert (wf (saveQueue w (set_queue (queue m ++ [op]) m))) as Hwf1.
  { unfold wf in *. destruct w; simpl;
      (destruct (pending m) as [f|]; [|done]);
      destruct Hwf as (Hs & Hc & Hm); (split; [done|]);
      (split; [rewrite length_app; lia|]);
      intros x Hx; rewrite take_app_le by lia; auto. }
  case_match; [by apply wf_syncQueue|done].
Qed.

Lemma wf_resume ok w m : wf m -> wf (resume ok w m).
Proof.
  intros Hwf. unfold resume.
  destruct (pending m) as [f|] eqn:Hp; [|done].
  destruct (queue m !! cursor f) as [op|] eqn:Hq; [|done].
  simpl. destruct (visited ok (cursor f) op (queue m) !! S (cursor f))
    as [next|] eqn:Hn.
  - unfold wf in *; simpl. rewrite Hp in Hwf. destruct Hwf as (Hs & Hc & Hm).
    split; [done|]. split; [by eapply lookup_lt_Some|].
    intros x Hx. unfold ids.
    erewrite take_S_r by (by apply lookup_visited_eq).
    rewrite fmap_app. apply elem_of_app.
    apply marked_inv in Hx as [Hx | ->].
    + left. apply Hm in Hx. unfold visited. case_match; [done|].
      rewrite take_insert_ge by lia. done.
    + right. simpl. apply list_elem_of_singleton. by case_match.
  - unfold wf, finish, saveQueue. by destruct w.
Qed.

Lemma wf_step e m : wf m -> wf (step e m).
Proof.
  destruct e; simpl; intros Hwf.
  - by apply wf_queueOperation.
  - by apply wf_syncQueue, wf_set_isOnline.
  - done.
  - by apply wf_syncQueue.
  - by apply wf_resume.
Qed.

Lemma wf_run tr m : wf m -> wf (run tr m).
Proof.
  revert m. induction tr as [|e tr IH]; intros m Hwf; [done|].
  simpl. apply IH. by apply wf_step.
Qed.

Lemma wf_create online s : wf (create online s).
Proof.
  unfold create.
  assert (wf (loadQueue (mkManager [] online false s [] None))) as H.
  { unfold loadQueue. by repeat case_match. }
  case_match; [by apply wf_syncQueue|done].
Qed.

Lemma reachable_wf m : reachable m -> wf m.
Proof.
  intros (online & s & tr & ->). apply wf_run, wf_create.
Qed.

Lemma reachable_step e m : reachable m -> reachable (step e m).
Proof.
  intros (online & s & tr & ->).
  exists online, s, (tr ++ [e]).
  unfold run. by rewrite foldl_app.
Qed.

Lemma run_app tr1 tr2 m : run (tr1 ++ tr2) m = run tr2 (run tr1 m).
Proof. unfold run. apply foldl_app. Qed.

Lemma run_returns tr m : Exn.run tr m = Returned (run tr m).
Proof.
  unfold Exn.run, run. revert m.
  induction tr as [|e tr IH]; intros m; [done|].
  simpl. rewrite step_returns. apply IH.
Qed.

(** ** Drain guard *)

(** C4. Calling [syncQueue] while offline, while a pass is in progress, or
    with an empty queue changes nothing: it returns (no exception) the very
    same manager, so the in-memory queue, the stored queue and the log of
    service calls are as before. *)
Theorem syncQueue_guard_noop m :
  isOnline m = false \/ syncInProgress m = true \/ queue m = [] ->
  Exn.syncQueue m = Returned m /\
  step Sync m = m /\
  queue (syncQueue m) = queue m /\
  store (syncQueue m) = store m /\
  calls (syncQueue m) = calls m.
Proof.
  intros Hg. pose proof (syncQueue_guarded m Hg) as E.
  rewrite syncQueue_returns. simpl. rewrite E. done.
Qed.

Lemma syncQueue_guard_noop_offline :
  let m := (queueOperation CREATE None 7 "a" 7 true (create false Missing)).2 in
  isOnline m = false /\ queue m <> [] /\ step Sync m = m /\ calls (syncQueue m) = [].
Proof.
  intros m. split; [reflexivity|]. split; [discriminate|].
  destruct (syncQueue_guard_noop m) as (_ & H1 & _ & _ & H2);
    [left; reflexivity|].
  split; [exact H1 | exact H2].
Defined.

(** ** Loading *)

(** On a typed slot [loadQueue] yields the stored queue when the slot holds
    one, and the empty queue when the slot is absent, blank or unparseable;
    neither it nor the constructor throws. *)
Lemma loadQueue_persisted_or_empty (online : bool) (s : slot) :
  let m0 := mkManager [] online false s [] None in
  Exn.loadQueue m0 = Returned (loadQueue m0) /\
  queue (loadQueue m0) = persisted s /\
  (forall q, s = Saved q -> queue (loadQueue m0) = q) /\
  (s = Missing \/ s = Blank \/ s = Garbled -> queue (loadQueue m0) = []) /\
  exists m, Exn.create online s = Returned m /\ queue m = persisted s.
Proof.
  intros m0. split; [apply loadQueue_returns|].
  assert (queue (loadQueue m0) = persisted s) as Hq.
  { unfold loadQueue, m0. by destruct s. }
  split; [exact Hq|].
  split; [intros q ->; by rewrite Hq|].
  split; [intros [-> | [-> | ->]]; by rewrite Hq|].
  exists (create online s). split; [apply create_returns|].
  unfold create. fold m0. case_match; [|done]. by rewrite queue_syncQueue.
Qed.

(** The typed [loadQueue] is [Raw.loadQueue] on the typed slots. *)
Lemma JSON_parse_item_of s :
  Exn.truthy s = true ->
  Raw.JSON_parse (item_of s)
  = andThen (Exn.JSON_parse s) (fun q => Returned (stringify q)).
Proof. by destruct s. Qed.

Lemma loadQueue_item_of m :
  Raw.loadQueue (item_of (store m)) (stringify (queue m))
  = Returned (stringify (queue (loadQueue m))).
Proof. unfold loadQueue. by destruct (store m). Qed.

(** Whatever the slot holds, [loadQueue] returns: the parsed value for a
    text that parses, the queue as it was for no item or the empty text,
    the empty queue for a text that does not parse. *)
Lemma Raw_loadQueue_returns it queue :
  Raw.loadQueue it queue
  = Returned match it with
             | NoItem | EmptyText => queue
             | Unparsable => JArr []
             | Parses v => v
             end.
Proof. by destruct it. Qed.

Lemma stringify_is_array_of_objects q :
  stringify q <> JNull /\ stringify q <> JObj [] /\ stringify q <> JArr [JNull].
Proof.
  unfold stringify. split; [done|]. split; [done|].
  destruct q as [|o [|o' q]]; simpl; intros E; simplify_eq.
Qed.

(** C7. [loadQueue] does not yield a sequence of operations for every
    stored state: it assigns what [JSON.parse] returns to the queue
    unchecked.  When the slot holds the text [null], [{}] or [[null]], the
    queue of a new manager becomes that value, which is neither the JSON of
    a sequence of operations nor the empty sequence. *)
Theorem loadQueue_installs_unchecked :
  Raw.loadQueue (Parses JNull) (JArr []) = Returned JNull /\
  Raw.loadQueue (Parses (JObj [])) (JArr []) = Returned (JObj []) /\
  Raw.loadQueue (Parses (JArr [JNull])) (JArr []) = Returned (JArr [JNull]) /\
  (forall q : list QueuedOperation,
     stringify q <> JNull /\ stringify q <> JObj [] /\
     stringify q <> JArr [JNull]).
Proof.
  split; [reflexivity|]. split; [reflexivity|]. split; [reflexivity|].
  apply stringify_is_array_of_objects.
Qed.

(** ** Errors stay inside *)

(** C8. Whatever the service answers and whether or not storage can be
    written, [queueOperation] and every stretch of [syncQueue] return
    normally; and when a delivery fails while a further operation is queued
    behind it, the pass goes on with that operation: its request is sent
    next and the pass stays in progress. *)
Theorem errors_never_propagate :
  (forall ty d now sfx now' w m,
     Exn.queueOperation ty d now sfx now' w m
     = Returned (queueOperation ty d now sfx now' w m)) /\
  (forall m, Exn.syncQueue m = Returned (syncQueue m)) /\
  (forall ok w m, Exn.resume ok w m = Returned (resume ok w m)) /\
  (forall tr m, Exn.run tr m = Returned (run tr m)) /\
  (forall m f next w,
     pending m = Some f -> queue m !! S (cursor f) = Some next ->
     exists f',
       pending (resume false w m) = Some f' /\
       cursor f' = S (cursor f) /\
       calls (resume false w m) = calls m ++ option_list (executeOperation next)).
Proof.
  split; [apply queueOperation_returns|].
  split; [apply syncQueue_returns|].
  split; [apply resume_returns|].
  split; [apply run_returns|].
  intros m f next w Hp Hn.
  destruct (lookup_lt_is_Some_2 (queue m) (cursor f)) as [op Hop].
  { apply lookup_lt_Some in Hn. lia. }
  unfold resume. rewrite Hp, Hop. simpl.
  rewrite lookup_visited_ne by lia. rewrite Hn.
  eexists. split; [reflexivity|]. done.
Qed.

(** ** Enqueue *)

Lemma queue_queueOperation ty d now sfx now' w m :
  queue (queueOperation ty d now sfx now' w m).2
  = queue m ++ [mkOp (generateId now sfx) ty d now' 0].
Proof.
  unfold queueOperation; simpl.
  case_match; rewrite ?queue_syncQueue; by destruct w.
Qed.

Lemma store_queueOperation ty d now sfx now' w m :
  store (queueOperation ty d now sfx now' w m).2
  = if w then Saved (queue m ++ [mkOp (generateId now sfx) ty d now' 0])
    else store m.
Proof.
  unfold queueOperation; simpl.
  case_match; rewrite ?store_syncQueue; by destruct w.
Qed.

Lemma isOnline_queueOperation ty d now sfx now' w m :
  isOnline (queueOperation ty d now sfx now' w m).2 = isOnline m.
Proof.
  unfold queueOperation; simpl.
  case_match; rewrite ?isOnline_syncQueue; by destruct w.
Qed.

Lemma calls_queueOperation_offline ty d now sfx now' w m :
  isOnline m = false ->
  calls (queueOperation ty d now sfx now' w m).2 = calls m.
Proof.
  intros Ho. unfold queueOperation; simpl.
  destruct w; simpl; rewrite Ho; done.
Qed.

(** A run of enqueue calls made while offline. *)
Lemma offline_enqueues tr m :
  forallb is_enqueue tr = true -> isOnline m = false ->
  isOnline (run tr m) = false /\
  length (queue (run tr m)) = length (queue m) + length tr /\
  calls (run tr m) = calls m /\
  (forallb writes tr = true -> tr <> [] -> synced (run tr m)).
Proof.
  revert m. induction tr as [|e tr IH] using rev_ind; intros m He Ho.
  { simpl. repeat split; (done || lia). }
  rewrite forallb_app in He. apply andb_true_iff in He as [He1 He2].
  simpl in He2. rewrite andb_true_r in He2.
  destruct (IH m He1 Ho) as (Ho' & Hlen & Hcalls & Hsync).
  rewrite run_app. destruct e as [ty d now sfx now' writable| | | |]; try discriminate.
  change (run [Enqueue ty d now sfx now' writable] (run tr m))
    with (queueOperation ty d now sfx now' writable (run tr m)).2.
  split; [by rewrite isOnline_queueOperation|].
  split; [rewrite queue_queueOperation, !length_app; simpl; lia|].
  split; [by rewrite calls_queueOperation_offline|].
  intros Hw _. rewrite forallb_app in Hw. apply andb_true_iff in Hw as [_ Hw].
  simpl in Hw. rewrite andb_true_r in Hw. subst writable.
  unfold synced. by rewrite store_queueOperation, queue_queueOperation.
Qed.

(** Offline and with no pass in progress, nothing reaches the service
    before the manager is told that it is online again. *)
Lemma offline_idle_run tr m :
  pending m = None -> isOnline m = false -> Online ∉ tr ->
  pending (run tr m) = None /\ isOnline (run tr m) = false /\
  calls (run tr m) = calls m.
Proof.
  revert m. induction tr as [|e tr IH]; intros m Hp Ho Hn; [done|].
  change (run (e :: tr) m) with (run tr (step e m)).
  assert (pending (step e m) = None /\ isOnline (step e m) = false /\
          calls (step e m) = calls m) as (Hp1 & Ho1 & Hc1).
  { destruct e as [ty d now sfx now' w| | | |ok w]; unfold step.
    - unfold queueOperation. cbv zeta. destruct w; simpl; by rewrite Ho.
    - exfalso. apply Hn. by left.
    - done.
    - by rewrite syncQueue_guarded by auto.
    - by rewrite resume_idle. }
  destruct (IH (step e m) Hp1 Ho1) as (H1 & H2 & H3).
  { intros Hin. apply Hn. by right. }
  by rewrite H3, Hc1.
Qed.

(** C3, as the claim states it, fails: one enqueue made offline while the
    storage write throws leaves nothing persisted, although one call was
    made. *)
Lemma enqueue_unpersisted_counterexample :
  let m := run [Enqueue CREATE corn 1700000000000 "k3j2h1g0f" 1700000000000 false]
               fresh_offline in
  length (queue m) = 1 /\ length (persisted (store m)) = 0 /\
  length (persisted (store m)) <> length [Enqueue CREATE corn 1700000000000 "k3j2h1g0f" 1700000000000 false].
Proof. vm_compute. repeat split; discriminate. Qed.

(** C3, amended. Every [queueOperation] call appends a new operation with
    [retryCount = 0] to the in-memory queue and returns its id; the queue is
    written to the slot before the call returns when the storage write
    succeeds, and the slot keeps its content when the write throws; a pass
    is started if and only if the manager is online and no pass is in
    progress.  Hence, for every run of enqueue calls made while offline, the
    in-memory queue grows by the number of calls, no service call is made,
    and, when the writes succeed, the slot holds the in-memory queue, whose
    length on a manager that started empty is the number of calls; and with
    no pass in progress nothing is sent to the service, whatever is
    enqueued, before the manager is told that it is online again. *)
Theorem queueOperation_appends :
  (forall ty d now sfx now' w m,
     let r := queueOperation ty d now sfx now' w m in
     let op := mkOp (generateId now sfx) ty d now' 0 in
     Exn.queueOperation ty d now sfx now' w m = Returned r /\
     r.1 = id op /\
     retryCount op = 0%Z /\
     queue r.2 = queue m ++ [op] /\
     store r.2 = (if w then Saved (queue r.2) else store m) /\
     (isOnline m = true -> syncInProgress m = false ->
        syncInProgress r.2 = true /\
        exists first, queue r.2 !! 0 = Some first /\
          pending r.2 = Some (mkFrame 0 []) /\
          calls r.2 = calls m ++ option_list (executeOperation first)) /\
     (isOnline m = false \/ syncInProgress m = true ->
        syncInProgress r.2 = syncInProgress m /\
        pending r.2 = pending m /\
        calls r.2 = calls m)) /\
  (forall tr m,
     forallb is_enqueue tr = true -> isOnline m = false ->
     length (queue (run tr m)) = length (queue m) + length tr /\
     calls (run tr m) = calls m /\
     (forallb writes tr = true -> tr <> [] ->
        synced (run tr m) /\
        (queue m = [] -> length (persisted (store (run tr m))) = length tr))) /\
  (forall tr m,
     pending m = None -> isOnline m = false -> Online ∉ tr ->
     calls (run tr m) = calls m).
Proof.
  split; [|split]; [| |intros tr m Hp Ho Hn; by apply offline_idle_run].
  - intros ty d now sfx now' w m r op.
    split; [apply queueOperation_returns|].
    split; [done|]. split; [done|].
    split; [apply queue_queueOperation|].
    split.
    { unfold r. rewrite store_queueOperation, queue_queueOperation. done. }
    split.
    + intros Ho Hs. unfold r, queueOperation. simpl.
      assert (exists first, (queue m ++ [op]) !! 0 = Some first) as [first Hf].
      { apply lookup_lt_is_Some_2. rewrite length_app. simpl. lia. }
      destruct w; simpl; rewrite Ho, Hs; simpl;
        (erewrite syncQueue_starts by (simpl; eauto)); simpl;
        (split; [done|]); exists first; done.
    + intros Hg. unfold r, queueOperation. simpl.
      destruct w; simpl; destruct Hg as [Hg | Hg]; rewrite Hg; simpl;
        rewrite ?andb_false_r; simpl; done.
  - intros tr m He Ho.
    destruct (offline_enqueues tr m He Ho) as (_ & Hlen & Hcalls & Hsync).
    split; [done|]. split; [done|].
    intros Hw Hne. specialize (Hsync Hw Hne). split; [done|].
    intros Hq. unfold synced in Hsync. rewrite Hsync. simpl.
    rewrite Hlen, Hq. done.
Qed.

Lemma queueOperation_appends_witness :
  let m := run [enqueueA; enqueueB] fresh_offline in
  isOnline fresh_offline = false /\
  length (queue m) = 2 /\ calls m = [] /\ synced m /\
  length (persisted (store m)) = 2.
Proof.
  intros m. split; [reflexivity|].
  destruct queueOperation_appends as (_ & H & _).
  destruct (H [enqueueA; enqueueB] fresh_offline) as (Hlen & Hcalls & Hs);
    [reflexivity | reflexivity |].
  destruct Hs as [Hs1 Hs2]; [reflexivity | discriminate |].
  split; [exact Hlen|]. split; [exact Hcalls|]. split; [exact Hs1|].
  apply Hs2. reflexivity.
Defined.

(** ** Write-through *)

(** C6, as the claim states it, fails: the storage write of an enqueue
    throws, the call returns with the operation in memory only, and a
    restart from the slot has lost it. *)
Lemma write_through_counterexample :
  let m := step (Enqueue CREATE corn 1700000000000 "k3j2h1g0f" 1700000000000 false)
                fresh_offline in
  length (queue m) = 1 /\ ~ synced m /\ queue (create false (store m)) = [].
Proof. vm_compute. repeat split; discriminate. Qed.

(** C6, amended. Every [queueOperation] call and every completed pass ends
    with [saveQueue]; when that write succeeds the slot holds the in-memory
    queue at the moment the call returns, and a restart that reads the slot
    reloads exactly that queue.  A write that throws is caught and leaves
    the slot as it was.  While a pass is still in progress its increments of
    [retryCount] are not yet stored; the connectivity handlers and a guarded
    [syncQueue] change neither queue nor slot. *)
Theorem write_through_when_writable :
  (forall ty d now sfx now' m,
     synced (step (Enqueue ty d now sfx now' true) m)) /\
  (forall ok m,
     ends_pass (Settle ok true) m = true -> synced (step (Settle ok true) m)) /\
  (forall e m, writes e = false -> store (step e m) = store m) /\
  (forall ok w m,
     is_Some (pending (resume ok w m)) -> store (resume ok w m) = store m) /\
  (forall e m, e = Online \/ e = Offline \/ e = Sync ->
     queue (step e m) = queue m /\ store (step e m) = store m) /\
  (forall m online,
     synced m ->
     Exn.create online (store m) = Returned (create online (store m)) /\
     queue (create online (store m)) = queue m).
Proof.
  split; [|split; [|split; [|split; [|split]]]].
  - intros. unfold synced, step.
    by rewrite store_queueOperation, queue_queueOperation.
  - intros ok m He. unfold ends_pass in He.
    apply andb_true_iff in He as [H1 H2].
    apply bool_decide_eq_true in H1 as [f Hp].
    apply bool_decide_eq_true in H2. simpl in *.
    destruct (queue m !! cursor f) as [op|] eqn:Hq.
    + rewrite (resume_unfold _ _ _ _ _ Hp Hq) in *. simpl in *.
      destruct (queue m !! S (cursor f)); [done|]. done.
    + rewrite (resume_stuck _ _ _ _ Hp Hq) in H2. congruence.
  - intros e m Hw. destruct e; unfold step; simpl in Hw; try discriminate; subst.
    + by rewrite store_queueOperation.
    + destruct (pending m) as [f|] eqn:Hp; [|by rewrite resume_idle].
      destruct (queue m !! cursor f) as [op|] eqn:Hq;
        [|by rewrite (resume_stuck _ _ _ _ Hp Hq)].
      rewrite (resume_unfold _ _ _ _ _ Hp Hq). simpl. by case_match.
  - intros ok w m Hs.
    destruct (pending m) as [f|] eqn:Hp; [|by rewrite resume_idle].
    destruct (queue m !! cursor f) as [op|] eqn:Hq;
      [|by rewrite (resume_stuck _ _ _ _ Hp Hq)].
    rewrite (resume_unfold _ _ _ _ _ Hp Hq) in *. simpl in *.
    destruct (queue m !! S (cursor f)); [done|].
    simpl in Hs. by destruct Hs.
  - intros e m [-> | [-> | ->]]; simpl;
      rewrite ?queue_syncQueue, ?store_syncQueue; done.
  - intros m online Hs. split; [apply create_returns|].
    unfold create, loadQueue. simpl. rewrite Hs.
    case_match; rewrite ?queue_syncQueue; done.
Qed.

Lemma write_through_when_writable_witness :
  let m := step enqueueA fresh_offline in
  synced m /\ length (queue m) = 1 /\ queue (create false (store m)) = queue m.
Proof.
  intros m. destruct write_through_when_writable as (H1 & _ & _ & _ & _ & H6).
  assert (synced m) as Hs by apply H1.
  split; [exact Hs|]. split; [reflexivity|].
  apply (H6 m false Hs).
Defined.

(** ** Identifiers *)

Lemma NoDup_ids_filter (P : QueuedOperation -> Prop) `{!forall x, Decision (P x)}
    (q : list QueuedOperation) :
  NoDup (ids q) -> NoDup (ids (filter P q)).
Proof.
  induction q as [|o q IH]; [done|].
  unfold ids in *. rewrite fmap_cons, NoDup_cons. intros [Hn Hd].
  rewrite filter_cons. case_decide; [|by apply IH].
  rewrite fmap_cons, NoDup_cons. split; [|by apply IH].
  intros Hin. apply Hn.
  apply list_elem_of_fmap in Hin as (o' & -> & Hin).
  apply list_elem_of_filter in Hin as [_ Hin].
  by apply list_elem_of_fmap_2.
Qed.

Lemma ids_resume_continue ok w m :
  is_Some (pending (resume ok w m)) -> ids (queue (resume ok w m)) = ids (queue m).
Proof.
  intros Hs.
  destruct (pending m) as [f|] eqn:Hp; [|by rewrite resume_idle].
  destruct (queue m !! cursor f) as [op|] eqn:Hq;
    [|by rewrite (resume_stuck _ _ _ _ Hp Hq)].
  rewrite (resume_unfold _ _ _ _ _ Hp Hq) in *. simpl in *.
  destruct (queue m !! S (cursor f)); simpl in *.
  - by apply ids_visited.
  - by destruct Hs.
Qed.

Lemma NoDup_ids_step e m :
  NoDup (ids (queue m)) -> fresh_step e m -> NoDup (ids (queue (step e m))).
Proof.
  intros Hd Hf. destruct e; unfold step; simpl in Hf;
    rewrite ?queue_syncQueue; try done.
  - rewrite queue_queueOperation. unfold ids in *. rewrite fmap_app.
    apply NoDup_app. split; [done|]. split; [|apply NoDup_singleton].
    intros x Hx Hx'. apply list_elem_of_singleton in Hx'. by subst.
  - destruct (pending m) as [f|] eqn:Hp; [|by rewrite resume_idle].
    destruct (queue m !! cursor f) as [op|] eqn:Hq;
      [|by rewrite (resume_stuck _ _ _ _ Hp Hq)].
    rewrite (resume_unfold _ _ _ _ _ Hp Hq). simpl.
    destruct (queue m !! S (cursor f)); simpl.
    + by rewrite ids_visited.
    + destruct writable; simpl; apply NoDup_ids_filter; by rewrite ids_visited.
Qed.

Lemma NoDup_ids_run tr m :
  NoDup (ids (queue m)) -> fresh_run tr m -> NoDup (ids (queue (run tr m))).
Proof.
  revert m. induction tr as [|e tr IH]; intros m Hd Hf; [done|].
  destruct Hf as [Hf1 Hf2]. simpl. apply IH; [|done].
  by apply NoDup_ids_step.
Qed.

(** C9, as the claim states it, fails: two enqueues that read the same
    clock value and draw the same random suffix put two operations with the
    same id in the queue. *)
Lemma id_unique_counterexample :
  let e := Enqueue CREATE corn 1700000000000 "k3j2h1g0f" 1700000000000 true in
  ~ NoDup (ids (queue (run [e; e] fresh_offline))).
Proof.
  vm_compute. intros H. apply NoDup_cons in H as [H _]. apply H. by left.
Qed.

(** C9, amended. Ids in the queue stay pairwise distinct along every run
    that starts from a queue with pairwise distinct ids and in which every
    id produced by [generateId] differs from the ids queued at that moment;
    in particular a manager started on an empty slot keeps them distinct
    under that condition. *)
Theorem id_unique_when_fresh tr m :
  NoDup (ids (queue m)) -> fresh_run tr m -> NoDup (ids (queue (run tr m))).
Proof.
  revert m. induction tr as [|e tr IH]; intros m Hd Hf; [done|].
  destruct Hf as [Hfresh Hf].
  change (run (e :: tr) m) with (run tr (step e m)).
  apply IH; [|exact Hf].
  destruct e as [ty d now sfx now' w| | | |ok w]; unfold step;
    rewrite ?queue_syncQueue; try exact Hd.
  - (* enqueue: the new id is not among the queued ones *)
    rewrite queue_queueOperation. unfold ids in *. rewrite fmap_app.
    apply NoDup_app. split; [done|]. split; [|apply NoDup_singleton].
    intros x Hx Hx'. apply list_elem_of_singleton in Hx'. simpl in *. by subst.
  - (* a stretch of the pass: ids are kept, or filtered at the end *)
    by apply (NoDup_ids_step (Settle ok w)).
Qed.

Lemma id_unique_when_fresh_witness :
  NoDup (ids (queue fresh_offline)) /\
  fresh_run [enqueueA; enqueueB] fresh_offline /\
  NoDup (ids (queue (run [enqueueA; enqueueB] fresh_offline))).
Proof.
  assert (NoDup (ids (queue fresh_offline))) as Hd by (vm_compute; constructor).
  assert (fresh_run [enqueueA; enqueueB] fresh_offline) as Hf.
  { vm_compute. split; [|split; [|exact I]].
    - intros H. inversion H.
    - intros H. inversion H as [|? ? ? H']; subst. inversion H'. }
  split; [exact Hd|]. split; [exact Hf|].
  exact (id_unique_when_fresh [enqueueA; enqueueB] fresh_offline Hd Hf).
Defined.

(** ** The cap *)

Lemma wf_cursor m f :
  wf m -> pending m = Some f -> exists op, queue m !! cursor f = Some op.
Proof.
  unfold wf. intros Hwf Hp. rewrite Hp in Hwf. destruct Hwf as (_ & Hc & _).
  by apply lookup_lt_is_Some_2.
Qed.

Lemma wf_flag m f : wf m -> pending m = Some f -> syncInProgress m = true.
Proof. unfold wf. intros Hwf Hp. rewrite Hp in Hwf. tauto. Qed.

Lemma wf_idle m : wf m -> pending m = None -> syncInProgress m = false.
Proof. unfold wf. intros Hwf Hp. by rewrite Hp in Hwf. Qed.

Lemma syncQueue_busy m f : wf m -> pending m = Some f -> syncQueue m = m.
Proof.
  intros Hwf Hp. apply syncQueue_guarded. right; left. by eapply wf_flag.
Qed.

(** What an event other than [Settle] does to a pass in progress: nothing,
    except that an enqueue appends behind the cursor. *)
Lemma step_busy e m f :
  wf m -> pending m = Some f -> (forall ok w, e <> Settle ok w) ->
  pending (step e m) = Some f /\ calls (step e m) = calls m /\
  exists tail, queue (step e m) = queue m ++ tail.
Proof.
  intros Hwf Hp Hne. destruct e; unfold step.
  - unfold queueOperation. simpl.
    assert (syncInProgress m = true) as Hs by (by eapply wf_flag).
    destruct writable; simpl; rewrite Hs, andb_false_r; simpl; eauto.
  - rewrite syncQueue_busy with (f := f) by done. simpl.
    repeat split; [done..|]. exists []. by rewrite app_nil_r.
  - simpl. repeat split; [done..|]. exists []. by rewrite app_nil_r.
  - rewrite syncQueue_busy with (f := f) by done.
    repeat split; [done..|]. exists []. by rewrite app_nil_r.
  - by destruct (Hne ok writable).
Qed.

Lemma settle_or_not e :
  (exists ok w, e = Settle ok w) \/ (forall ok w, e <> Settle ok w).
Proof. destruct e; eauto; right; intros; discriminate. Qed.

Lemma ends_pass_settle e m :
  wf m -> ends_pass e m = true -> exists ok w, e = Settle ok w.
Proof.
  intros Hwf He. unfold ends_pass in He.
  apply andb_true_iff in He as [H1 H2].
  apply bool_decide_eq_true in H1 as [f Hp].
  apply bool_decide_eq_true in H2.
  destruct (settle_or_not e) as [|Hne]; [done|].
  destruct (step_busy e m f Hwf Hp Hne) as (Hp' & _). congruence.
Qed.

Lemma capped_syncQueue m : capped m -> capped (syncQueue m).
Proof.
  intros Hc. unfold syncQueue. repeat case_match; try done.
  unfold capped. simpl. intros; lia.
Qed.

Lemma capped_step e m : wf m -> capped m -> capped (step e m).
Proof.
  intros Hwf Hc.
  destruct (pending m) as [f|] eqn:Hp.
  - destruct (settle_or_not e) as [(ok & w & ->)|Hne].
    + unfold step. destruct (wf_cursor _ _ Hwf Hp) as [op Hq].
      rewrite (resume_unfold _ _ _ _ _ Hp Hq). simpl.
      destruct (queue m !! S (cursor f)) as [next|] eqn:Hn; [|done].
      unfold capped, attempt. simpl. intros i o Hi Hio Hm.
      unfold capped in Hc. rewrite Hp in Hc.
      destruct (decide (i = cursor f)) as [->|Hne].
      * rewrite lookup_visited_eq in Hio by done. unfold marked in Hm.
        destruct (delivered ok op); simplify_eq.
        { exfalso. apply Hm, elem_of_app. right. by left. }
        destruct (MAX_RETRIES <=? retryCount (bump op))%Z eqn:Hcap.
        { exfalso. apply Hm, elem_of_app. right. by left. }
        by apply Z.leb_gt in Hcap.
      * rewrite lookup_visited_ne in Hio by done.
        apply (Hc i o); [lia|done|]. intros Hin. by apply Hm, marked_mono.
    + destruct (step_busy e m f Hwf Hp Hne) as (Hp' & _ & tail & Hq).
      unfold capped in *. rewrite Hp', Hq. rewrite Hp in Hc.
      intros i o Hi Hio. apply (Hc i o Hi).
      rewrite lookup_app_l in Hio; [done|].
      unfold wf in Hwf. rewrite Hp in Hwf. lia.
  - assert (capped (set_isOnline true m)) as Hc1 by (unfold capped; simpl; by rewrite Hp).
    destruct e; unfold step.
    + unfold queueOperation. simpl. case_match; [apply capped_syncQueue|];
        unfold capped; destruct writable; simpl; by rewrite Hp.
    + by apply capped_syncQueue.
    + unfold capped. simpl. by rewrite Hp.
    + by apply capped_syncQueue.
    + by rewrite resume_idle.
Qed.

Lemma capped_run tr m : wf m -> capped m -> capped (run tr m).
Proof.
  revert m. induction tr as [|e tr IH]; intros m Hwf Hc; [done|].
  simpl. apply IH; [by apply wf_step|by apply capped_step].
Qed.

Lemma capped_create online s : capped (create online s).
Proof.
  unfold create. case_match; [apply capped_syncQueue|];
    unfold capped, loadQueue; by repeat case_match.
Qed.

Lemma reachable_capped m : reachable m -> capped m.
Proof.
  intros (online & s & tr & ->).
  apply capped_run; [apply wf_create|apply capped_create].
Qed.

(** C10. Right after a pass has run to its end, every operation left in the
    queue has [retryCount] below [MAX_RETRIES], whatever counters the
    operations had when they were loaded from the slot. *)
Theorem completed_pass_below_cap e m :
  reachable m -> ends_pass e m = true ->
  forall o, o ∈ queue (step e m) -> (retryCount o < MAX_RETRIES)%Z.
Proof.
  intros Hr He o Ho.
  pose proof (reachable_wf _ Hr) as Hwf.
  pose proof (reachable_capped _ Hr) as Hc.
  destruct (ends_pass_settle _ _ Hwf He) as (ok & w & ->).
  unfold ends_pass in He. apply andb_true_iff in He as [H1 H2].
  apply bool_decide_eq_true in H1 as [f Hp].
  apply bool_decide_eq_true in H2.
  destruct (wf_cursor _ _ Hwf Hp) as [op Hq].
  unfold step in *. rewrite (resume_unfold _ _ _ _ _ Hp Hq) in *. simpl in *.
  destruct (queue m !! S (cursor f)) as [next|] eqn:Hn; [done|].
  assert (o ∈ filter (unmarked (marked ok op (successfulOperations f)))
                     (visited ok (cursor f) op (queue m))) as Hin.
  { by destruct w. }
  apply list_elem_of_filter in Hin as [Hm Hin]. unfold unmarked in Hm.
  apply list_elem_of_lookup_1 in Hin as [i Hio].
  assert (i < S (cursor f)) as Hi.
  { apply lookup_lt_Some in Hio. rewrite length_visited in Hio.
    apply lookup_ge_None_1 in Hn. lia. }
  unfold capped in Hc. rewrite Hp in Hc.
  destruct (decide (i = cursor f)) as [->|Hne].
  - rewrite lookup_visited_eq in Hio by done. unfold marked in Hm.
    destruct (delivered ok op); simplify_eq.
    { exfalso. apply Hm, elem_of_app. right. by left. }
    destruct (MAX_RETRIES <=? retryCount (bump op))%Z eqn:Hcap.
    { exfalso. apply Hm, elem_of_app. right. by left. }
    by apply Z.leb_gt in Hcap.
  - rewrite lookup_visited_ne in Hio by done.
    apply (Hc i o); [lia|done|]. intros Hx. by apply Hm, marked_mono.
Qed.

Lemma completed_pass_below_cap_witness :
  let m := run [Settle false true] (create true stale_slot) in
  reachable m /\ ends_pass (Settle false true) m = true /\
  length (queue (step (Settle false true) m)) = 1 /\
  forall o, o ∈ queue (step (Settle false true) m) -> (retryCount o < MAX_RETRIES)%Z.
Proof.
  intros m.
  assert (reachable m) as Hr.
  { exists true, stale_slot, [Settle false true]. reflexivity. }
  assert (ends_pass (Settle false true) m = true) as He by reflexivity.
  split; [exact Hr|]. split; [exact He|]. split; [reflexivity|].
  exact (completed_pass_below_cap (Settle false true) m Hr He).
Defined.

(** ** How one event moves a queued operation *)

Lemma ends_pass_spec e m :
  ends_pass e m = true <-> is_Some (pending m) /\ pending (step e m) = None.
Proof.
  unfold ends_pass. rewrite andb_true_iff, !bool_decide_eq_true. done.
Qed.

Lemma ends_pass_continue e m f' :
  pending (step e m) = Some f' -> ends_pass e m = false.
Proof.
  intros Hp. apply not_true_is_false. rewrite ends_pass_spec.
  intros [_ H]. congruence.
Qed.

Lemma ends_pass_idle e m : pending m = None -> ends_pass e m = false.
Proof.
  intros Hp. apply not_true_is_false. rewrite ends_pass_spec.
  intros [[f H] _]. congruence.
Qed.

Lemma filter_marked_out marks (q : list QueuedOperation) x :
  x ∈ marks -> x ∉ ids (filter (unmarked marks) q).
Proof.
  intros Hx Hin. unfold ids in Hin.
  apply list_elem_of_fmap in Hin as (o & -> & Hin).
  apply list_elem_of_filter in Hin as [Hm _]. by apply Hm.
Qed.

Lemma filter_unmarked_in marks (q : list QueuedOperation) o :
  o ∈ q -> id o ∉ marks -> o ∈ filter (unmarked marks) q.
Proof. intros Ho Hm. by apply list_elem_of_filter. Qed.

Lemma ids_filter_subseteq marks (q : list QueuedOperation) x :
  x ∈ ids (filter (unmarked marks) q) -> x ∈ ids q.
Proof.
  unfold ids. intros Hin. apply list_elem_of_fmap in Hin as (o & -> & Hin).
  apply list_elem_of_filter in Hin as [_ Hin]. by apply list_elem_of_fmap_2.
Qed.

Lemma NoDup_ids_lookup (q : list QueuedOperation) i j o o' :
  NoDup (ids q) -> q !! i = Some o -> q !! j = Some o' -> id o = id o' -> i = j.
Proof.
  intros Hd Hi Hj Hid. eapply NoDup_lookup; [exact Hd| |].
  - unfold ids. rewrite list_lookup_fmap, Hi. done.
  - unfold ids. rewrite list_lookup_fmap, Hj. simpl. by rewrite Hid.
Qed.

Lemma marked_other ok op marks x :
  x <> id op -> (x ∈ marked ok op marks <-> x ∈ marks).
Proof.
  intros Hne. split; [|apply marked_mono].
  intros H. by apply marked_inv in H as [H|H].
Qed.

Lemma settles_on_spec x e m :
  settles_on x e m = true <->
  exists ok w f op, e = Settle ok w /\ pending m = Some f /\
    queue m !! cursor f = Some op /\ id op = x.
Proof.
  unfold settles_on. split.
  - destruct e; try discriminate.
    destruct (pending m) as [f|]; [|discriminate].
    destruct (queue m !! cursor f) as [op|] eqn:Hq; [|discriminate].
    intros H. apply bool_decide_eq_true in H. naive_solver.
  - intros (ok & w & f & op & -> & -> & -> & <-). by apply bool_decide_eq_true.
Qed.

Lemma settles_on_other x e m f op :
  pending m = Some f -> queue m !! cursor f = Some op -> id op <> x ->
  settles_on x e m = false.
Proof.
  intros Hp Hq Hne. apply not_true_is_false. rewrite settles_on_spec.
  intros (ok & w & f' & op' & _ & Hp' & Hq' & Hid). simplify_eq.
Qed.

Lemma settles_on_idle x e m : pending m = None -> settles_on x e m = false.
Proof.
  intros Hp. apply not_true_is_false. rewrite settles_on_spec.
  intros (ok & w & f' & op' & _ & Hp' & _). congruence.
Qed.

(** The operation at position [i] has been visited by the pass in progress. *)
Lemma behind_step e m f i o :
  wf m -> NoDup (ids (queue m)) ->
  pending m = Some f -> queue m !! i = Some o -> i < cursor f ->
  settles_on (id o) e m = false /\
  ((exists f', pending (step e m) = Some f' /\ cursor f <= cursor f' /\
      queue (step e m) !! i = Some o /\
      (id o ∈ successfulOperations f' <-> id o ∈ successfulOperations f))
   \/
   (ends_pass e m = true /\
      (id o ∈ successfulOperations f -> id o ∉ ids (queue (step e m))) /\
      (id o ∉ successfulOperations f -> o ∈ queue (step e m)))).
Proof.
  intros Hwf Hd Hp Hi Hlt.
  destruct (wf_cursor _ _ Hwf Hp) as [op Hq].
  assert (id o <> id op) as Hne.
  { intros Hid. pose proof (NoDup_ids_lookup _ _ _ _ _ Hd Hi Hq Hid). lia. }
  split; [by eapply settles_on_other|].
  destruct (settle_or_not e) as [(ok & w & ->)|Hns].
  - unfold step. rewrite (resume_unfold _ _ _ _ _ Hp Hq).
    cbv zeta. destruct (queue m !! S (cursor f)) as [next|] eqn:Hn.
    + left. eexists. split; [reflexivity|]. simpl. split; [lia|].
      split; [by rewrite lookup_visited_ne by lia|]. by apply marked_other.
    + right. split.
      { apply ends_pass_spec. split; [by rewrite Hp|]. unfold step.
        rewrite (resume_unfold _ _ _ _ _ Hp Hq). cbv zeta. by rewrite Hn. }
      assert (queue (finish w (marked ok op (successfulOperations f))
                (set_queue (visited ok (cursor f) op (queue m)) m))
              = filter (unmarked (marked ok op (successfulOperations f)))
                  (visited ok (cursor f) op (queue m))) as -> by (by destruct w).
      split.
      * intros Hm. by apply filter_marked_out, marked_mono.
      * intros Hm. apply filter_unmarked_in.
        { apply (list_elem_of_lookup_2 _ i). by rewrite lookup_visited_ne by lia. }
        by rewrite marked_other.
  - left. destruct (step_busy e m f Hwf Hp Hns) as (Hp' & _ & tail & Hq').
    exists f. split; [done|]. split; [lia|]. split; [|done].
    rewrite Hq'. rewrite lookup_app_l; [done|]. by eapply lookup_lt_Some.
Qed.

(** The operation at position [i] is still ahead of the cursor. *)
Lemma ahead_step e m f i o :
  wf m -> NoDup (ids (queue m)) ->
  pending m = Some f -> queue m !! i = Some o -> cursor f < i ->
  settles_on (id o) e m = false /\ ends_pass e m = false /\
  exists f', pending (step e m) = Some f' /\ cursor f' <= i /\
    queue (step e m) !! i = Some o.
Proof.
  intros Hwf Hd Hp Hi Hlt.
  destruct (wf_cursor _ _ Hwf Hp) as [op Hq].
  assert (id o <> id op) as Hne.
  { intros Hid. pose proof (NoDup_ids_lookup _ _ _ _ _ Hd Hi Hq Hid). lia. }
  split; [by eapply settles_on_other|].
  assert (exists f', pending (step e m) = Some f' /\ cursor f' <= i /\
            queue (step e m) !! i = Some o) as (f' & Hp' & Hc' & Hi').
  { destruct (settle_or_not e) as [(ok & w & ->)|Hns].
    - unfold step. rewrite (resume_unfold _ _ _ _ _ Hp Hq). cbv zeta.
      destruct (lookup_lt_is_Some_2 (queue m) (S (cursor f))) as [next Hn].
      { apply lookup_lt_Some in Hi. lia. }
      rewrite Hn. eexists. split; [reflexivity|]. simpl. split; [lia|].
      by rewrite lookup_visited_ne by lia.
    - destruct (step_busy e m f Hwf Hp Hns) as (Hp' & _ & tail & Hq').
      exists f. split; [done|]. split; [lia|].
      rewrite Hq'. rewrite lookup_app_l; [done|]. by eapply lookup_lt_Some. }
  split; [by eapply ends_pass_continue|]. eauto.
Qed.

(** No pass is in progress. *)
Lemma idle_step e m i o :
  wf m -> pending m = None -> queue m !! i = Some o ->
  ends_pass e m = false /\
  queue (step e m) !! i = Some o /\
  (pending (step e m) = None \/ pending (step e m) = Some (mkFrame 0 [])).
Proof.
  intros Hwf Hp Hi. split; [by apply ends_pass_idle|].
  assert (forall m', queue m' !! i = Some o -> pending m' = None ->
            queue (syncQueue m') !! i = Some o /\
            (pending (syncQueue m') = None \/
             pending (syncQueue m') = Some (mkFrame 0 []))) as Hsync.
  { intros m' Hi' Hp'. rewrite queue_syncQueue. split; [done|].
    unfold syncQueue. repeat case_match; auto. }
  destruct e; unfold step.
  - unfold queueOperation. cbv zeta.
    set (m1 := saveQueue writable _).
    assert (queue m1 !! i = Some o /\ pending m1 = None) as [Hi1 Hp1].
    { unfold m1. destruct writable; simpl;
        (rewrite lookup_app_l; [done|]); by eapply lookup_lt_Some. }
    simpl. case_match; [by apply Hsync|auto].
  - by apply Hsync.
  - simpl. auto.
  - by apply Hsync.
  - rewrite resume_idle by done. auto.
Qed.

(** The answer to the attempt on the operation under the cursor arrives. *)
Lemma at_step ok w m f op :
  pending m = Some f -> queue m !! cursor f = Some op ->
  let op' := if delivered ok op then op else bump op in
  let marks := marked ok op (successfulOperations f) in
  (ends_pass (Settle ok w) m = false /\
   pending (step (Settle ok w) m) = Some (mkFrame (S (cursor f)) marks) /\
   queue (step (Settle ok w) m) !! cursor f = Some op')
  \/
  (ends_pass (Settle ok w) m = true /\
   queue (step (Settle ok w) m)
   = filter (unmarked marks) (visited ok (cursor f) op (queue m)) /\
   op' ∈ visited ok (cursor f) op (queue m)).
Proof.
  intros Hp Hq op' marks.
  assert (visited ok (cursor f) op (queue m) !! cursor f = Some op') as Hv
    by (by apply lookup_visited_eq).
  destruct (queue m !! S (cursor f)) as [next|] eqn:Hn.
  - left.
    assert (step (Settle ok w) m
            = attempt next (mkFrame (S (cursor f)) marks)
                (set_queue (visited ok (cursor f) op (queue m)) m)) as E.
    { unfold step. rewrite (resume_unfold _ _ _ _ _ Hp Hq). cbv zeta.
      by rewrite Hn. }
    split; [eapply ends_pass_continue; by rewrite E|].
    rewrite E. done.
  - right.
    assert (step (Settle ok w) m
            = finish w marks (set_queue (visited ok (cursor f) op (queue m)) m)) as E.
    { unfold step. rewrite (resume_unfold _ _ _ _ _ Hp Hq). cbv zeta.
      by rewrite Hn. }
    split; [apply ends_pass_spec; rewrite E; split; [by rewrite Hp|done]|].
    split; [rewrite E; by destruct w|].
    by eapply list_elem_of_lookup_2.
Qed.

(** ** An operation that always fails *)

Lemma ids_step e m y :
  y ∈ ids (queue (step e m)) -> y ∈ ids (queue m) \/ issued e = Some y.
Proof.
  destruct e; unfold step; rewrite ?queue_syncQueue; auto.
  - rewrite queue_queueOperation. unfold ids. rewrite fmap_app.
    intros H. apply elem_of_app in H as [H|H]; [by left|].
    apply list_elem_of_singleton in H. right. simpl. by subst.
  - intros H. left.
    destruct (pending m) as [f|] eqn:Hp; [|by rewrite resume_idle in H].
    destruct (queue m !! cursor f) as [op|] eqn:Hq;
      [|by rewrite (resume_stuck _ _ _ _ Hp Hq) in H].
    rewrite (resume_unfold _ _ _ _ _ Hp Hq) in H. cbv zeta in H.
    destruct (queue m !! S (cursor f)); simpl in H.
    + by rewrite ids_visited in H.
    + assert (y ∈ ids (filter (unmarked (marked ok op (successfulOperations f)))
                         (visited ok (cursor f) op (queue m)))) as H'
        by (by destruct writable).
      apply ids_filter_subseteq in H'. by rewrite ids_visited in H'.
Qed.

Lemma wf_unmarked_ahead m f i o :
  wf m -> NoDup (ids (queue m)) -> pending m = Some f ->
  queue m !! i = Some o -> cursor f <= i -> id o ∉ successfulOperations f.
Proof.
  intros Hwf Hd Hp Hi Hle Hin. unfold wf in Hwf. rewrite Hp in Hwf.
  destruct Hwf as (_ & _ & Hm). apply Hm in Hin. unfold ids in Hin.
  apply list_elem_of_fmap in Hin as (o' & Hid & Hin).
  apply elem_of_take in Hin as (j & Hj & Hlt).
  pose proof (NoDup_ids_lookup _ _ _ _ _ Hd Hi Hj Hid). lia.
Qed.

Lemma settles_on_not_settle x e m :
  (forall ok w, e <> Settle ok w) -> settles_on x e m = false.
Proof.
  intros Hns. apply not_true_is_false. rewrite settles_on_spec.
  intros (ok & w & _ & _ & -> & _). by eapply Hns.
Qed.

(** The four positions of [tracked], as introduction rules. *)
Lemma tracked_idle x k m i o :
  (Z.of_nat k < MAX_RETRIES)%Z -> queue m !! i = Some o -> id o = x ->
  pending m = None -> retryCount o = Z.of_nat k -> tracked x k k m.
Proof.
  intros Hk Hi Hid Hp Hrc. unfold tracked. rewrite decide_True by done.
  exists i, o. by rewrite Hp.
Qed.

Lemma tracked_ahead x k m f i o :
  (Z.of_nat k < MAX_RETRIES)%Z -> queue m !! i = Some o -> id o = x ->
  pending m = Some f -> cursor f <= i -> retryCount o = Z.of_nat k ->
  tracked x k k m.
Proof.
  intros Hk Hi Hid Hp Hle Hrc. unfold tracked. rewrite decide_True by done.
  exists i, o. rewrite Hp. split; [done|]. split; [done|]. left. auto.
Qed.

Lemma tracked_behind x k m f i o :
  (Z.of_nat k < MAX_RETRIES)%Z -> queue m !! i = Some o -> id o = x ->
  pending m = Some f -> i < cursor f -> retryCount o = (Z.of_nat k + 1)%Z ->
  (x ∈ successfulOperations f <-> (MAX_RETRIES <= Z.of_nat k + 1)%Z) ->
  tracked x k (S k) m.
Proof.
  intros Hk Hi Hid Hp Hlt Hrc Hm. unfold tracked. rewrite decide_True by done.
  exists i, o. rewrite Hp. split; [done|]. split; [done|]. right. auto.
Qed.

Lemma tracked_gone x k m :
  ~ (Z.of_nat k < MAX_RETRIES)%Z -> x ∉ ids (queue m) ->
  tracked x k (Z.to_nat MAX_RETRIES) m.
Proof. intros Hk Hx. unfold tracked. by rewrite decide_False by done. Qed.

Lemma tracked_step x k a e m :
  wf m -> NoDup (ids (queue m)) -> tracked x k a m ->
  issued e <> Some x -> fails_on x e m ->
  tracked x (k + (if ends_pass e m then 1 else 0))
            (a + (if settles_on x e m then 1 else 0)) (step e m).
Proof.
  intros Hwf Hd Ht Hiss Hfail. unfold tracked in Ht.
  destruct (decide (Z.of_nat k < MAX_RETRIES)%Z) as [Hk|Hk].
  - destruct Ht as (i & o & Hi & Hid & Ht).
    destruct (pending m) as [f|] eqn:Hp.
    + destruct Ht as [(Hle & Hrc & ->)|(Hlt & Hrc & -> & Hm)].
      * destruct (decide (cursor f = i)) as [Hc|Hc].
        -- (* the operation is the one under the cursor *)
           subst i. destruct (settle_or_not e) as [(ok & w & ->)|Hns].
           ++ assert (settles_on x (Settle ok w) m = true) as ->.
              { apply settles_on_spec. naive_solver. }
              assert (delivered ok o = false) as Hdel by (by eapply Hfail).
              assert (x ∉ successfulOperations f) as Hx.
              { rewrite <- Hid. by eapply wf_unmarked_ahead. }
              assert (x ∈ marked ok o (successfulOperations f)
                      <-> (MAX_RETRIES <= Z.of_nat k + 1)%Z) as Hmark.
              { unfold marked. rewrite Hdel. simpl. rewrite Hrc, Hid.
                destruct (MAX_RETRIES <=? Z.of_nat k + 1)%Z eqn:Hcap.
                - apply Z.leb_le in Hcap. split; [done|]. intros _.
                  apply elem_of_app. right. by left.
                - apply Z.leb_gt in Hcap. split; [done|lia]. }
              destruct (at_step ok w m f o Hp Hi) as [(He & Hp' & Hq')|(He & Hq' & Hin)];
                rewrite He, Hdel in *.
              ** rewrite Nat.add_0_r, Nat.add_1_r.
                 apply (tracked_behind x k _ _ (cursor f) (bump o) Hk Hq' Hid Hp');
                   simpl; [lia|lia|done].
              ** apply ends_pass_spec in He as [_ Hp'].
                 rewrite !Nat.add_1_r.
                 destruct (decide (MAX_RETRIES <= Z.of_nat k + 1)%Z) as [Hcap|Hcap].
                 --- replace (S k) with (Z.to_nat MAX_RETRIES) at 2
                       by (unfold MAX_RETRIES in *; lia).
                     apply tracked_gone; [lia|].
                     rewrite Hq'. apply filter_marked_out. by apply Hmark.
                 --- assert (bump o ∈ queue (step (Settle ok w) m)) as Hin'.
                     { rewrite Hq'. apply filter_unmarked_in; [done|].
                       simpl. rewrite Hid. by rewrite Hmark. }
                     apply list_elem_of_lookup_1 in Hin' as [j Hj].
                     apply (tracked_idle x (S k) _ j (bump o)); simpl; try done; lia.
           ++ rewrite settles_on_not_settle by done.
              destruct (step_busy e m f Hwf Hp Hns) as (Hp' & _ & tail & Hq').
              rewrite (ends_pass_continue _ _ _ Hp'), !Nat.add_0_r.
              apply (tracked_ahead x k _ f (cursor f) o); try done.
              rewrite Hq'. rewrite lookup_app_l; [done|]. by eapply lookup_lt_Some.
        -- destruct (ahead_step e m f i o Hwf Hd Hp Hi) as (Hs & He & f' & Hp' & Hc' & Hi');
             [lia|].
           rewrite Hid in Hs. rewrite Hs, He, !Nat.add_0_r.
           by apply (tracked_ahead x k _ f' i o).
      * destruct (behind_step e m f i o Hwf Hd Hp Hi Hlt) as [Hs Hcases].
        rewrite Hid in *. rewrite Hs, Nat.add_0_r.
        destruct Hcases as [(f' & Hp' & Hc' & Hi' & Hm')|(He & Hout & Hin)].
        -- rewrite (ends_pass_continue _ _ _ Hp'), Nat.add_0_r.
           apply (tracked_behind x k _ f' i o); try done; [lia|]. by rewrite Hm'.
        -- rewrite He, Nat.add_1_r. apply ends_pass_spec in He as [_ Hp'].
           destruct (decide (MAX_RETRIES <= Z.of_nat k + 1)%Z) as [Hcap|Hcap].
           ++ replace (S k) with (Z.to_nat MAX_RETRIES) at 2
                by (unfold MAX_RETRIES in *; lia).
              apply tracked_gone; [lia|]. apply Hout. by apply Hm.
           ++ assert (o ∈ queue (step e m)) as Hin'.
              { apply Hin. by rewrite Hm. }
              apply list_elem_of_lookup_1 in Hin' as [j Hj].
              apply (tracked_idle x (S k) _ j o); try done; lia.
    + destruct Ht as [Hrc ->].
      destruct (idle_step e m i o Hwf Hp Hi) as (He & Hi' & Hp').
      rewrite He, settles_on_idle, !Nat.add_0_r by done.
      destruct Hp' as [Hp'|Hp'].
      * by apply (tracked_idle x k _ i o).
      * apply (tracked_ahead x k _ _ i o Hk Hi' Hid Hp'); [simpl; lia|done].
  - destruct Ht as [Hx ->].
    assert (settles_on x e m = false) as ->.
    { apply not_true_is_false. rewrite settles_on_spec.
      intros (ok & w & f & op & _ & _ & Hq & Hid). apply Hx. subst x.
      apply list_elem_of_fmap_2. by eapply list_elem_of_lookup_2. }
    rewrite Nat.add_0_r. apply tracked_gone; [lia|].
    intros Hin. apply ids_step in Hin as [Hin|Hin]; [done|]. by apply Hiss.
Qed.

Lemma tracked_run x tr k a m :
  wf m -> NoDup (ids (queue m)) -> tracked x k a m ->
  fresh_run tr m -> never_reissued x tr -> always_fails x tr m ->
  tracked x (k + passes tr m) (a + attempts_on x tr m) (run tr m).
Proof.
  revert k a m. induction tr as [|e tr IH]; intros k a m Hwf Hd Ht Hf Hn Ha.
  { simpl. by rewrite !Nat.add_0_r. }
  destruct Hf as [Hf1 Hf2]. destruct Ha as [Ha1 Ha2]. simpl.
  rewrite !Nat.add_assoc. apply IH.
  - by apply wf_step.
  - by apply NoDup_ids_step.
  - apply tracked_step; try done. apply Hn. by left.
  - done.
  - intros e' He'. apply Hn. by right.
  - done.
Qed.

Lemma tracked_newly x m : newly_queued x m -> tracked x 0 0 m.
Proof.
  intros (i & o & Hi & Hid & Hrc & Hc). unfold tracked.
  rewrite decide_True by done. exists i, o. split; [done|]. split; [done|].
  destruct (pending m) as [f|]; [|done]. left. split; [by apply Hc|done].
Qed.

Lemma tracked_below x k a m :
  (Z.of_nat k < MAX_RETRIES)%Z -> tracked x k a m ->
  k <= a <= S k /\ (pending m = None -> a = k) /\
  exists o, o ∈ queue m /\ id o = x /\ retryCount o = Z.of_nat a.
Proof.
  intros Hk Ht. unfold tracked in Ht. rewrite decide_True in Ht by done.
  destruct Ht as (i & o & Hi & Hid & Ht).
  assert (o ∈ queue m) as Hin by (by eapply list_elem_of_lookup_2).
  destruct (pending m) as [f|].
  - destruct Ht as [(_ & Hrc & ->)|(_ & Hrc & -> & _)].
    + split; [lia|]. split; [done|]. exists o. done.
    + split; [lia|]. split; [done|]. exists o. split; [done|]. split; [done|]. lia.
  - destruct Ht as [Hrc ->]. split; [lia|]. split; [done|]. exists o. done.
Qed.

Lemma tracked_above x k a m :
  (MAX_RETRIES <= Z.of_nat k)%Z -> tracked x k a m ->
  (x ∉ ids (queue m)) /\ a = Z.to_nat MAX_RETRIES.
Proof.
  intros Hk Ht. unfold tracked in Ht. by rewrite decide_False in Ht by lia.
Qed.

Lemma passes_app tr1 tr2 m :
  passes (tr1 ++ tr2) m = passes tr1 m + passes tr2 (run tr1 m).
Proof.
  revert m. induction tr1 as [|e tr1 IH]; intros m; [done|].
  simpl. rewrite IH. lia.
Qed.

Lemma attempts_on_app x tr1 tr2 m :
  attempts_on x (tr1 ++ tr2) m
  = attempts_on x tr1 m + attempts_on x tr2 (run tr1 m).
Proof.
  revert m. induction tr1 as [|e tr1 IH]; intros m; [done|].
  simpl. rewrite IH. lia.
Qed.

Lemma fresh_run_app tr1 tr2 m :
  fresh_run (tr1 ++ tr2) m <-> fresh_run tr1 m /\ fresh_run tr2 (run tr1 m).
Proof.
  revert m. induction tr1 as [|e tr1 IH]; intros m; simpl; [tauto|].
  rewrite IH. tauto.
Qed.

Lemma always_fails_app x tr1 tr2 m :
  always_fails x (tr1 ++ tr2) m
  <-> always_fails x tr1 m /\ always_fails x tr2 (run tr1 m).
Proof.
  revert m. induction tr1 as [|e tr1 IH]; intros m; simpl; [tauto|].
  rewrite IH. tauto.
Qed.

Lemma never_reissued_app x tr1 tr2 :
  never_reissued x (tr1 ++ tr2) -> never_reissued x tr1 /\ never_reissued x tr2.
Proof.
  intros H. split; intros e He; apply H, elem_of_app; auto.
Qed.

(** An operation fresh from [queueOperation] is [newly_queued]. *)
Lemma newly_queued_enqueue ty d now sfx now' w m :
  wf m ->
  newly_queued (generateId now sfx) (step (Enqueue ty d now sfx now' w) m).
Proof.
  intros Hwf.
  pose proof (wf_step (Enqueue ty d now sfx now' w) m Hwf) as Hwf'.
  unfold step in *. unfold newly_queued.
  exists (length (queue m)), (mkOp (generateId now sfx) ty d now' 0).
  rewrite queue_queueOperation in *.
  split; [by rewrite lookup_app_r, Nat.sub_diag by lia|].
  split; [done|]. split; [done|].
  intros f Hp. unfold wf in Hwf'. rewrite Hp in Hwf'.
  destruct Hwf' as (_ & Hc & _). rewrite queue_queueOperation, length_app in Hc.
  simpl in Hc. lia.
Qed.

Lemma NoDup_ids_eq (q : list QueuedOperation) o o' :
  NoDup (ids q) -> o ∈ q -> o' ∈ q -> id o = id o' -> o = o'.
Proof.
  intros Hd Ho Ho' Hid.
  apply list_elem_of_lookup_1 in Ho as [i Hi].
  apply list_elem_of_lookup_1 in Ho' as [j Hj].
  pose proof (NoDup_ids_lookup _ _ _ _ _ Hd Hi Hj Hid). simplify_eq. done.
Qed.

(** C1, as the claim states it, fails: the first of two queued operations
    with the same id can never be delivered (an update without payload),
    yet it is removed when the first pass ends, because the second one was
    delivered. *)
Lemma removed_before_cap_counterexample :
  let m := run [twinA; twinB; Online] fresh_offline in
  let tr := [Settle false true; Settle true true] in
  (exists a, queue m !! 0 = Some a /\ retryCount a = 0%Z /\
     forall ok, delivered ok a = false) /\
  passes tr m = 1 /\
  (Z.of_nat (passes tr m) < MAX_RETRIES)%Z /\
  queue (run tr m) = [].
Proof.
  vm_compute. split; [|repeat split; reflexivity].
  eexists. split; [reflexivity|]. split; [reflexivity|].
  intros ok. by destruct ok.
Qed.

(** C1, amended. Take an operation that has just been queued with
    [retryCount = 0] and whose every delivery fails, in a queue with
    pairwise distinct ids, and follow any run (enqueues, connectivity
    changes, passes) in which ids stay distinct and its id is not handed out
    again.  While fewer than [MAX_RETRIES] passes have ended, the operation
    is in the queue and its [retryCount] is the number of attempts answered
    so far, which is the number of ended passes (plus one once the pass in
    progress has visited it).  From the [MAX_RETRIES]-th ended pass on it is
    no longer in the queue and the number of its attempts stays
    [MAX_RETRIES]: it is never attempted again.  Between any two moments of
    the run its [retryCount] does not decrease. *)
Theorem always_failing_dropped_at_cap x tr m :
  wf m -> NoDup (ids (queue m)) -> newly_queued x m ->
  fresh_run tr m -> never_reissued x tr -> always_fails x tr m ->
  let k := passes tr m in
  let a := attempts_on x tr m in
  ((Z.of_nat k < MAX_RETRIES)%Z ->
     k <= a <= S k /\ (pending (run tr m) = None -> a = k) /\
     exists o, o ∈ queue (run tr m) /\ id o = x /\ retryCount o = Z.of_nat a) /\
  ((MAX_RETRIES <= Z.of_nat k)%Z ->
     (x ∉ ids (queue (run tr m))) /\ a = Z.to_nat MAX_RETRIES) /\
  (forall tr1 tr2 o1 o2, tr = tr1 ++ tr2 ->
     o1 ∈ queue (run tr1 m) -> id o1 = x ->
     o2 ∈ queue (run tr m) -> id o2 = x ->
     (retryCount o1 <= retryCount o2)%Z).
Proof.
  intros Hwf Hd Hnew Hf Hn Ha k a.
  pose proof (tracked_run x tr 0 0 m Hwf Hd (tracked_newly _ _ Hnew) Hf Hn Ha) as Ht.
  simpl in Ht. fold k a in Ht.
  split; [intros Hk; by apply (tracked_below x k a)|].
  split; [intros Hk; by apply (tracked_above x k a)|].
  intros tr1 tr2 o1 o2 -> Ho1 Hid1 Ho2 Hid2.
  apply fresh_run_app in Hf as [Hf1 Hf2].
  apply never_reissued_app in Hn as [Hn1 Hn2].
  apply always_fails_app in Ha as [Ha1 Ha2].
  pose proof (tracked_run x tr1 0 0 m Hwf Hd (tracked_newly _ _ Hnew) Hf1 Hn1 Ha1)
    as Ht1.
  simpl in Ht1. unfold k, a in *. rewrite passes_app, attempts_on_app in *.
  destruct (decide (Z.of_nat (passes tr1 m + passes tr2 (run tr1 m)) < MAX_RETRIES)%Z)
    as [Hk|Hk].
  - apply tracked_below in Ht as (_ & _ & o2' & Ho2' & Hid2' & Hrc2); [|done].
    apply tracked_below in Ht1 as (_ & _ & o1' & Ho1' & Hid1' & Hrc1); [|lia].
    assert (o1 = o1') as <-.
    { eapply NoDup_ids_eq; [|done..|congruence]. by apply NoDup_ids_run. }
    assert (o2 = o2') as <-.
    { eapply NoDup_ids_eq; [|done..|congruence].
      apply NoDup_ids_run; [done|]. apply fresh_run_app. done. }
    lia.
  - apply tracked_above in Ht as [Hx _]; [|lia].
    exfalso. apply Hx. rewrite <- Hid2. by apply list_elem_of_fmap_2.
Qed.

Lemma always_failing_dropped_at_cap_witness :
  let m := step enqueueA fresh_offline in
  newly_queued idA m /\ always_fails idA three_failures m /\
  passes three_failures m = 3 /\
  (idA ∉ ids (queue (run three_failures m))) /\
  attempts_on idA three_failures m = 3.
Proof.
  intros m.
  assert (wf m) as Hwf by (apply wf_step, wf_create).
  assert (NoDup (ids (queue m))) as Hd.
  { vm_compute. apply NoDup_singleton. }
  assert (newly_queued idA m) as Hnew.
  { apply (newly_queued_enqueue CREATE corn 1700000000000 "k3j2h1g0f"
             1700000000000 true fresh_offline), wf_create. }
  assert (fresh_run three_failures m) as Hf by (simpl; tauto).
  assert (never_reissued idA three_failures) as Hn.
  { intros e He. unfold three_failures in He.
    repeat (apply elem_of_cons in He as [-> | He]; [discriminate|]).
    by apply elem_of_nil in He. }
  assert (always_fails idA three_failures m) as Ha.
  { simpl. repeat split; intros; reflexivity. }
  split; [exact Hnew|]. split; [exact Ha|]. split; [reflexivity|].
  destruct (always_failing_dropped_at_cap idA three_failures m Hwf Hd Hnew Hf Hn Ha)
    as (_ & H & _).
  apply H. vm_compute. discriminate.
Defined.

(** ** One attempt and its outcome *)

Lemma behind_run rest m f i o :
  wf m -> NoDup (ids (queue m)) ->
  pending m = Some f -> queue m !! i = Some o -> i < cursor f ->
  fresh_run rest m -> completes_pass rest m ->
  (id o ∈ successfulOperations f -> id o ∉ ids (queue (run rest m))) /\
  (id o ∉ successfulOperations f -> o ∈ queue (run rest m)) /\
  (forall tr1 tr2, rest = tr1 ++ tr2 -> tr2 <> [] ->
     queue (run tr1 m) !! i = Some o).
Proof.
  revert m f. induction rest as [|e rest IH]; intros m f Hwf Hd Hp Hi Hlt Hf Hc;
    [done|].
  destruct Hf as [Hf1 Hf2]. simpl in Hc.
  destruct (behind_step e m f i o Hwf Hd Hp Hi Hlt)
    as [_ [(f' & Hp' & Hc' & Hi' & Hm')|(He & Hout & Hin)]].
  - rewrite (ends_pass_continue _ _ _ Hp') in Hc.
    destruct (IH (step e m) f') as (IH1 & IH2 & IH3); try done.
    { by apply wf_step. } { by apply NoDup_ids_step. } { lia. }
    split; [intros H; apply IH1; by apply Hm'|].
    split; [intros H; apply IH2; by rewrite Hm'|].
    intros [|e' tr1] tr2 E Hne; [done|].
    simpl in E. injection E as <- E. simpl. by eapply IH3.
  - rewrite He in Hc. subst rest. simpl.
    split; [done|]. split; [done|].
    intros [|e' tr1] tr2 E Hne; [done|].
    simpl in E. injection E as <- E. symmetry in E.
    apply app_eq_nil in E as [_ E]. done.
Qed.

Lemma marked_own ok op marks :
  id op ∉ marks ->
  (id op ∈ marked ok op marks <->
   delivered ok op = true \/ (MAX_RETRIES <= retryCount op + 1)%Z).
Proof.
  intros Hx. unfold marked. simpl.
  destruct (delivered ok op).
  - split; [auto|]. intros _. apply elem_of_app. right. by left.
  - destruct (MAX_RETRIES <=? retryCount op + 1)%Z eqn:Hcap.
    + apply Z.leb_le in Hcap. split; [auto|]. intros _.
      apply elem_of_app. right. by left.
    + apply Z.leb_gt in Hcap. split; [done|]. intros [?|?]; [done|lia].
Qed.

(** C2, as the claim states it, fails: with two queued operations that
    carry the same id, the first is attempted and fails, its counter goes
    from 0 to 1, below the cap, and it is removed all the same at the end
    of the pass because the second one was delivered. *)
Lemma failed_below_cap_removed_counterexample :
  let m := run [twinA; twinB; Online] fresh_offline in
  let m1 := step (Settle false true) m in
  let m2 := step (Settle true true) m1 in
  retryCount <$> queue m !! 0 = Some 0%Z /\
  retryCount <$> queue m1 !! 0 = Some 1%Z /\
  (1 < MAX_RETRIES)%Z /\
  ends_pass (Settle true true) m1 = true /\
  queue m2 = [].
Proof. vm_compute. repeat split; reflexivity. Qed.

(** C2, amended. In a queue whose ids are pairwise distinct, follow an
    attempted operation from the answer to its delivery up to the end of
    the pass.  If the delivery succeeds, its [retryCount] is left as it was
    for the rest of the pass and it is no longer queued when the pass ends.
    If the delivery fails, its [retryCount] is one higher for the rest of
    the pass, and when the pass ends it has been removed if the incremented
    counter has reached [MAX_RETRIES] and is still queued, with the
    incremented counter, if not.  In particular an operation that fails
    twice and is delivered on the third pass enters that pass with
    [retryCount = 2] and is removed by it. *)
Theorem attempt_outcome :
  (forall ok w rest m f op,
     wf m -> NoDup (ids (queue m)) ->
     pending m = Some f -> queue m !! cursor f = Some op ->
     fresh_run (Settle ok w :: rest) m ->
     completes_pass (Settle ok w :: rest) m ->
     let m' := run (Settle ok w :: rest) m in
     let op' := if delivered ok op then op else bump op in
     retryCount op' = (if delivered ok op then retryCount op
                       else retryCount op + 1)%Z /\
     (forall tr1 tr2, rest = tr1 ++ tr2 -> tr2 <> [] ->
        queue (run (Settle ok w :: tr1) m) !! cursor f = Some op') /\
     (delivered ok op = true -> id op ∉ ids (queue m')) /\
     (delivered ok op = false ->
        ((MAX_RETRIES <= retryCount op + 1)%Z -> id op ∉ ids (queue m')) /\
        ((retryCount op + 1 < MAX_RETRIES)%Z -> bump op ∈ queue m'))) /\
  (let m := run two_failures fresh_offline in
   pending m = Some (mkFrame 0 []) /\
   retryCount <$> queue m = [2%Z] /\
   queue (step (Settle true true) m) = [] /\
   store (step (Settle true true) m) = Saved []).
Proof.
  split; [|vm_compute; repeat split; reflexivity].
  intros ok w rest m f op.
  intros Hwf Hd Hp Hq [_ Hf] Hc m' op'.
  assert (id op ∉ successfulOperations f) as Hx
    by (by eapply wf_unmarked_ahead).
  pose proof (marked_own ok op _ Hx) as Hown.
  assert (id op' = id op) as Hid by (unfold op'; by destruct (delivered ok op)).
  split; [unfold op'; by destruct (delivered ok op)|].
  cbn [completes_pass] in Hc. unfold m'.
  change (run (Settle ok w :: rest) m) with (run rest (step (Settle ok w) m)).
  destruct (at_step ok w m f op Hp Hq) as [(He & Hp' & Hq')|(He & Hq' & Hin)];
    rewrite He in Hc.
  - destruct (behind_run rest (step (Settle ok w) m)
                (mkFrame (S (cursor f)) (marked ok op (successfulOperations f)))
                (cursor f) op')
      as (B1 & B2 & B3); try done.
    { by apply wf_step. } { by apply NoDup_ids_step. } { simpl. lia. }
    simpl in B1, B2. rewrite Hid in B1, B2.
    split; [intros tr1 tr2 E Hne; by apply (B3 tr1 tr2)|].
    split; [intros Hdel; apply B1, Hown; by left|].
    intros Hdel. split.
    + intros Hcap. apply B1, Hown. by right.
    + intros Hcap. unfold op' in B2. rewrite Hdel in B2. apply B2.
      rewrite Hown. intros [?|?]; [congruence|lia].
  - subst rest. change (run [] (step (Settle ok w) m)) with (step (Settle ok w) m).
    rewrite Hq'.
    split; [intros tr1 tr2 E Hne; symmetry in E;
            apply app_eq_nil in E as [_ E]; done|].
    split; [intros Hdel; apply filter_marked_out, Hown; by left|].
    intros Hdel. split.
    + intros Hcap. apply filter_marked_out, Hown. by right.
    + intros Hcap. unfold op' in Hin. rewrite Hdel in Hin.
      apply filter_unmarked_in; [done|]. simpl.
      rewrite Hown. intros [?|?]; [congruence|lia].
Qed.

Lemma attempt_outcome_witness :
  let m := run two_failures fresh_offline in
  let op := mkOp idA CREATE corn 1700000000000 2 in
  queue m !! 0 = Some op /\
  delivered true op = true /\
  completes_pass [Settle true true] m /\
  (idA ∉ ids (queue (run [Settle true true] m))).
Proof.
  intros m op.
  assert (wf m) as Hwf by (apply wf_run, wf_create).
  assert (NoDup (ids (queue m))) as Hd by (vm_compute; apply NoDup_singleton).
  assert (pending m = Some (mkFrame 0 [])) as Hp by reflexivity.
  assert (queue m !! 0 = Some op) as Hq by reflexivity.
  assert (fresh_run [Settle true true] m) as Hf by (simpl; tauto).
  assert (completes_pass [Settle true true] m) as Hc by reflexivity.
  split; [exact Hq|]. split; [reflexivity|]. split; [exact Hc|].
  destruct attempt_outcome as [H _].
  destruct (H true true [] m (mkFrame 0 []) op Hwf Hd Hp Hq Hf Hc)
    as (_ & _ & H3 & _).
  apply H3. reflexivity.
Defined.

(** ** Order of attempts *)

Lemma omap_executeOperation_cons o (l : list QueuedOperation) :
  omap executeOperation (o :: l)
  = option_list (executeOperation o) ++ omap executeOperation l.
Proof. csimpl. by destruct (executeOperation o). Qed.

Lemma omap_executeOperation_visited ok i op (q : list QueuedOperation) n :
  q !! i = Some op -> i < n ->
  omap executeOperation (drop n (visited ok i op q))
  = omap executeOperation (drop n q).
Proof.
  intros Hq Hlt. unfold visited. case_match; [done|].
  by rewrite drop_insert_lt by lia.
Qed.

Lemma calls_resume_continue ok w m f next :
  pending m = Some f -> queue m !! S (cursor f) = Some next ->
  pending (resume ok w m)
  = Some (mkFrame (S (cursor f))
            (match queue m !! cursor f with
             | Some op => marked ok op (successfulOperations f)
             | None => []
             end)) /\
  calls (resume ok w m) = calls m ++ option_list (executeOperation next) /\
  length (queue (resume ok w m)) = length (queue m).
Proof.
  intros Hp Hn.
  destruct (lookup_lt_is_Some_2 (queue m) (cursor f)) as [op Hq].
  { apply lookup_lt_Some in Hn. lia. }
  rewrite (resume_unfold _ _ _ _ _ Hp Hq). cbv zeta. rewrite Hn, Hq. simpl.
  by rewrite length_visited.
Qed.

(** The rest of a pass that nothing interrupts. *)
Lemma pass_rest os m f :
  wf m -> pending m = Some f -> length os = length (queue m) - cursor f ->
  pending (run (settles os) m) = None /\
  calls (run (settles os) m)
  = calls m ++ omap executeOperation (drop (S (cursor f)) (queue m)).
Proof.
  revert m f. induction os as [|[ok w] os IH]; intros m f Hwf Hp Hlen.
  { pose proof Hwf as Hwf'. unfold wf in Hwf'. rewrite Hp in Hwf'.
    simpl in Hlen. lia. }
  destruct (wf_cursor _ _ Hwf Hp) as [op Hq].
  change (run (settles ((ok, w) :: os)) m)
    with (run (settles os) (step (Settle ok w) m)).
  destruct (queue m !! S (cursor f)) as [next|] eqn:Hn.
  - destruct (calls_resume_continue ok w m f next Hp Hn) as (Hp' & Hc' & Hl').
    destruct (IH (step (Settle ok w) m) _ (wf_step _ _ Hwf) Hp') as [IH1 IH2].
    { simpl. unfold step. rewrite Hl'. simpl in Hlen. lia. }
    split; [done|]. rewrite IH2. unfold step at 1. rewrite Hc'. simpl.
    rewrite <- app_assoc. f_equal.
    rewrite (drop_S _ _ _ Hn), omap_executeOperation_cons. f_equal.
    rewrite (resume_unfold _ _ _ _ _ Hp Hq). cbv zeta. rewrite Hn. simpl.
    by apply omap_executeOperation_visited; [|lia].
  - apply lookup_ge_None_1 in Hn as Hge.
    destruct os as [|o os]; [|simpl in Hlen; apply lookup_lt_Some in Hq; lia].
    change (run (settles []) (step (Settle ok w) m)) with (step (Settle ok w) m).
    unfold step. rewrite (resume_unfold _ _ _ _ _ Hp Hq). cbv zeta. rewrite Hn.
    rewrite drop_ge by lia. rewrite app_nil_r.
    split; [done|]. by destruct w.
Qed.

(** A whole pass, from the reconnect that starts it. *)
Lemma whole_pass os m :
  wf m -> pending m = None -> queue m <> [] ->
  length os = length (queue m) ->
  pending (run (Online :: settles os) m) = None /\
  calls (run (Online :: settles os) m)
  = calls m ++ omap executeOperation (queue m).
Proof.
  intros Hwf Hp Hne Hlen.
  destruct (queue m) as [|op q] eqn:Hq; [done|].
  change (run (Online :: settles os) m) with (run (settles os) (step Online m)).
  assert (step Online m
          = attempt op (mkFrame 0 []) (set_syncInProgress true (set_isOnline true m)))
    as E.
  { unfold step. apply syncQueue_starts; simpl; [done| |by rewrite Hq].
    by apply wf_idle. }
  destruct (pass_rest os (step Online m) (mkFrame 0 [])) as [H1 H2].
  { apply wf_step, Hwf. } { by rewrite E. }
  { rewrite E. simpl. rewrite Hq, Hlen. simpl. lia. }
  split; [done|]. rewrite H2, E. simpl. rewrite Hq. simpl.
  rewrite <- app_assoc. f_equal. rewrite drop_0.
  by destruct (executeOperation op).
Qed.

(** A pass in progress, with whatever else happens in between: positions
    in the queue are stable and the requests go out in queue order. *)
Lemma pass_calls tr m f :
  wf m -> pending m = Some f -> passes tr m = 0 ->
  exists f', pending (run tr m) = Some f' /\ cursor f <= cursor f' /\
    calls (run tr m)
    = calls m ++ omap executeOperation
                   (drop (S (cursor f)) (take (S (cursor f')) (queue (run tr m)))) /\
    forall i o, queue m !! i = Some o ->
      exists o', queue (run tr m) !! i = Some o' /\ id o' = id o /\
        executeOperation o' = executeOperation o.
Proof.
  revert m f. induction tr as [|e tr IH]; intros m f Hwf Hp Hn.
  { exists f. split; [done|]. split; [lia|]. split; [|eauto].
    simpl. rewrite drop_ge; [by rewrite app_nil_r|].
    rewrite length_take. lia. }
  simpl in Hn.
  destruct (ends_pass e m) eqn:He; [lia|]. simpl in Hn.
  change (run (e :: tr) m) with (run tr (step e m)).
  pose proof (wf_step e m Hwf) as Hwf1.
  destruct (settle_or_not e) as [(ok & w & ->)|Hns].
  - destruct (wf_cursor _ _ Hwf Hp) as [op Hq].
    destruct (queue m !! S (cursor f)) as [next|] eqn:Hnext.
    + destruct (calls_resume_continue ok w m f next Hp Hnext) as (Hp1 & Hc1 & _).
      destruct (IH _ _ Hwf1 Hp1 Hn) as (f' & Hp' & Hle & Hcalls & Hst).
      cbn [cursor] in Hle, Hcalls.
      assert (queue (step (Settle ok w) m) !! S (cursor f) = Some next) as Hn1.
      { unfold step. rewrite (resume_unfold _ _ _ _ _ Hp Hq). cbv zeta.
        rewrite Hnext. simpl. by rewrite lookup_visited_ne by lia. }
      destruct (Hst _ _ Hn1) as (next' & Hn' & _ & Hex).
      exists f'. split; [done|]. split; [lia|]. split.
      * rewrite Hcalls. unfold step at 1. rewrite Hc1, <- app_assoc. f_equal.
        rewrite (drop_S _ next' (S (cursor f)))
          by (by rewrite lookup_take_lt by lia).
        by rewrite omap_executeOperation_cons, Hex.
      * intros i o Hi.
        assert (exists o1, queue (step (Settle ok w) m) !! i = Some o1 /\
                  id o1 = id o /\ executeOperation o1 = executeOperation o)
          as (o1 & Hi1 & Hid1 & Hex1).
        { unfold step. rewrite (resume_unfold _ _ _ _ _ Hp Hq). cbv zeta.
          rewrite Hnext. simpl.
          destruct (decide (i = cursor f)) as [->|Hne].
          - rewrite lookup_visited_eq by done. simplify_eq.
            eexists. split; [done|]. by destruct (delivered ok _).
          - rewrite lookup_visited_ne by done. eauto. }
        destruct (Hst _ _ Hi1) as (o' & Hi' & Hid' & Hex').
        exists o'. split; [done|]. split; congruence.
    + exfalso. destruct (at_step ok w m f op Hp Hq) as [(_ & Hp1 & _)|(He' & _)];
        [|congruence].
      revert Hp1. unfold step. rewrite (resume_unfold _ _ _ _ _ Hp Hq). cbv zeta.
      rewrite Hnext. by destruct w.
  - destruct (step_busy e m f Hwf Hp Hns) as (Hp1 & Hc1 & tail & Hq1).
    destruct (IH _ _ Hwf1 Hp1 Hn) as (f' & Hp' & Hle & Hcalls & Hst).
    exists f'. split; [done|]. split; [done|]. split; [by rewrite Hcalls, Hc1|].
    intros i o Hi. apply Hst. rewrite Hq1.
    rewrite lookup_app_l; [done|]. by eapply lookup_lt_Some.
Qed.

(** C5. A pass sends its requests in queue order, which is enqueue order
    since [queueOperation] appends at the end: the pass opens with the
    request of the first operation; whether an attempt succeeds or fails,
    the request of the operation queued behind it is sent next; over a pass
    in progress, with enqueues and connectivity changes in between, the
    requests sent are those of the operations between the two cursor
    positions, in order, positions being stable; a pass nothing interrupts
    sends the requests of the whole queue in order, whatever the answers.
    With A then B enqueued offline, the reconnect sends the create for A
    and then, A's attempt having succeeded or failed, the create for B. *)
Theorem attempts_in_queue_order :
  (forall m op,
     isOnline m = true -> syncInProgress m = false -> queue m !! 0 = Some op ->
     pending (syncQueue m) = Some (mkFrame 0 []) /\
     calls (syncQueue m) = calls m ++ option_list (executeOperation op)) /\
  (forall ok w m f next,
     pending m = Some f -> queue m !! S (cursor f) = Some next ->
     is_Some (pending (resume ok w m)) /\
     calls (resume ok w m) = calls m ++ option_list (executeOperation next)) /\
  (forall tr m f,
     wf m -> pending m = Some f -> passes tr m = 0 ->
     exists f', pending (run tr m) = Some f' /\ cursor f <= cursor f' /\
       calls (run tr m)
       = calls m ++ omap executeOperation
            (drop (S (cursor f)) (take (S (cursor f')) (queue (run tr m)))) /\
       forall i o, queue m !! i = Some o ->
         exists o', queue (run tr m) !! i = Some o' /\ id o' = id o /\
           executeOperation o' = executeOperation o) /\
  (forall os m,
     wf m -> pending m = None -> queue m <> [] ->
     length os = length (queue m) ->
     pending (run (Online :: settles os) m) = None /\
     calls (run (Online :: settles os) m)
     = calls m ++ omap executeOperation (queue m)) /\
  (forall ok w,
     calls (run [enqueueA; enqueueB; Online] fresh_offline)
     = [createHarvest corn] /\
     calls (run [enqueueA; enqueueB; Online; Settle ok w] fresh_offline)
     = [createHarvest corn; createHarvest wheat]).
Proof.
  split; [|split; [|split; [|split]]].
  - intros m op Ho Hs Hq. by rewrite (syncQueue_starts m op Ho Hs Hq).
  - intros ok w m f next Hp Hn.
    destruct (calls_resume_continue ok w m f next Hp Hn) as (Hp' & Hc & _).
    split; [by rewrite Hp'|done].
  - apply pass_calls.
  - apply whole_pass.
  - intros ok w. by destruct ok, w.
Qed.

Lemma attempts_in_queue_order_witness :
  let m := run [enqueueA; enqueueB] fresh_offline in
  pending m = None /\ length (queue m) = 2 /\
  forall ok1 w1 ok2 w2,
    calls (run (Online :: settles [(ok1, w1); (ok2, w2)]) m)
    = [createHarvest corn; createHarvest wheat].
Proof.
  intros m.
  assert (wf m) as Hwf by (apply wf_run, wf_create).
  split; [reflexivity|]. split; [reflexivity|].
  intros ok1 w1 ok2 w2.
  destruct attempts_in_queue_order as (_ & _ & _ & H & _).
  destruct (H [(ok1, w1); (ok2, w2)] m Hwf) as [_ Hc];
    [reflexivity | discriminate | reflexivity |].
  exact Hc.
Defined.

Lemma errors_never_propagate_witness :
  let m := run [enqueueA; enqueueB; Online] fresh_offline in
  pending m = Some (mkFrame 0 []) /\
  queue m !! 1 = Some (mkOp (generateId 1700000000050 "z9y8x7w6v") CREATE wheat
                         1700000000050 0) /\
  Exn.step (Settle false false) m = Returned (step (Settle false false) m) /\
  calls (resume false false m) = [createHarvest corn; createHarvest wheat].
Proof.
  intros m.
  destruct errors_never_propagate as (_ & _ & H3 & _ & H5).
  split; [reflexivity|]. split; [reflexivity|]. split; [apply H3|].
  destruct (H5 m (mkFrame 0 []) _ false eq_refl eq_refl) as (f' & _ & _ & Hc).
  exact Hc.
Defined.

Lemma loadQueue_persisted_or_empty_witness :
  queue (loadQueue (mkManager [] true false stale_slot [] None))
  = persisted stale_slot /\
  queue (loadQueue (mkManager [] true false Garbled [] None)) = [].
Proof.
  destruct (loadQueue_persisted_or_empty true stale_slot) as (_ & H1 & _).
  destruct (loadQueue_persisted_or_empty true Garbled) as (_ & _ & _ & H2 & _).
  split; [exact H1|]. apply H2. right; right; reflexivity.
Defined.

(** * Further properties of the queue manager *)

(** ** Status *)

Lemma step_flagged e m :
  syncInProgress m = true -> (forall ok w, e <> Settle ok w) ->
  pending (step e m) = pending m /\ syncInProgress (step e m) = true /\
  calls (step e m) = calls m.
Proof.
  intros Hs Hne. destruct e; unfold step.
  - unfold queueOperation. simpl.
    destruct writable; simpl; rewrite Hs, andb_false_r; done.
  - rewrite syncQueue_guarded by (right; left; done). done.
  - done.
  - rewrite syncQueue_guarded by (right; left; done). done.
  - by destruct (Hne ok writable).
Qed.

Lemma xstep_plain e x :
  (forall ok w, e <> Settle ok w) ->
  xstep (Plain e) x = mkX (step e (base x)) (detached x).
Proof. intros Hns. destruct e; try done. by destruct (Hns ok writable). Qed.

Lemma xwf_xstep e x : xwf x -> xwf (xstep e x).
Proof.
  intros Hx. unfold xwf in Hx. destruct e as [e|w].
  - destruct (settle_or_not e) as [(ok & w & ->)|Hns].
    + cbn [xstep]. unfold xresume. destruct (detached x) as [a|] eqn:Hd.
      * destruct Hx as (Hs & f & Hp & Hc). rewrite Hp.
        destruct (lookup_lt_is_Some_2 a (cursor f) Hc) as [op Ha].
        rewrite Ha. cbv zeta.
        destruct (visited ok (cursor f) op a !! S (cursor f)) eqn:Hn.
        -- unfold xwf. cbn. split; [done|]. eexists; split; [done|]. cbn.
           by apply lookup_lt_Some in Hn.
        -- unfold xwf. cbn [detached base]. unfold wf, finish. by destruct w.
      * unfold xwf. cbn. by apply wf_resume.
    + rewrite xstep_plain by done.
      unfold xwf. cbn [detached base]. destruct (detached x) as [a|].
      * destruct Hx as (Hs & f & Hp & Hc).
        destruct (step_flagged e (base x) Hs Hns) as (Hp' & Hs' & _).
        split; [done|]. exists f. by rewrite Hp'.
      * by apply wf_step.
  - cbn [xstep]. unfold clearQueue, xwf. cbn [detached base].
    destruct (detached x) as [a|] eqn:Hd.
    + destruct Hx as (Hs & f & Hp & Hc). destruct w; simpl; eauto.
    + destruct (pending (base x)) as [f|] eqn:Hp.
      * unfold wf in Hx. rewrite Hp in Hx. destruct Hx as (Hs & Hc & _).
        destruct w; simpl; eauto.
      * unfold wf in Hx |- *. rewrite Hp in Hx. destruct w; simpl; by rewrite Hp.
Qed.

Lemma xwf_xrun tr x : xwf x -> xwf (xrun tr x).
Proof.
  revert x. induction tr as [|e tr IH]; intros x Hx; [done|].
  change (xrun (e :: tr) x) with (xrun tr (xstep e x)).
  by apply IH, xwf_xstep.
Qed.

Lemma xreachable_xwf x : xreachable x -> xwf x.
Proof.
  intros (online & s & tr & ->). apply xwf_xrun. unfold xwf. cbn.
  apply wf_create.
Qed.

(** X1. In every state the manager can reach, [clearQueue] included, the
    status tells the truth about the pass: [syncInProgress] is reported
    exactly when a pass is parked on an answer.  The queue it reports is
    then not empty, unless [clearQueue] was called during that pass, which
    from then on runs on the array it started on. *)
Theorem status_in_progress_has_work x :
  xreachable x ->
  let st := getQueueStatus (base x) in
  (Status.syncInProgress st = true <-> is_Some (pending (base x))) /\
  (Status.syncInProgress st = true -> detached x = None ->
     0 < Status.queueLength st) /\
  (Status.queueLength st = 0 -> detached x = None ->
     Status.syncInProgress (getOfflineStatus (base x)) = false).
Proof.
  intros Hr st. apply xreachable_xwf in Hr as Hx.
  unfold st, getOfflineStatus. cbn [getQueueStatus Status.syncInProgress
    Status.queueLength].
  assert (syncInProgress (base x) = true <-> is_Some (pending (base x)))
    as Hiff.
  { unfold xwf in Hx. destruct (detached x) as [a|].
    - destruct Hx as (-> & f & -> & _). split; eauto.
    - unfold wf in Hx. destruct (pending (base x)) as [f|].
      + destruct Hx as [-> _]. split; eauto.
      + rewrite Hx. split; [done|]. by intros [? ?]. }
  assert (syncInProgress (base x) = true -> detached x = None ->
          0 < length (queue (base x))) as Hlen.
  { intros Hs Hd. apply Hiff in Hs as [f Hp].
    unfold xwf in Hx. rewrite Hd in Hx. unfold wf in Hx.
    rewrite Hp in Hx. lia. }
  split; [done|]. split; [done|].
  intros H0 Hd. destruct (syncInProgress (base x)) eqn:Hs; [|done].
  specialize (Hlen eq_refl Hd). lia.
Qed.

Lemma status_in_progress_has_work_witness :
  let x := xrun [Plain enqueueA; Plain Online] (mkX fresh_offline None) in
  let y := xstep (Clear true) x in
  xreachable x /\ detached x = None /\
  getQueueStatus (base x) = Status.mk true 1 true /\
  is_Some (pending (base x)) /\
  xreachable y /\ getQueueStatus (base y) = Status.mk true 0 true.
Proof.
  intros x y.
  assert (xreachable x) as Hr.
  { exists false, Missing, [Plain enqueueA; Plain Online]. reflexivity. }
  split; [exact Hr|]. split; [reflexivity|]. split; [reflexivity|].
  destruct (status_in_progress_has_work x Hr) as (H & _).
  split; [apply H; reflexivity|].
  split; [|reflexivity].
  exists false, Missing, [Plain enqueueA; Plain Online; Clear true].
  reflexivity.
Defined.

(** ** Connectivity flag *)

Lemma isOnline_resume ok w m : isOnline (resume ok w m) = isOnline m.
Proof.
  destruct (pending m) as [f|] eqn:Hp; [|by rewrite resume_idle].
  destruct (queue m !! cursor f) as [op|] eqn:Hq;
    [|by rewrite (resume_stuck _ _ _ _ Hp Hq)].
  rewrite (resume_unfold _ _ _ _ _ Hp Hq). cbv zeta.
  destruct (queue m !! S (cursor f)); [done|]. by destruct w.
Qed.

(** X2. The manager's belief about connectivity is changed by the two
    listeners only: after any run it is what the last [online] or
    [offline] event said, or the initial reading if there was none.
    Neither enqueueing nor the success or failure of deliveries touches
    it. *)
Theorem isOnline_follows_listeners tr m :
  isOnline (run tr m) = connectivity (isOnline m) tr.
Proof.
  revert m. induction tr as [|e tr IH]; intros m; [done|].
  change (run (e :: tr) m) with (run tr (step e m)). rewrite IH.
  unfold connectivity. simpl. f_equal.
  destruct e; unfold step;
    rewrite ?isOnline_queueOperation, ?isOnline_syncQueue, ?isOnline_resume;
    done.
Qed.

(** ** Order and immutability *)

Lemma core_bump op : core (bump op) = core op.
Proof. done. Qed.

Lemma cores_visited ok (q : list QueuedOperation) i op :
  q !! i = Some op -> core <$> visited ok i op q = core <$> q.
Proof.
  intros H. unfold visited. case_match; [done|].
  rewrite list_fmap_insert, core_bump.
  apply list_insert_id. by rewrite list_lookup_fmap, H.
Qed.

Lemma cores_step e m :
  (core <$> queue (step e m)) `sublist_of` (core <$> (queue m ++ enqueued e)).
Proof.
  destruct e as [ty d now sfx now' w| | | |ok w]; unfold step, enqueued;
    rewrite ?queue_syncQueue, ?queue_queueOperation, ?app_nil_r; try done.
  destruct (pending m) as [f|] eqn:Hp; [|by rewrite resume_idle].
  destruct (queue m !! cursor f) as [op|] eqn:Hq;
    [|by rewrite (resume_stuck _ _ _ _ Hp Hq)].
  rewrite (resume_unfold _ _ _ _ _ Hp Hq). cbv zeta.
  destruct (queue m !! S (cursor f)); simpl.
  - by rewrite cores_visited.
  - rewrite <- (cores_visited ok (queue m) (cursor f) op Hq).
    destruct w; simpl; apply fmap_sublist, sublist_filter.
Qed.

(** X3. Whatever happens, the queue is never reordered, nothing is added
    to it except by an enqueue at its end, and the id, type, payload and
    timestamp of a queued operation are never altered: after any run, the
    queued operations, counters aside, are a subsequence of the initial
    ones followed by the enqueued ones, in that order. *)
Theorem queue_order_and_payload_kept tr m :
  (core <$> queue (run tr m))
    `sublist_of` (core <$> (queue m ++ (tr ≫= enqueued))).
Proof.
  revert m. induction tr as [|e tr IH]; intros m.
  { simpl. by rewrite app_nil_r. }
  change (run (e :: tr) m) with (run tr (step e m)).
  etrans; [apply IH|].
  change ((e :: tr) ≫= enqueued) with (enqueued e ++ (tr ≫= enqueued)).
  rewrite app_assoc, !(fmap_app core).
  apply sublist_app; [|done].
  rewrite <- fmap_app. apply cores_step.
Qed.

(** ** Counters stay within bounds *)

Lemma queue_step_other e m :
  (forall ok w, e <> Settle ok w) -> queue (step e m) = queue m ++ enqueued e.
Proof.
  intros Hns. destruct e as [ty d now sfx now' w| | | |ok w]; unfold step, enqueued;
    rewrite ?queue_syncQueue, ?queue_queueOperation, ?app_nil_r; try done.
  by destruct (Hns ok w).
Qed.

Lemma retryCount_enqueued e o : o ∈ enqueued e -> retryCount o = 0%Z.
Proof.
  destruct e; simpl; intros H; try (by apply elem_of_nil in H).
  apply list_elem_of_singleton in H. by subst.
Qed.

Lemma bounded_sane m : sane (queue m) -> bounded m.
Proof.
  intros Hs i o Hi. apply list_elem_of_lookup_2 in Hi. apply Hs in Hi.
  split; [lia|]. left. lia.
Qed.

Lemma bounded_step e m : wf m -> bounded m -> bounded (step e m).
Proof.
  intros Hwf Hb.
  destruct (settle_or_not e) as [(ok & w & ->)|Hns].
  - destruct (pending m) as [f|] eqn:Hp;
      [|unfold step; by rewrite resume_idle].
    destruct (wf_cursor _ _ Hwf Hp) as [op Hq].
    assert ((0 <= retryCount op < MAX_RETRIES)%Z) as Hop.
    { destruct (Hb _ _ Hq) as [H0 [Hlt|(f' & Hp' & Hlt & _)]]; [lia|].
      simplify_eq. lia. }
    (* what the loop body leaves at each position *)
    assert (forall i o, visited ok (cursor f) op (queue m) !! i = Some o ->
              (0 <= retryCount o)%Z /\
              ((retryCount o < MAX_RETRIES)%Z \/
               (i < S (cursor f) /\
                id o ∈ marked ok op (successfulOperations f) /\
                retryCount o = MAX_RETRIES))) as Hv.
    { intros i o Hi. destruct (decide (i = cursor f)) as [->|Hne].
      - rewrite lookup_visited_eq in Hi by done. unfold marked.
        destruct (delivered ok op); simplify_eq; [split; [lia|left; lia]|].
        simpl. split; [lia|].
        destruct (MAX_RETRIES <=? retryCount op + 1)%Z eqn:Hcap.
        + apply Z.leb_le in Hcap. right. split; [lia|].
          split; [|lia]. apply elem_of_app. right. by left.
        + apply Z.leb_gt in Hcap. by left.
      - rewrite lookup_visited_ne in Hi by done.
        destruct (Hb _ _ Hi) as [H0 [Hlt|(f' & Hp' & Hlt & Hm & Hrc)]];
          [split; [done|by left]|].
        simplify_eq. split; [done|]. right.
        split; [lia|]. split; [by apply marked_mono|done]. }
    unfold step. rewrite (resume_unfold _ _ _ _ _ Hp Hq). cbv zeta.
    destruct (queue m !! S (cursor f)) as [next|].
    + intros i o Hi. simpl in Hi.
      destruct (Hv _ _ Hi) as [H0 [Hlt|(Hlt & Hm & Hrc)]]; [by split; [|left]|].
      split; [done|]. right. eexists. split; [reflexivity|]. done.
    + intros j o Hj.
      assert (o ∈ filter (unmarked (marked ok op (successfulOperations f)))
                  (visited ok (cursor f) op (queue m))) as Hin.
      { apply (list_elem_of_lookup_2 _ j). by destruct w. }
      apply list_elem_of_filter in Hin as [Hun Hin].
      apply list_elem_of_lookup_1 in Hin as [i Hi].
      destruct (Hv _ _ Hi) as [H0 [Hlt|(_ & Hm & _)]]; [by split; [|left]|].
      by destruct Hun.
  - intros i o Hi. rewrite (queue_step_other _ _ Hns) in Hi.
    apply lookup_app_Some in Hi as [Hi|[_ Hi]].
    + destruct (Hb _ _ Hi) as [H0 [Hlt|(f & Hp & Hlt & Hm & Hrc)]];
        [split; [done|by left]|].
      split; [done|]. right. exists f.
      by destruct (step_busy e m f Hwf Hp Hns) as (-> & _).
    + apply list_elem_of_lookup_2, retryCount_enqueued in Hi.
      rewrite Hi. split; [lia|]. left. done.
Qed.

Lemma bounded_run tr m : wf m -> bounded m -> bounded (run tr m).
Proof.
  revert m. induction tr as [|e tr IH]; intros m Hwf Hb; [done|].
  change (run (e :: tr) m) with (run tr (step e m)).
  apply IH; [by apply wf_step|by apply bounded_step].
Qed.

(** X4. If every queued counter starts between 0 and the cap (cap
    excluded), then at every later moment every queued counter lies between
    0 and [MAX_RETRIES], and whenever no pass is in progress it is strictly
    below [MAX_RETRIES]. *)
Theorem retryCount_within_bounds tr m :
  wf m -> sane (queue m) ->
  (forall o, o ∈ queue (run tr m) -> (0 <= retryCount o <= MAX_RETRIES)%Z) /\
  (pending (run tr m) = None -> sane (queue (run tr m))).
Proof.
  intros Hwf Hs.
  pose proof (bounded_run tr m Hwf (bounded_sane _ Hs)) as Hb.
  split.
  - intros o Ho. apply list_elem_of_lookup_1 in Ho as [i Hi].
    destruct (Hb _ _ Hi) as [H0 [Hlt|(_ & _ & _ & _ & Hrc)]]; lia.
  - intros Hp o Ho. apply list_elem_of_lookup_1 in Ho as [i Hi].
    destruct (Hb _ _ Hi) as [H0 [Hlt|(f & Hp' & _)]]; [lia|congruence].
Qed.

Lemma retryCount_within_bounds_witness :
  let m := step enqueueA fresh_offline in
  sane (queue m) /\
  (forall o, o ∈ queue (run three_failures m) ->
     (0 <= retryCount o <= MAX_RETRIES)%Z) /\
  sane (queue (run [Online; Settle false true] m)).
Proof.
  intros m.
  assert (wf m) as Hwf by (apply wf_step, wf_create).
  assert (sane (queue m)) as Hs.
  { intros o Ho. apply list_elem_of_singleton in Ho. subst o.
    vm_compute. split; [discriminate|reflexivity]. }
  split; [exact Hs|]. split.
  - apply (retryCount_within_bounds three_failures m Hwf Hs).
  - apply (retryCount_within_bounds [Online; Settle false true] m Hwf Hs).
    reflexivity.
Defined.

(** ** What a pass leaves *)

Lemma filter_ext_in {A} (P Q : A -> Prop)
    `{!forall x, Decision (P x)} `{!forall x, Decision (Q x)} (l : list A) :
  (forall x, x ∈ l -> P x <-> Q x) -> filter P l = filter Q l.
Proof.
  induction l as [|x l IH]; intros Hext; [done|].
  rewrite !filter_cons.
  assert (P x <-> Q x) as Hx by (apply Hext; by left).
  rewrite IH by (intros y Hy; apply Hext; by right).
  destruct (decide (P x)), (decide (Q x)); tauto.
Qed.

Lemma take_visited ok (q : list QueuedOperation) i op n :
  n <= i -> take n (visited ok i op q) = take n q.
Proof. intros H. unfold visited. case_match; [done|]. by apply take_insert_ge. Qed.

Lemma drop_visited ok (q : list QueuedOperation) i op n :
  i < n -> drop n (visited ok i op q) = drop n q.
Proof. intros H. unfold visited. case_match; [done|]. by apply drop_insert_lt. Qed.

(** What the final filter makes of the operation just visited. *)
Lemma filter_own ok op marks :
  id op ∉ marks ->
  filter (unmarked (marked ok op marks)) [if delivered ok op then op else bump op]
  = option_list (outcome ok op).
Proof.
  intros Hx. pose proof (marked_own ok op marks Hx) as Hown.
  rewrite filter_singleton; [|exact []]. unfold outcome, unmarked.
  destruct (delivered ok op) eqn:Hdel.
  - rewrite decide_False; [done|]. intros H. apply H, Hown. by left.
  - simpl. destruct (MAX_RETRIES <=? retryCount op + 1)%Z eqn:Hcap.
    + apply Z.leb_le in Hcap. rewrite decide_False; [done|].
      intros H. apply H, Hown. by right.
    + apply Z.leb_gt in Hcap. rewrite decide_True; [done|].
      simpl. rewrite Hown. intros [?|?]; [done|lia].
Qed.

(** What it makes of the operations visited before. *)
Lemma filter_before ok op marks (q : list QueuedOperation) c :
  NoDup (ids q) -> q !! c = Some op ->
  filter (unmarked (marked ok op marks)) (take c q)
  = filter (unmarked marks) (take c q).
Proof.
  intros Hd Hq. apply filter_ext_in. intros o Ho.
  apply elem_of_take in Ho as (j & Hj & Hlt).
  unfold unmarked. rewrite marked_other; [done|].
  intros Hid. pose proof (NoDup_ids_lookup _ _ _ _ _ Hd Hj Hq Hid). lia.
Qed.

Lemma pass_rest_queue os m f :
  wf m -> NoDup (ids (queue m)) -> pending m = Some f ->
  length os = length (queue m) - cursor f ->
  queue (run (settles os) m)
  = filter (unmarked (successfulOperations f)) (take (cursor f) (queue m))
    ++ pass_result os.*1 (drop (cursor f) (queue m)).
Proof.
  revert m f. induction os as [|[ok w] os IH]; intros m f Hwf Hd Hp Hlen.
  { pose proof Hwf as Hwf'. unfold wf in Hwf'. rewrite Hp in Hwf'.
    simpl in Hlen. lia. }
  destruct (wf_cursor _ _ Hwf Hp) as [op Hq].
  assert (id op ∉ successfulOperations f) as Hx
    by (by eapply wf_unmarked_ahead).
  change (run (settles ((ok, w) :: os)) m)
    with (run (settles os) (step (Settle ok w) m)).
  rewrite (drop_S _ _ _ Hq). cbn [fmap list_fmap fst pass_result].
  set (op' := if delivered ok op then op else bump op).
  set (marks' := marked ok op (successfulOperations f)).
  assert (take (S (cursor f)) (visited ok (cursor f) op (queue m))
          = take (cursor f) (queue m) ++ [op']) as Htake.
  { rewrite (take_S_r _ _ op') by (by apply lookup_visited_eq).
    by rewrite take_visited. }
  assert (filter (unmarked marks') (take (cursor f) (queue m) ++ [op'])
          = filter (unmarked (successfulOperations f)) (take (cursor f) (queue m))
            ++ option_list (outcome ok op)) as Hfilter.
  { rewrite filter_app. unfold marks'.
    rewrite (filter_before ok op _ _ _ Hd Hq). f_equal. by apply filter_own. }
  destruct (queue m !! S (cursor f)) as [next|] eqn:Hn.
  - destruct (calls_resume_continue ok w m f next Hp Hn) as (Hp' & _ & Hl').
    rewrite Hq in Hp'. fold marks' in Hp'.
    assert (queue (step (Settle ok w) m) = visited ok (cursor f) op (queue m))
      as Hq1.
    { unfold step. rewrite (resume_unfold _ _ _ _ _ Hp Hq). cbv zeta.
      by rewrite Hn. }
    rewrite (IH _ (mkFrame (S (cursor f)) marks') (wf_step _ _ Hwf));
      [| |done|].
    + cbn [cursor successfulOperations]. rewrite Hq1, Htake, Hfilter.
      rewrite drop_visited by lia. by rewrite <- app_assoc.
    + rewrite Hq1. by rewrite ids_visited.
    + cbn [cursor]. unfold step. rewrite Hl'. simpl in Hlen. lia.
  - apply lookup_ge_None_1 in Hn as Hge.
    destruct os as [|o os]; [|simpl in Hlen; apply lookup_lt_Some in Hq; lia].
    change (run (settles []) (step (Settle ok w) m)) with (step (Settle ok w) m).
    assert (queue (step (Settle ok w) m)
            = filter (unmarked marks') (visited ok (cursor f) op (queue m))) as ->.
    { unfold step. rewrite (resume_unfold _ _ _ _ _ Hp Hq). cbv zeta.
      rewrite Hn. by destruct w. }
    rewrite <- (take_ge (visited ok (cursor f) op (queue m)) (S (cursor f)))
      by (rewrite length_visited; lia).
    rewrite Htake, Hfilter. rewrite drop_ge by lia. simpl.
    by rewrite app_nil_r.
Qed.

(** The slot during and after a pass that nothing interrupts: written once,
    by the answer that ends the pass. *)
Lemma pass_rest_store os m f :
  wf m -> pending m = Some f -> length os = length (queue m) - cursor f ->
  store (run (settles os) m)
  = match last os with
    | Some (_, true) => Saved (queue (run (settles os) m))
    | _ => store m
    end.
Proof.
  revert m f. induction os as [|[ok w] os IH]; intros m f Hwf Hp Hlen; [done|].
  destruct (wf_cursor _ _ Hwf Hp) as [op Hq].
  change (run (settles ((ok, w) :: os)) m)
    with (run (settles os) (step (Settle ok w) m)).
  destruct (queue m !! S (cursor f)) as [next|] eqn:Hn.
  - destruct (calls_resume_continue ok w m f next Hp Hn) as (Hp' & _ & Hl').
    destruct os as [|o os].
    { simpl in Hlen. apply lookup_lt_Some in Hn. lia. }
    rewrite last_cons_cons.
    rewrite (IH (step (Settle ok w) m) _ (wf_step _ _ Hwf) Hp');
      [|cbn [cursor]; unfold step; rewrite Hl'; simpl in Hlen; simpl; lia].
    assert (store (step (Settle ok w) m) = store m) as ->; [|done].
    unfold step. rewrite (resume_unfold _ _ _ _ _ Hp Hq). cbv zeta.
    by rewrite Hn.
  - apply lookup_ge_None_1 in Hn as Hge.
    destruct os as [|o os]; [|simpl in Hlen; apply lookup_lt_Some in Hq; lia].
    change (run (settles []) (step (Settle ok w) m)) with (step (Settle ok w) m).
    simpl. unfold step. rewrite (resume_unfold _ _ _ _ _ Hp Hq). cbv zeta.
    rewrite Hn. by destruct w.
Qed.

Lemma online_starts m op :
  wf m -> pending m = None -> queue m !! 0 = Some op ->
  step Online m
  = attempt op (mkFrame 0 []) (set_syncInProgress true (set_isOnline true m)).
Proof.
  intros Hwf Hp Hq. unfold step. apply syncQueue_starts; simpl; [done| |done].
  by apply wf_idle.
Qed.

Lemma pass_result_all_delivered oks (q : list QueuedOperation) :
  Forall (fun ok => ok = true) oks ->
  Forall (fun o => is_Some (executeOperation o)) q ->
  pass_result oks q = [].
Proof.
  revert q. induction oks as [|ok oks IH]; intros [|o q] Hok Hq; try done.
  apply Forall_cons in Hok as [-> Hok]. apply Forall_cons in Hq as [Ho Hq].
  simpl. rewrite (IH q Hok Hq). unfold outcome, delivered.
  by rewrite bool_decide_eq_true_2.
Qed.

Lemma pass_result_all_failed oks (q : list QueuedOperation) :
  length oks = length q ->
  Forall (fun ok => ok = false) oks ->
  Forall (fun o => (retryCount o + 1 < MAX_RETRIES)%Z) q ->
  pass_result oks q = bump <$> q.
Proof.
  revert q. induction oks as [|ok oks IH]; intros [|o q] Hlen Hok Hq; try done.
  apply Forall_cons in Hok as [-> Hok]. apply Forall_cons in Hq as [Ho Hq].
  simpl in *. rewrite (IH q) by (done || lia). unfold outcome, delivered. simpl.
  by rewrite (proj2 (Z.leb_gt _ _) Ho).
Qed.

Lemma isOnline_during_pass os m :
  isOnline (run (Online :: settles os) m) = true.
Proof.
  change (run (Online :: settles os) m) with (run (settles os) (step Online m)).
  assert (isOnline (step Online m) = true) as H.
  { unfold step. by rewrite isOnline_syncQueue. }
  revert H. generalize (step Online m). clear m.
  induction os as [|[ok w] os IH]; intros m H; [done|].
  change (run (settles ((ok, w) :: os)) m)
    with (run (settles os) (step (Settle ok w) m)).
  apply IH. unfold step. by rewrite isOnline_resume.
Qed.

Lemma uninterrupted_pass os m :
  wf m -> pending m = None -> NoDup (ids (queue m)) ->
  queue m <> [] -> length os = length (queue m) ->
  queue (run (Online :: settles os) m) = pass_result os.*1 (queue m).
Proof.
  intros Hwf Hp Hd Hne Hlen.
  destruct (queue m) as [|op q] eqn:Hq; [done|]. simpl in Hlen.
  assert (queue m !! 0 = Some op) as Hq0 by (by rewrite Hq).
  pose proof (online_starts m op Hwf Hp Hq0) as E.
  assert (queue (step Online m) = op :: q) as Hq1 by (by rewrite E).
  change (run (Online :: settles os) m) with (run (settles os) (step Online m)).
  rewrite (pass_rest_queue os _ (mkFrame 0 []) (wf_step _ _ Hwf)).
  - by rewrite Hq1.
  - by rewrite Hq1.
  - by rewrite E.
  - rewrite Hq1. simpl. lia.
Qed.

(** X5. A pass that nothing interrupts, started by a reconnect on a queue
    with pairwise distinct ids, leaves exactly this queue: each operation in
    turn is dropped if it was delivered or if its failure brought the
    counter to the cap, and kept with its counter one higher otherwise;
    order is kept.  The slot is written once, at the end, if that write
    succeeds.  In particular, if everything is delivered the queue is empty
    afterwards, and if everything fails below the cap the queue is the same
    with every counter one higher. *)
Theorem pass_leaves_pass_result os m :
  wf m -> pending m = None -> NoDup (ids (queue m)) ->
  queue m <> [] -> length os = length (queue m) ->
  let m' := run (Online :: settles os) m in
  queue m' = pass_result os.*1 (queue m) /\
  store m' = match last os with
             | Some (_, true) => Saved (queue m')
             | _ => store m
             end /\
  getQueueStatus m' = Status.mk true (length (pass_result os.*1 (queue m))) false /\
  (Forall (fun ok => ok = true) os.*1 ->
   Forall (fun o => is_Some (executeOperation o)) (queue m) -> queue m' = []) /\
  (Forall (fun ok => ok = false) os.*1 ->
   Forall (fun o => (retryCount o + 1 < MAX_RETRIES)%Z) (queue m) ->
   queue m' = bump <$> queue m).
Proof.
  intros Hwf Hp Hd Hne Hlen m'.
  destruct (queue m) as [|op q] eqn:Hq; [done|].
  simpl in Hlen.
  assert (queue m !! 0 = Some op) as Hq0 by (by rewrite Hq).
  pose proof (online_starts m op Hwf Hp Hq0) as E.
  assert (wf (step Online m)) as Hwf1 by (by apply wf_step).
  assert (pending (step Online m) = Some (mkFrame 0 [])) as Hp1 by (by rewrite E).
  assert (queue (step Online m) = op :: q) as Hq1 by (by rewrite E).
  assert (queue m' = pass_result os.*1 (op :: q)) as Hres.
  { unfold m'. rewrite <- Hq.
    apply uninterrupted_pass; rewrite ?Hq; done. }
  split; [done|]. split.
  { unfold m'.
    change (run (Online :: settles os) m) with (run (settles os) (step Online m)).
    rewrite (pass_rest_store os _ _ Hwf1 Hp1) by (rewrite Hq1; simpl; lia).
    by rewrite E. }
  split.
  { unfold getQueueStatus. rewrite Hres. f_equal.
    - unfold m'. by rewrite isOnline_during_pass.
    - destruct (whole_pass os m Hwf Hp) as [Hpn _]; [by rewrite Hq|by rewrite Hq|].
      apply wf_idle; [|done]. by apply wf_run. }
  split.
  - intros H1 H2. rewrite Hres. by apply pass_result_all_delivered.
  - intros H1 H2. rewrite Hres. apply pass_result_all_failed; [|done..].
    by rewrite length_fmap.
Qed.

Lemma pass_leaves_pass_result_witness :
  let m := run [enqueueA; enqueueB] fresh_offline in
  let m' := run (Online :: settles [(false, true); (true, true)]) m in
  NoDup (ids (queue m)) /\
  (retryCount <$> queue m') = [1%Z] /\ synced m'.
Proof.
  intros m m'.
  assert (wf m) as Hwf by (apply wf_run, wf_create).
  assert (NoDup (ids (queue m))) as Hd.
  { vm_compute. apply NoDup_cons. split; [|apply NoDup_singleton].
    intros H. apply list_elem_of_singleton in H. discriminate. }
  destruct (pass_leaves_pass_result [(false, true); (true, true)] m Hwf eq_refl Hd)
    as (H1 & H2 & _); [discriminate|reflexivity|].
  split; [exact Hd|]. fold m' in H1, H2. split.
  - rewrite H1. reflexivity.
  - exact H2.
Defined.

(** ** Harvests queued while offline *)

Lemma queueHarvest_pass harvest now sfx now' w m ok w' :
  wf m -> pending m = None -> isOnline m = false -> queue m = [] ->
  let r := queueHarvest harvest now sfx now' w m in
  let op := mkOp (generateId now sfx) CREATE harvest now' 0 in
  queue (run [Online; Settle ok w'] r.2) = pass_result [ok] [op] /\
  calls (run [Online; Settle ok w'] r.2) = calls m ++ [createHarvest harvest].
Proof.
  intros Hwf Hp Ho Hq r op.
  assert (wf r.2) as Hwf1
    by apply (wf_step (Enqueue CREATE harvest now sfx now' w) m Hwf).
  assert (queue r.2 = [op]) as Hq1.
  { unfold r, queueHarvest. by rewrite queue_queueOperation, Hq. }
  assert (calls r.2 = calls m) as Hc1
    by (by apply calls_queueOperation_offline).
  assert (pending r.2 = None) as Hp1.
  { unfold r, queueHarvest, queueOperation. cbv zeta.
    destruct w; simpl; rewrite Ho; done. }
  assert (NoDup (ids (queue r.2))) as Hd1
    by (rewrite Hq1; apply NoDup_singleton).
  change (run [Online; Settle ok w'] r.2)
    with (run (Online :: settles [(ok, w')]) r.2).
  split.
  - rewrite (uninterrupted_pass [(ok, w')] r.2 Hwf1 Hp1 Hd1)
      by (by rewrite Hq1).
    by rewrite Hq1.
  - destruct (whole_pass [(ok, w')] r.2 Hwf1 Hp1) as [_ Hc];
      [by rewrite Hq1|by rewrite Hq1|].
    rewrite Hc. f_equal; [exact Hc1|]. by rewrite Hq1.
Qed.

(** X6. A harvest handed to [queueHarvest] while the manager is offline and
    its queue is empty sits alone in the queue and nothing is sent.  The
    next reconnect sends exactly one [createHarvest] request, carrying that
    very harvest.  If it is answered well the queue is empty again; if it
    fails, the harvest stays queued with one failure counted; no second
    request is made in either case. *)
Theorem queueHarvest_round_trip harvest now sfx now' w m :
  wf m -> pending m = None -> isOnline m = false -> queue m = [] ->
  let r := queueHarvest harvest now sfx now' w m in
  let op := mkOp (generateId now sfx) CREATE harvest now' 0 in
  r.1 = generateId now sfx /\
  getQueueStatus r.2 = Status.mk false 1 false /\
  calls r.2 = calls m /\
  calls (step Online r.2) = calls m ++ [createHarvest harvest] /\
  (forall w',
     queue (run [Online; Settle true w'] r.2) = [] /\
     calls (run [Online; Settle true w'] r.2) = calls m ++ [createHarvest harvest]) /\
  (forall w',
     queue (run [Online; Settle false w'] r.2) = [bump op] /\
     calls (run [Online; Settle false w'] r.2) = calls m ++ [createHarvest harvest]).
Proof.
  intros Hwf Hp Ho Hq r op.
  assert (wf r.2) as Hwf1
    by apply (wf_step (Enqueue CREATE harvest now sfx now' w) m Hwf).
  assert (queue r.2 = [op]) as Hq1.
  { unfold r, queueHarvest. by rewrite queue_queueOperation, Hq. }
  assert (calls r.2 = calls m) as Hc1
    by (by apply calls_queueOperation_offline).
  assert (pending r.2 = None /\ isOnline r.2 = false) as (Hp1 & Ho1).
  { unfold r, queueHarvest, queueOperation. cbv zeta.
    destruct w; simpl; rewrite Ho; done. }
  assert (syncInProgress r.2 = false) as Hs1 by (by apply wf_idle).
  assert (NoDup (ids (queue r.2))) as Hd1
    by (rewrite Hq1; apply NoDup_singleton).
  assert (forall ok w',
            queue (run [Online; Settle ok w'] r.2) = pass_result [ok] [op] /\
            calls (run [Online; Settle ok w'] r.2)
            = calls m ++ [createHarvest harvest]) as Hpass.
  { intros ok w'. by apply queueHarvest_pass. }
  split; [done|].
  split; [unfold getQueueStatus; by rewrite Hq1, Hs1, Ho1|].
  split; [done|].
  split.
  { rewrite (online_starts r.2 op Hwf1 Hp1) by (by rewrite Hq1).
    unfold attempt.
    cbn [calls set_pending set_calls set_syncInProgress set_isOnline].
    by rewrite Hc1. }
  split; intros w'; destruct (Hpass true w'), (Hpass false w'); done.
Qed.

Lemma queueHarvest_round_trip_witness :
  let r := queueHarvest corn 1700000000000 "k3j2h1g0f" 1700000000000 true
             fresh_offline in
  queue fresh_offline = [] /\
  calls (step Online r.2) = [createHarvest corn] /\
  queue (run [Online; Settle true true] r.2) = [].
Proof.
  intros r.
  destruct (queueHarvest_round_trip corn 1700000000000 "k3j2h1g0f"
              1700000000000 true fresh_offline (wf_create _ _)
              eq_refl eq_refl eq_refl) as (_ & _ & _ & H4 & H5 & _).
  split; [reflexivity|]. split; [exact H4|]. apply (H5 true).
Defined.

(** ** Nothing but queued operations is ever sent *)

Lemma executeOperation_core o o' :
  core o = core o' -> executeOperation o = executeOperation o'.
Proof.
  destruct o, o'. unfold core, executeOperation. simpl. intros H.
  by simplify_eq.
Qed.

Lemma queue_step_from e m o :
  o ∈ queue (step e m) ->
  exists o0, o0 ∈ queue m ++ enqueued e /\ core o0 = core o.
Proof.
  intros Ho. apply (list_elem_of_fmap_2 core) in Ho.
  eapply elem_of_sublist in Ho; [|apply cores_step].
  apply list_elem_of_fmap in Ho as (o0 & Hc & Hin). eauto.
Qed.

Lemma calls_syncQueue m c :
  c ∈ calls (syncQueue m) ->
  c ∈ calls m \/ exists o, o ∈ queue m /\ executeOperation o = Some c.
Proof.
  unfold syncQueue.
  destruct (negb (isOnline m) || syncInProgress m || (length (queue m) =? 0));
    [auto|].
  destruct (queue m !! 0) as [op|] eqn:Hq; [|auto]. simpl.
  intros Hc. apply elem_of_app in Hc as [Hc|Hc]; [by left|]. right.
  destruct (executeOperation op) as [c'|] eqn:E; simpl in Hc;
    [|by apply elem_of_nil in Hc].
  apply list_elem_of_singleton in Hc. subst c'.
  exists op. split; [|done]. by eapply list_elem_of_lookup_2.
Qed.

Lemma calls_step e m c :
  c ∈ calls (step e m) ->
  c ∈ calls m \/ exists o, o ∈ queue (step e m) /\ executeOperation o = Some c.
Proof.
  destruct e as [ty d now sfx now' w| | | |ok w]; unfold step.
  - unfold queueOperation. cbv zeta. cbn [snd].
    set (m1 := saveQueue w _).
    assert (calls m1 = calls m) as Hc1 by (unfold m1; by destruct w).
    destruct (isOnline m1 && negb (syncInProgress m1)); [|rewrite Hc1; auto].
    rewrite queue_syncQueue. intros Hc. apply calls_syncQueue in Hc.
    by rewrite Hc1 in Hc.
  - rewrite queue_syncQueue. intros Hc. by apply calls_syncQueue in Hc.
  - auto.
  - rewrite queue_syncQueue. apply calls_syncQueue.
  - destruct (pending m) as [f|] eqn:Hp; [|rewrite resume_idle by done; auto].
    destruct (queue m !! cursor f) as [op|] eqn:Hq;
      [|rewrite (resume_stuck _ _ _ _ Hp Hq); auto].
    rewrite (resume_unfold _ _ _ _ _ Hp Hq). cbv zeta.
    destruct (queue m !! S (cursor f)) as [next|] eqn:Hn.
    + simpl. intros Hc. apply elem_of_app in Hc as [Hc|Hc]; [by left|]. right.
      destruct (executeOperation next) as [c'|] eqn:E; simpl in Hc;
        [|by apply elem_of_nil in Hc].
      apply list_elem_of_singleton in Hc. subst c'.
      exists next. split; [|done].
      apply (list_elem_of_lookup_2 _ (S (cursor f))).
      by rewrite lookup_visited_ne by lia.
    + intros Hc. left. by destruct w.
Qed.

(** X7. The manager never sends a request of its own making: after any
    run, every call in the log was either there before or is the request
    [executeOperation] builds for an operation that was in the queue at the
    start or was enqueued during the run. *)
Theorem only_queued_requests_sent tr m c :
  c ∈ calls (run tr m) ->
  c ∈ calls m \/
  exists o, o ∈ queue m ++ (tr ≫= enqueued) /\ executeOperation o = Some c.
Proof.
  revert m. induction tr as [|e tr IH]; intros m Hc; [by left|].
  change (run (e :: tr) m) with (run tr (step e m)) in Hc.
  change ((e :: tr) ≫= enqueued) with (enqueued e ++ (tr ≫= enqueued)).
  assert (forall o, o ∈ queue (step e m) ->
            exists o0, o0 ∈ queue m ++ enqueued e ++ (tr ≫= enqueued) /\
              executeOperation o0 = executeOperation o) as Hfrom.
  { intros o Ho. apply queue_step_from in Ho as (o0 & Hin & Hcore).
    exists o0. split; [|by apply executeOperation_core].
    rewrite app_assoc. apply elem_of_app. by left. }
  apply IH in Hc as [Hc|(o & Hin & Hex)].
  - apply calls_step in Hc as [Hc|(o & Hin & Hex)]; [by left|]. right.
    apply Hfrom in Hin as (o0 & Hin0 & Hex0). exists o0. split; [done|congruence].
  - right. apply elem_of_app in Hin as [Hin|Hin].
    + apply Hfrom in Hin as (o0 & Hin0 & Hex0). exists o0. split; [done|congruence].
    + exists o. split; [|done]. rewrite app_assoc. apply elem_of_app. by right.
Qed.

Lemma only_queued_requests_sent_witness :
  createHarvest corn ∈ calls (run [enqueueA; Online] fresh_offline) /\
  (createHarvest corn ∈ calls fresh_offline \/
   exists o, o ∈ queue fresh_offline ++ ([enqueueA; Online] ≫= enqueued) /\
     executeOperation o = Some (createHarvest corn)).
Proof.
  assert (createHarvest corn ∈ calls (run [enqueueA; Online] fresh_offline))
    as Hc.
  { change (createHarvest corn ∈ [createHarvest corn]).
    by apply list_elem_of_singleton. }
  split; [exact Hc|].
  exact (only_queued_requests_sent [enqueueA; Online] fresh_offline
           (createHarvest corn) Hc).
Defined.

(** ** A restart in the middle of a pass *)








(** ** Generated ids *)

Lemma pretty_N_char_no_underscore x :
  Ascii.eqb underscore (pretty_N_char x) = false.
Proof.
  unfold pretty_N_char.
  destruct x as [|p]; [reflexivity|].
  do 5 (try (destruct p as [p|p|])); reflexivity.
Qed.

Lemma has_char_pretty_N_go x s :
  has_char underscore s = false -> has_char underscore (pretty_N_go x s) = false.
Proof.
  revert s. induction (N.lt_wf_0 x) as [x _ IH]; intros s Hs.
  assert (x = 0 \/ 0 < x)%N as [->|Hx] by lia.
  - by rewrite pretty_N_go_0.
  - rewrite pretty_N_go_step by done. apply IH.
    { by apply N.div_lt. }
    cbn [has_char]. by rewrite pretty_N_char_no_underscore.
Qed.

Lemma has_char_pretty_Z (z : Z) : has_char underscore (pretty z) = false.
Proof.
  assert (forall n : N, has_char underscore (pretty n) = false) as HN.
  { intros n. unfold pretty, pretty_N. case_match; [done|].
    by apply has_char_pretty_N_go. }
  destruct z as [|p|p]; [done|apply (HN (Npos p))|].
  unfold pretty, pretty_Z. simpl. apply (HN (Npos p)).
Qed.

Lemma append_split_at c s1 t1 s2 t2 :
  has_char c s1 = false -> has_char c s2 = false ->
  s1 +:+ String c t1 = s2 +:+ String c t2 -> s1 = s2 /\ t1 = t2.
Proof.
  revert s2. induction s1 as [|a s1 IH]; intros [|b s2] H1 H2 E; simpl in *.
  - by simplify_eq.
  - simplify_eq. by rewrite Ascii.eqb_refl in H2.
  - simplify_eq. by rewrite Ascii.eqb_refl in H1.
  - injection E as -> E.
    destruct (Ascii.eqb c b); [done|].
    destruct (IH s2 H1 H2 E) as [-> ->]. done.
Qed.

(** X9. [generateId] is injective: two generated ids are equal only if
    both the clock reading and the random suffix are equal.  Ids of two
    enqueues can therefore collide only when both draws coincide. *)
Theorem generateId_injective now sfx now' sfx' :
  generateId now sfx = generateId now' sfx' -> now = now' /\ sfx = sfx'.
Proof.
  unfold generateId. intros E.
  change ("offline_" +:+ pretty now +:+ "_" +:+ sfx)
    with ("offline_" +:+ (pretty now +:+ String underscore sfx)) in E.
  change ("offline_" +:+ pretty now' +:+ "_" +:+ sfx')
    with ("offline_" +:+ (pretty now' +:+ String underscore sfx')) in E.
  simpl in E. simplify_eq.
  apply append_split_at in E as [E ->]; [|apply has_char_pretty_Z..].
  split; [|done]. by apply (inj pretty).
Qed.

Lemma generateId_injective_witness :
  generateId 1700000000000 "k3j2h1g0f" = idA /\
  (1700000000000%Z = 1700000000000%Z /\ "k3j2h1g0f" = "k3j2h1g0f").
Proof.
  split; [reflexivity|].
  exact (generateId_injective 1700000000000 "k3j2h1g0f"
           1700000000000 "k3j2h1g0f" eq_refl).
Defined.

(** * Dashboard figures (pages/Home.tsx) *)

Lemma length_remove_dups_le {A} `{EqDecision A} (l : list A) :
  length (remove_dups l) <= length l.
Proof.
  induction l as [|x l IH]; [done|]. simpl. case_decide; simpl; lia.
Qed.

Lemma length_remove_dups_perm {A} `{EqDecision A} (l k : list A) :
  l ≡ₚ k -> length (remove_dups l) = length (remove_dups k).
Proof.
  intros Hp. apply Permutation_length.
  apply NoDup_Permutation; [apply NoDup_remove_dups..|].
  intros x. rewrite !elem_of_remove_dups. by rewrite Hp.
Qed.

(** X10. The number of fields shown on the dashboard counts each location
    once: it never exceeds the number of harvests, is zero only without
    harvests, does not depend on their order, and one more harvest raises
    it by one exactly when its location has not been seen. *)
Theorem getUniqueFields_counts_locations :
  (forall hs, Home.getUniqueFields hs <= length hs) /\
  (forall hs, Home.getUniqueFields hs = 0 <-> hs = []) /\
  (forall hs hs', hs ≡ₚ hs' -> Home.getUniqueFields hs = Home.getUniqueFields hs') /\
  (forall hs h,
     Home.getUniqueFields (hs ++ [h])
     = if decide (Api.location h ∈ Api.location <$> hs)
       then Home.getUniqueFields hs
       else S (Home.getUniqueFields hs)).
Proof.
  unfold Home.getUniqueFields.
  split; [|split; [|split]].
  - intros hs. etrans; [apply length_remove_dups_le|]. by rewrite length_fmap.
  - intros hs. split; [|by intros ->].
    destruct hs as [|h hs]; [done|]. intros H0. exfalso.
    apply length_zero_iff_nil in H0.
    assert (Api.location h ∈ remove_dups (Api.location <$> h :: hs)) as Hin.
    { apply elem_of_remove_dups. by left. }
    rewrite H0 in Hin. by apply elem_of_nil in Hin.
  - intros hs hs' Hp. apply length_remove_dups_perm. by rewrite Hp.
  - intros hs h.
    rewrite (length_remove_dups_perm (Api.location <$> hs ++ [h])
               (Api.location <$> h :: hs)).
    + change (remove_dups (Api.location <$> h :: hs))
        with (if decide_rel (∈) (Api.location h) (Api.location <$> hs)
              then remove_dups (Api.location <$> hs)
              else Api.location h :: remove_dups (Api.location <$> hs)).
      unfold decide_rel.
      destruct (list_elem_of_dec (Api.location h) (Api.location <$> hs)) as [H1|H1],
        (decide (Api.location h ∈ Api.location <$> hs)) as [H2|H2];
        done || contradiction.
    + rewrite fmap_app. simpl. by rewrite Permutation_app_comm.
Qed.

Lemma getUniqueFields_counts_locations_witness :
  [harvestMarch; harvestUndated] ≡ₚ [harvestUndated; harvestMarch] /\
  Home.getUniqueFields [harvestMarch; harvestUndated]
  = Home.getUniqueFields [harvestUndated; harvestMarch].
Proof.
  assert ([harvestMarch; harvestUndated] ≡ₚ [harvestUndated; harvestMarch])
    as Hp by apply perm_swap.
  destruct getUniqueFields_counts_locations as (_ & _ & H & _).
  split; [exact Hp|exact (H _ _ Hp)].
Defined.

(** ** The most recent harvest *)

Lemma most_recent_fold time pre acc mid rest t :
  time (Api.harvestDate acc) = Some t ->
  (forall h, h ∈ pre -> exists u, time (Api.harvestDate h) = Some u /\ (u < t)%Z) ->
  (forall h, h ∈ mid -> exists u, time (Api.harvestDate h) = Some u /\ (u <= t)%Z) ->
  (forall h, h ∈ rest -> is_Some (time (Api.harvestDate h))) ->
  exists pre' best post' tb,
    foldl (fun latest current =>
             if Home.later time current latest then current else latest)
          acc rest = best /\
    pre ++ acc :: mid ++ rest = pre' ++ best :: post' /\
    time (Api.harvestDate best) = Some tb /\
    (forall h, h ∈ pre' -> exists u, time (Api.harvestDate h) = Some u /\ (u < tb)%Z) /\
    (forall h, h ∈ post' -> exists u, time (Api.harvestDate h) = Some u /\ (u <= tb)%Z).
Proof.
  revert pre acc mid t. induction rest as [|c rest IH];
    intros pre acc mid t Hacc Hpre Hmid Hrest.
  { exists pre, acc, mid, t. rewrite app_nil_r. done. }
  destruct (Hrest c) as [tc Hc]; [by left|].
  assert (forall h, h ∈ rest -> is_Some (time (Api.harvestDate h))) as Hrest'
    by (intros h Hh; apply Hrest; by right).
  simpl. unfold Home.later at 2. rewrite Hc, Hacc.
  destruct (bool_decide (t < tc)%Z) eqn:Hlt.
  - apply bool_decide_eq_true in Hlt.
    destruct (IH (pre ++ acc :: mid) c [] tc Hc) as (pre' & best & post' & tb & H);
      [| |done|].
    + intros h Hh. apply elem_of_app in Hh as [Hh|Hh].
      * destruct (Hpre h Hh) as (u & Hu & Hlt'). exists u. split; [done|lia].
      * apply elem_of_cons in Hh as [->|Hh]; [exists t; split; [done|lia]|].
        destruct (Hmid h Hh) as (u & Hu & Hle). exists u. split; [done|lia].
    + intros h Hh. by apply elem_of_nil in Hh.
    + destruct H as (H1 & H2 & H3). exists pre', best, post', tb.
      split; [done|]. split; [|done].
      rewrite <- H2. simpl. rewrite <- app_assoc. simpl. done.
  - apply bool_decide_eq_false in Hlt.
    destruct (IH pre acc (mid ++ [c]) t Hacc Hpre) as (pre' & best & post' & tb & H);
      [|done|].
    + intros h Hh. apply elem_of_app in Hh as [Hh|Hh]; [by apply Hmid|].
      apply list_elem_of_singleton in Hh. subst h. exists tc. split; [done|lia].
    + destruct H as (H1 & H2 & H3). exists pre', best, post', tb.
      split; [done|]. split; [|done].
      rewrite <- H2. by rewrite <- app_assoc.
Qed.

(** X11. [getMostRecentHarvest] answers nothing exactly for an empty list
    and otherwise one of the harvests given.  When every harvest date is a
    valid date, the answer is the harvest with the latest date, the first
    such in list order if several share it.  When the first harvest has an
    invalid date, the answer is that first harvest, whatever the others
    are. *)
Theorem getMostRecentHarvest_is_first_latest time :
  (forall hs, Home.getMostRecentHarvest time hs = None <-> hs = []) /\
  (forall hs h, Home.getMostRecentHarvest time hs = Some h -> h ∈ hs) /\
  (forall hs h,
     Forall (fun h => is_Some (time (Api.harvestDate h))) hs ->
     Home.getMostRecentHarvest time hs = Some h ->
     exists pre post tb,
       hs = pre ++ h :: post /\ time (Api.harvestDate h) = Some tb /\
       (forall h', h' ∈ pre ->
          exists u, time (Api.harvestDate h') = Some u /\ (u < tb)%Z) /\
       (forall h', h' ∈ post ->
          exists u, time (Api.harvestDate h') = Some u /\ (u <= tb)%Z)) /\
  (forall first rest,
     time (Api.harvestDate first) = None ->
     Home.getMostRecentHarvest time (first :: rest) = Some first).
Proof.
  split; [|split; [|split]].
  - intros [|h hs]; simpl; split; done.
  - intros [|first rest] h; [done|]. simpl. intros [= <-].
    revert first. induction rest as [|c rest IH]; intros first; [by left|].
    simpl. destruct (Home.later time c first).
    + right. apply IH.
    + pose proof (IH first) as Hin.
      apply elem_of_cons in Hin as [Hin|Hin].
      * rewrite Hin. by left.
      * right. by right.
  - intros [|first rest] h Hall; [done|]. simpl. intros [= <-].
    apply Forall_cons in Hall as [[t Ht] Hrest].
    destruct (most_recent_fold time [] first [] rest t Ht)
      as (pre' & best & post' & tb & H1 & H2 & H3 & H4 & H5).
    + intros h Hh. by apply elem_of_nil in Hh.
    + intros h Hh. by apply elem_of_nil in Hh.
    + by apply Forall_forall.
    + subst best. exists pre', post', tb. done.
  - intros first rest Hnone. simpl. f_equal.
    induction rest as [|c rest IH]; [done|].
    simpl. unfold Home.later at 2. rewrite Hnone.
    by destruct (time (Api.harvestDate c)).
Qed.

Lemma getMostRecentHarvest_is_first_latest_witness :
  Home.getMostRecentHarvest sample_time [harvestMarch; harvestMay; harvestMarch]
  = Some harvestMay /\
  Home.getMostRecentHarvest sample_time [harvestUndated; harvestMay]
  = Some harvestUndated /\
  exists pre post,
    [harvestMarch; harvestMay; harvestMarch] = pre ++ harvestMay :: post.
Proof.
  assert (Home.getMostRecentHarvest sample_time
            [harvestMarch; harvestMay; harvestMarch] = Some harvestMay) as E
    by reflexivity.
  split; [exact E|]. split; [reflexivity|].
  destruct (getMostRecentHarvest_is_first_latest sample_time) as (_ & _ & H & _).
  assert (Forall (fun h => is_Some (sample_time (Api.harvestDate h)))
            [harvestMarch; harvestMay; harvestMarch]) as Hall.
  { repeat constructor; eexists; vm_compute; reflexivity. }
  destruct (H _ _ Hall E) as (pre & post & tb & Heq & _).
  exists pre, post. exact Heq.
Defined.

(** * The submit handler (pages/CreateHarvest.tsx) *)

(** X12. A submission made while the browser is offline queues exactly one
    CREATE operation carrying the form's values, with no failure counted,
    and what that operation will ask of the service is the request a direct
    submission makes.  The page then shows a QR link built on the queue id,
    tells the user that the harvest was saved offline, clears the form and
    stops loading.  Nothing is sent at that moment if the manager, too, is
    offline or is in the middle of a pass. *)
Theorem onSubmit_offline_queues data e p m :
  Page.online_at_submit e = false ->
  let r := Page.onSubmit data e p m in
  let op := mkOp (generateId (Page.now e) (Page.sfx e)) CREATE
              (Page.harvestData data) (Page.now' e) 0 in
  queue r.2 = queue m ++ [op] /\
  executeOperation op = Some (createHarvest (Page.harvestData data)) /\
  Page.shownLink r.1 = Some (Page.harvestUrl (id op)) /\
  Page.toasts r.1 = Page.toasts p ++ [Page.SavedOffline (Page.cropName data)] /\
  Page.form r.1 = Page.blank (Page.today e) /\
  Page.loading r.1 = false /\
  (isOnline m = false \/ syncInProgress m = true -> calls r.2 = calls m).
Proof.
  intros Hoff r op. unfold r, Page.onSubmit. rewrite Hoff. cbn [fst snd].
  unfold queueHarvest.
  split; [apply queue_queueOperation|].
  split; [done|]. split; [done|]. split; [done|]. split; [done|].
  split; [done|].
  intros Hg. unfold queueOperation. cbv zeta. cbn [snd].
  destruct (Page.writable e); simpl; destruct Hg as [Hg|Hg]; rewrite Hg;
    simpl; rewrite ?andb_false_r; done.
Qed.

Lemma onSubmit_offline_queues_witness :
  let r := Page.onSubmit cornForm offlineEnv blankPage fresh_offline in
  Page.online_at_submit offlineEnv = false /\
  length (queue r.2) = 1 /\
  Page.shownLink r.1 = Some (Page.harvestUrl idA) /\
  calls r.2 = [].
Proof.
  intros r.
  destruct (onSubmit_offline_queues cornForm offlineEnv blankPage fresh_offline
              eq_refl) as (H1 & _ & H3 & _ & _ & _ & H7).
  split; [reflexivity|]. fold r in H1, H3, H7.
  split; [by rewrite H1|]. split; [exact H3|].
  apply H7. left. reflexivity.
Defined.

(** ** The call log is written, never read *)

Lemma syncQueue_relog m l :
  exists l', calls (syncQueue m) = calls m ++ l' /\
    syncQueue (set_calls l m) = set_calls (l ++ l') (syncQueue m).
Proof.
  unfold syncQueue. destruct m as [q o s st c pd]; simpl.
  destruct (negb o || s || (length q =? 0)).
  { exists []. by rewrite !app_nil_r. }
  destruct (q !! 0) as [op|].
  - exists (option_list (executeOperation op)). done.
  - exists []. by rewrite !app_nil_r.
Qed.

Lemma resume_relog ok w m l :
  exists l', calls (resume ok w m) = calls m ++ l' /\
    resume ok w (set_calls l m) = set_calls (l ++ l') (resume ok w m).
Proof.
  unfold resume. destruct m as [q o s st c pd]; simpl.
  destruct pd as [f|]; [|exists []; by rewrite !app_nil_r].
  destruct (q !! cursor f) as [op|]; [|exists []; by rewrite !app_nil_r].
  destruct (visited ok (cursor f) op q !! S (cursor f)) as [next|].
  - exists (option_list (executeOperation next)). done.
  - exists []. rewrite !app_nil_r. by destruct w.
Qed.

Lemma step_relog e m l :
  exists l', calls (step e m) = calls m ++ l' /\
    step e (set_calls l m) = set_calls (l ++ l') (step e m).
Proof.
  destruct e as [ty d now sfx now' w| | | |ok w]; unfold step.
  - unfold queueOperation. cbv zeta. cbn [snd].
    set (op := mkOp _ _ _ _ _).
    assert (saveQueue w (set_queue (queue (set_calls l m) ++ [op]) (set_calls l m))
            = set_calls l (saveQueue w (set_queue (queue m ++ [op]) m))) as ->
      by (by destruct w).
    set (m1 := saveQueue w _).
    assert (calls m1 = calls m) as Hc by (unfold m1; by destruct w).
    change (isOnline (set_calls l m1)) with (isOnline m1).
    change (syncInProgress (set_calls l m1)) with (syncInProgress m1).
    destruct (isOnline m1 && negb (syncInProgress m1)).
    + destruct (syncQueue_relog m1 l) as (l' & H1 & H2).
      exists l'. by rewrite H1, H2, Hc.
    + exists []. rewrite !app_nil_r. by rewrite Hc.
  - destruct (syncQueue_relog (set_isOnline true m) l) as (l' & H1 & H2).
    exists l'. split; [done|]. by rewrite <- H2.
  - exists []. by rewrite !app_nil_r.
  - apply syncQueue_relog.
  - apply resume_relog.
Qed.

Lemma run_relog tr m l :
  exists l', calls (run tr m) = calls m ++ l' /\
    run tr (set_calls l m) = set_calls (l ++ l') (run tr m).
Proof.
  revert m l. induction tr as [|e tr IH]; intros m l.
  { exists []. rewrite !app_nil_r. by destruct m. }
  change (run (e :: tr) m) with (run tr (step e m)).
  change (run (e :: tr) (set_calls l m)) with (run tr (step e (set_calls l m))).
  destruct (step_relog e m l) as (l1 & H1 & H2). rewrite H2.
  destruct (IH (step e m) (l ++ l1)) as (l2 & H3 & H4).
  exists (l1 ++ l2). rewrite H3, H1, H4. by rewrite !app_assoc.
Qed.

(** X13. A direct submission that the service rejects is not put in the
    queue: queue, slot and pass are as before, and from then on the manager
    behaves exactly as if the submission had not happened, the one request
    in the log aside.  The user is told of the failure only if the browser
    is still online when it arrives; the QR link shown, if any, and the
    form are left as they were, and loading stops. *)
Theorem onSubmit_rejected_not_queued data e p m message :
  Page.online_at_submit e = true -> Page.service e = Page.Rejected message ->
  let r := Page.onSubmit data e p m in
  let request := createHarvest (Page.harvestData data) in
  queue r.2 = queue m /\ store r.2 = store m /\ pending r.2 = pending m /\
  calls r.2 = calls m ++ [request] /\
  Page.toasts r.1
  = Page.toasts p ++ (if Page.online_at_failure e
                      then [Page.Failed (Page.describe message)] else []) /\
  Page.shownLink r.1 = Page.shownLink p /\
  Page.form r.1 = Page.form p /\
  Page.loading r.1 = false /\
  (forall tr, exists sent,
     calls (run tr m) = calls m ++ sent /\
     calls (run tr r.2) = calls m ++ [request] ++ sent /\
     queue (run tr r.2) = queue (run tr m) /\
     store (run tr r.2) = store (run tr m)).
Proof.
  intros Hon Hrej r request. unfold r, Page.onSubmit. rewrite Hon, Hrej.
  cbn [fst snd]. repeat (split; [done|]).
  intros tr.
  destruct (run_relog tr m (calls m ++ [request])) as (sent & H1 & H2).
  exists sent. fold request. rewrite H2. split; [done|].
  split; [simpl; by rewrite <- app_assoc|done].
Qed.

Lemma onSubmit_rejected_not_queued_witness :
  let e := Page.mkEnv true (Page.Rejected (Some "")) false 1700000000000
             "k3j2h1g0f" 1700000000000 true "c" "u" "t" in
  let r := Page.onSubmit cornForm e blankPage fresh_offline in
  queue r.2 = [] /\ Page.toasts r.1 = [] /\
  calls r.2 = [createHarvest (Page.harvestData cornForm)].
Proof.
  intros e r.
  destruct (onSubmit_rejected_not_queued cornForm e blankPage fresh_offline
              (Some "") eq_refl eq_refl) as (H1 & _ & _ & H4 & H5 & _).
  split; [exact H1|]. split; [exact H5|exact H4].
Defined.

(** X14. For a manager that is offline with an empty queue and no pass in
    progress, submitting offline and then reconnecting ends up sending
    exactly what a direct submission sends, once; after a good answer the
    queue is empty again. *)
Theorem offline_submission_sends_same_request data e e' p m w :
  wf m -> pending m = None -> isOnline m = false -> queue m = [] ->
  Page.online_at_submit e = false -> Page.online_at_submit e' = true ->
  let queued := (Page.onSubmit data e p m).2 in
  let direct := (Page.onSubmit data e' p m).2 in
  calls queued = calls m /\
  calls (run [Online; Settle true w] queued) = calls direct /\
  queue (run [Online; Settle true w] queued) = [] /\
  queue direct = [].
Proof.
  intros Hwf Hp Ho Hq Hoff Hon queued direct.
  unfold queued, direct, Page.onSubmit. rewrite Hoff, Hon. cbn [snd].
  destruct (queueHarvest_pass (Page.harvestData data) (Page.now e) (Page.sfx e)
              (Page.now' e) (Page.writable e) m true w Hwf Hp Ho Hq)
    as [H1 H2].
  split; [by apply calls_queueOperation_offline|].
  split; [rewrite H2; by destruct (Page.service e')|].
  split; [by rewrite H1|by destruct (Page.service e')].
Qed.

Lemma offline_submission_sends_same_request_witness :
  let e' := Page.mkEnv true (Page.Created harvestMarch) true 1700000000000
              "k3j2h1g0f" 1700000000000 true "c" "u" "t" in
  calls (run [Online; Settle true true]
           (Page.onSubmit cornForm offlineEnv blankPage fresh_offline).2)
  = calls (Page.onSubmit cornForm e' blankPage fresh_offline).2.
Proof.
  intros e'.
  destruct (offline_submission_sends_same_request cornForm offlineEnv e'
              blankPage fresh_offline true (wf_create _ _)
              eq_refl eq_refl eq_refl eq_refl eq_refl) as (_ & H & _).
  exact H.
Defined.

(** ** QR links *)

Lemma generateId_inj now sfx now' sfx' :
  generateId now sfx = generateId now' sfx' -> now = now' /\ sfx = sfx'.
Proof.
  unfold generateId. intros E.
  change ("offline_" +:+ pretty now +:+ "_" +:+ sfx)
    with ("offline_" +:+ (pretty now +:+ String underscore sfx)) in E.
  change ("offline_" +:+ pretty now' +:+ "_" +:+ sfx')
    with ("offline_" +:+ (pretty now' +:+ String underscore sfx')) in E.
  simpl in E. simplify_eq.
  apply append_split_at in E as [E ->]; [|apply has_char_pretty_Z..].
  split; [|done]. by apply (inj pretty).
Qed.

(** X15. The QR link determines the harvest id: two ids give the same link
    only if they are equal.  Hence two harvests submitted offline get the
    same link only if their enqueues read the same clock value and drew the
    same suffix. *)
Theorem harvestUrl_identifies_harvest :
  (forall i j, Page.harvestUrl i = Page.harvestUrl j -> i = j) /\
  (forall data1 e1 p1 m1 data2 e2 p2 m2,
     Page.online_at_submit e1 = false -> Page.online_at_submit e2 = false ->
     Page.shownLink (Page.onSubmit data1 e1 p1 m1).1
     = Page.shownLink (Page.onSubmit data2 e2 p2 m2).1 ->
     Page.now e1 = Page.now e2 /\ Page.sfx e1 = Page.sfx e2).
Proof.
  assert (forall i j, Page.harvestUrl i = Page.harvestUrl j -> i = j) as Hinj.
  { unfold Page.harvestUrl. intros i j E. simpl in E. by simplify_eq. }
  split; [exact Hinj|].
  intros data1 e1 p1 m1 data2 e2 p2 m2 H1 H2.
  unfold Page.onSubmit. rewrite H1, H2. cbn [fst]. unfold Page.shownLink.
  cbn [Page.showQR Page.createdHarvest fmap option_fmap option_map].
  intros E. apply (inj Some), Hinj in E.
  cbn [Api._id Page.tempHarvest fst queueHarvest queueOperation id] in E.
  by apply generateId_inj.
Qed.

Lemma harvestUrl_identifies_harvest_witness :
  Page.online_at_submit offlineEnv = false /\
  Page.shownLink (Page.onSubmit cornForm offlineEnv blankPage fresh_offline).1
  = Some (Page.harvestUrl idA) /\
  Page.now offlineEnv = 1700000000000%Z /\ Page.sfx offlineEnv = "k3j2h1g0f".
Proof.
  destruct harvestUrl_identifies_harvest as [_ H].
  split; [reflexivity|]. split; [reflexivity|].
  exact (H cornForm offlineEnv blankPage fresh_offline
           cornForm offlineEnv blankPage fresh_offline
           eq_refl eq_refl eq_refl).
Defined.

(** * [clearQueue] *)

Lemma xrun_plain tr x :
  detached x = None -> xrun (Plain <$> tr) x = mkX (run tr (base x)) None.
Proof.
  revert x. induction tr as [|e tr IH]; intros [m d] Hd; simpl in Hd; subst d;
    [done|].
  change (xrun (Plain <$> e :: tr) (mkX m None))
    with (xrun (Plain <$> tr) (xstep (Plain e) (mkX m None))).
  change (run (e :: tr) (base (mkX m None))) with (run tr (step e m)).
  assert (xstep (Plain e) (mkX m None) = mkX (step e m) None) as ->
    by (by destruct e).
  by rewrite IH.
Qed.

Lemma empty_idle_run tr m :
  queue m = [] -> pending m = None -> has_enqueue tr = false ->
  queue (run tr m) = [] /\ pending (run tr m) = None /\
  calls (run tr m) = calls m.
Proof.
  revert m. induction tr as [|e tr IH]; intros m Hq Hp He; [done|].
  simpl in He. apply orb_false_iff in He as [He1 He2].
  change (run (e :: tr) m) with (run tr (step e m)).
  assert (queue (step e m) = [] /\ pending (step e m) = None /\
          calls (step e m) = calls m) as (Hq1 & Hp1 & Hc1).
  { destruct e as [ty d now sfx now' w| | | |ok w]; unfold step;
      try discriminate.
    - by rewrite syncQueue_guarded by (simpl; auto).
    - done.
    - by rewrite syncQueue_guarded by auto.
    - by rewrite resume_idle. }
  destruct (IH (step e m) Hq1 Hp1 He2) as (H1 & H2 & H3).
  by rewrite H3.
Qed.

(** X16. [clearQueue] on a manager with no pass in progress empties the
    queue, and the slot too if the write succeeds.  From then on nothing is
    sent, whatever reconnects and sync requests follow, until something is
    enqueued again; and a restart from the cleared slot starts with an empty
    queue. *)
Theorem clearQueue_idle_drops_everything w tr x :
  detached x = None -> pending (base x) = None -> has_enqueue tr = false ->
  let x' := clearQueue w x in
  let x'' := xrun (Clear w :: (Plain <$> tr)) x in
  queue (base x') = [] /\
  Status.queueLength (getQueueStatus (base x')) = 0 /\
  store (base x') = (if w then Saved [] else store (base x)) /\
  (w = true -> queue (create true (store (base x'))) = [] /\
               calls (create true (store (base x'))) = []) /\
  queue (base x'') = [] /\
  calls (base x'') = calls (base x).
Proof.
  intros Hd Hp He x' x''.
  assert (detached x' = None) as Hd'.
  { unfold x', clearQueue. simpl. by rewrite Hd, Hp. }
  assert (queue (base x') = []) as Hq' by (unfold x'; by destruct w).
  assert (pending (base x') = None) as Hp' by (unfold x'; by destruct w).
  assert (calls (base x') = calls (base x)) as Hc' by (unfold x'; by destruct w).
  assert (store (base x') = if w then Saved [] else store (base x)) as Hs'
    by (unfold x'; by destruct w).
  split; [done|].
  split; [unfold getQueueStatus; cbn [Status.queueLength]; by rewrite Hq'|].
  split; [done|].
  split; [intros ->; by rewrite Hs'|].
  unfold x''.
  change (xrun (Clear w :: (Plain <$> tr)) x) with (xrun (Plain <$> tr) x').
  rewrite (xrun_plain tr x' Hd'). cbn [base].
  destruct (empty_idle_run tr (base x') Hq' Hp' He) as (H1 & _ & H3).
  split; [done|]. by rewrite H3.
Qed.

Lemma clearQueue_idle_drops_everything_witness :
  let x := mkX (run [enqueueA; enqueueB] fresh_offline) None in
  length (queue (base x)) = 2 /\
  queue (base (xrun [Clear true; Plain Online; Plain Sync] x)) = [] /\
  calls (base (xrun [Clear true; Plain Online; Plain Sync] x)) = [].
Proof.
  intros x.
  destruct (clearQueue_idle_drops_everything true [Online; Sync] x
              eq_refl eq_refl eq_refl) as (_ & _ & _ & _ & H5 & H6).
  split; [reflexivity|]. split; [exact H5|exact H6].
Defined.

Lemma answers_not_settle e tr :
  (forall ok w, e <> Settle ok w) -> answers (e :: tr) = answers tr.
Proof. intros Hns. destruct e; try done. by destruct (Hns ok writable). Qed.

Lemma answers_settles os : answers (settles os) = length os.
Proof. induction os as [|o os IH]; [done|]. simpl. by rewrite IH. Qed.

(** The pass after [clearQueue]: it runs on over the detached array,
    whatever else happens, and what is enqueued goes to the new queue. *)
Lemma xpass_detached tr : forall x a f,
  detached x = Some a -> pending (base x) = Some f ->
  syncInProgress (base x) = true ->
  answers tr < length a - cursor f ->
  let x' := xrun (Plain <$> tr) x in
  exists a' f',
    detached x' = Some a' /\ pending (base x') = Some f' /\
    syncInProgress (base x') = true /\
    cursor f' = cursor f + answers tr /\
    length a' = length a /\ ids a' = ids a /\
    (forall y, y ∈ successfulOperations f' ->
       y ∈ successfulOperations f \/ y ∈ ids a) /\
    isOnline (base x') = connectivity (isOnline (base x)) tr /\
    queue (base x') = queue (base x) ++ (tr ≫= enqueued) /\
    calls (base x')
    = calls (base x)
      ++ omap executeOperation (take (answers tr) (drop (S (cursor f)) a)).
Proof.
  induction tr as [|e tr IH]; intros [m d] a f Hd Hp Hs Hlen;
    simpl in Hd, Hp, Hs; subst d.
  { exists a, f. cbn. rewrite Nat.add_0_r, !app_nil_r. repeat split; auto. }
  change (xrun (Plain <$> e :: tr) (mkX m (Some a)))
    with (xrun (Plain <$> tr) (xstep (Plain e) (mkX m (Some a)))).
  change ((e :: tr) ≫= enqueued) with (enqueued e ++ (tr ≫= enqueued)).
  destruct (settle_or_not e) as [(ok & w & ->)|Hns].
  - cbn [answers is_settle] in Hlen |- *.
    assert (cursor f < length a) as Hc by lia.
    destruct (lookup_lt_is_Some_2 a (cursor f) Hc) as [op Hop].
    destruct (lookup_lt_is_Some_2 a (S (cursor f))) as [next Hn]; [lia|].
    cbn [xstep]. unfold xresume. cbn [detached base]. rewrite Hp, Hop.
    cbv zeta. rewrite lookup_visited_ne by lia. rewrite Hn.
    set (f1 := mkFrame (S (cursor f)) (marked ok op (successfulOperations f))).
    set (a1 := visited ok (cursor f) op a).
    destruct (IH (mkX (attempt next f1 m) (Some a1)) a1 f1 eq_refl eq_refl)
      as (a' & f' & H1 & H2 & H3 & H4 & H5 & H6 & H7 & H8 & H9 & H10).
    { done. }
    { unfold a1, f1. cbn [cursor]. rewrite length_visited. lia. }
    exists a', f'. split; [done|]. split; [done|]. split; [done|].
    split; [rewrite H4; unfold f1; cbn [cursor]; lia|].
    split; [by rewrite H5; unfold a1; rewrite length_visited|].
    split; [by rewrite H6; unfold a1; rewrite ids_visited|].
    split.
    { intros y Hy. apply H7 in Hy as [Hy|Hy].
      - unfold f1 in Hy. cbn [successfulOperations] in Hy.
        apply marked_inv in Hy as [Hy | ->]; [by left|]. right.
        unfold ids. apply list_elem_of_fmap. exists op. split; [done|].
        by eapply list_elem_of_lookup_2.
      - right. unfold a1 in Hy. by rewrite ids_visited in Hy. }
    split; [by rewrite H8|].
    split; [by rewrite H9|].
    rewrite H10. unfold f1, a1.
    cbn [base cursor attempt calls set_pending set_calls enqueued].
    rewrite <- app_assoc. f_equal.
    rewrite (drop_S a next (S (cursor f)) Hn).
    change (take (1 + answers tr) (next :: drop (S (S (cursor f))) a))
      with (next :: take (answers tr) (drop (S (S (cursor f))) a)).
    rewrite omap_executeOperation_cons. f_equal.
    by rewrite drop_visited by lia.
  - rewrite xstep_plain by done. cbn [detached base].
    rewrite answers_not_settle in Hlen |- * by done.
    destruct (step_flagged e m Hs Hns) as (Hp' & Hs' & Hc').
    destruct (IH (mkX (step e m) (Some a)) a f eq_refl) as
      (a' & f' & H1 & H2 & H3 & H4 & H5 & H6 & H7 & H8 & H9 & H10).
    { cbn. by rewrite Hp'. } { done. } { done. }
    exists a', f'. repeat (split; [done|]).
    split.
    { rewrite H8. cbn [base]. unfold connectivity. cbn [foldl]. f_equal.
      destruct e as [ty d now sfx now' w'| | | |ok w']; unfold step;
        rewrite ?isOnline_syncQueue, ?isOnline_queueOperation; try done.
      by destruct (Hns ok w'). }
    split.
    { rewrite H9. cbn [base]. rewrite (queue_step_other _ _ Hns).
      by rewrite app_assoc. }
    rewrite H10. cbn [base]. by rewrite Hc'.
Qed.

Lemma filter_unmarked_all marks (q : list QueuedOperation) :
  Forall (fun o => id o ∉ marks) q -> filter (unmarked marks) q = q.
Proof.
  induction 1 as [|o q Ho _ IH]; [done|].
  rewrite filter_cons_True by done. by rewrite IH.
Qed.

Lemma enqueued_settles os : settles os ≫= enqueued = [].
Proof. induction os as [|o os IH]; [done|]. simpl. exact IH. Qed.

(** X17. [clearQueue] in the middle of a pass does not stop the pass.
    Whatever else happens until the pass ends (enqueues, the listeners,
    further calls of [syncQueue]), the operations that were in the queue
    when it was called are still attempted, one after the other, and these
    are all the requests made.  What is enqueued after the call is not
    attempted by this pass: when the pass ends, the queue consists of those
    operations, less any whose id the pass has marked, which are all of
    them when their ids are not among the ids of the old queue; no pass is
    then in progress.  If nothing but answers arrives, the requests are
    those the pass makes without the call and the queue ends empty. *)
Theorem clearQueue_mid_pass_keeps_sending w tr ok w' x f :
  detached x = None -> wf (base x) -> pending (base x) = Some f ->
  S (answers tr) = length (queue (base x)) - cursor f ->
  let x' := xrun (Clear w :: (Plain <$> (tr ++ [Settle ok w']))) x in
  calls (base x')
  = calls (base x)
    ++ omap executeOperation (drop (S (cursor f)) (queue (base x))) /\
  (exists marks,
     (forall y, y ∈ marks -> y ∈ ids (queue (base x))) /\
     queue (base x') = filter (unmarked marks) (tr ≫= enqueued)) /\
  (Forall (fun o => id o ∉ ids (queue (base x))) (tr ≫= enqueued) ->
     queue (base x') = tr ≫= enqueued) /\
  getQueueStatus (base x')
  = Status.mk (connectivity (isOnline (base x)) tr)
      (length (queue (base x'))) false /\
  pending (base x') = None /\ detached x' = None /\
  (forall os, tr = settles os ->
     queue (base x') = [] /\
     calls (base x') = calls (run (tr ++ [Settle ok w']) (base x))).
Proof.
  intros Hd Hwf Hp Hlen x'.
  set (a := queue (base x)) in *.
  assert (cursor f < length a /\
          forall y, y ∈ successfulOperations f -> y ∈ ids a) as [Hc Hmarks].
  { unfold wf in Hwf. rewrite Hp in Hwf. destruct Hwf as (_ & Hc & Hm).
    split; [done|]. intros y Hy. apply Hm in Hy. unfold ids in *.
    rewrite fmap_take in Hy. rewrite <- (take_drop (cursor f) (id <$> a)).
    apply elem_of_app. by left. }
  set (x0 := clearQueue w x).
  assert (detached x0 = Some a /\ pending (base x0) = Some f /\
          queue (base x0) = [] /\ calls (base x0) = calls (base x) /\
          isOnline (base x0) = isOnline (base x) /\
          syncInProgress (base x0) = true) as (Hd0 & Hp0 & Hq0 & Hc0 & Ho0 & Hs0).
  { unfold x0, clearQueue. cbn [detached base]. rewrite Hd, Hp.
    pose proof (wf_flag _ _ Hwf Hp) as Hs. by destruct w. }
  destruct (xpass_detached tr x0 a f Hd0 Hp0 Hs0) as
    (a' & f' & H1 & H2 & H3 & H4 & H5 & H6 & H7 & H8 & H9 & H10); [lia|].
  set (x1 := xrun (Plain <$> tr) x0) in *.
  assert (x' = xstep (Plain (Settle ok w')) x1) as Ex.
  { unfold x', x1, xrun. rewrite fmap_app. cbn [foldl fmap list_fmap].
    by rewrite foldl_app. }
  destruct (lookup_lt_is_Some_2 a' (cursor f')) as [op Hop]; [lia|].
  assert (x' = mkX (finish w' (marked ok op (successfulOperations f')) (base x1))
                   None) as Ex'.
  { rewrite Ex. cbn [xstep]. unfold xresume. rewrite H1, H2, Hop. cbv zeta.
    rewrite lookup_visited_ne by lia.
    rewrite (lookup_ge_None_2 a' (S (cursor f'))) by lia. done. }
  assert (forall y, y ∈ marked ok op (successfulOperations f') -> y ∈ ids a)
    as Hm'.
  { intros y Hy. apply marked_inv in Hy as [Hy | ->].
    - apply H7 in Hy as [Hy|Hy]; [by apply Hmarks|done].
    - rewrite <- H6. unfold ids. apply list_elem_of_fmap. exists op.
      split; [done|]. by eapply list_elem_of_lookup_2. }
  assert (queue (base x')
          = filter (unmarked (marked ok op (successfulOperations f')))
              (tr ≫= enqueued)) as Hq'.
  { rewrite Ex'. cbn [base]. unfold finish.
    destruct w'; cbn; by rewrite H9, Hq0. }
  assert (calls (base x')
          = calls (base x) ++ omap executeOperation (drop (S (cursor f)) a))
    as Hcalls.
  { rewrite Ex'. cbn [base]. unfold finish.
    assert (calls (base x1)
            = calls (base x) ++ omap executeOperation (drop (S (cursor f)) a))
      as <-.
    { rewrite H10, Hc0. rewrite take_ge; [done|]. rewrite length_drop. lia. }
    by destruct w'. }
  split; [exact Hcalls|].
  split; [eexists; split; [exact Hm'|exact Hq']|].
  split.
  { intros Hfresh. rewrite Hq'. apply filter_unmarked_all.
    eapply Forall_impl; [exact Hfresh|]. intros o Ho Hin. by apply Ho, Hm'. }
  split.
  { unfold getQueueStatus. f_equal.
    - rewrite Ex'. cbn [base]. unfold finish. rewrite <- Ho0, <- H8.
      by destruct w'.
    - rewrite Ex'. cbn [base]. unfold finish. by destruct w'. }
  split; [rewrite Ex'; cbn [base]; unfold finish; by destruct w'|].
  split; [by rewrite Ex'|].
  intros os ->. split.
  { by rewrite Hq', enqueued_settles. }
  rewrite Hcalls.
  change (settles os ++ [Settle ok w']) with (settles os ++ settles [(ok, w')]).
  unfold settles. rewrite <- fmap_app. fold (settles (os ++ [(ok, w')])).
  destruct (pass_rest (os ++ [(ok, w')]) (base x) f Hwf Hp) as [_ ->]; [|done].
  rewrite length_app. rewrite answers_settles in Hlen. simpl. fold a. lia.
Qed.

Lemma clearQueue_mid_pass_keeps_sending_witness :
  let x := mkX (run [enqueueA; enqueueB; Online] fresh_offline) None in
  let tr := [Settle true true; enqueueC; Offline] in
  let x' := xrun (Clear true :: (Plain <$> (tr ++ [Settle true true]))) x in
  detached x = None /\ pending (base x) = Some (mkFrame 0 []) /\
  calls (base x) = [createHarvest corn] /\
  calls (base x') = [createHarvest corn; createHarvest wheat] /\
  length (queue (base x')) = 1 /\
  getQueueStatus (base x') = Status.mk false 1 false.
Proof.
  intros x tr x'.
  assert (wf (base x)) as Hwf by (apply wf_run, wf_create).
  destruct (clearQueue_mid_pass_keeps_sending true tr true true x
              (mkFrame 0 []) eq_refl Hwf eq_refl eq_refl)
    as (H1 & _ & H3 & H4 & _).
  fold x' in H1, H3, H4.
  assert (queue (base x') = tr ≫= enqueued) as Hq.
  { apply H3. repeat constructor. vm_compute. intros Hin.
    repeat (apply elem_of_cons in Hin as [Hin|Hin]; [discriminate|]).
    by apply elem_of_nil in Hin. }
  split; [reflexivity|]. split; [reflexivity|]. split; [reflexivity|].
  split; [exact H1|]. split; [by rewrite Hq|].
  rewrite H4, Hq. reflexivity.
Defined.

(** * No operation outlives the cap *)

Lemma idle_step_pending e m :
  pending m = None ->
  pending (step e m) = None \/ pending (step e m) = Some (mkFrame 0 []).
Proof.
  intros Hp.
  assert (forall m', pending m' = None ->
            pending (syncQueue m') = None \/
            pending (syncQueue m') = Some (mkFrame 0 [])) as Hsync.
  { intros m' Hp'. unfold syncQueue. repeat case_match; auto. }
  destruct e; unfold step.
  - unfold queueOperation. cbv zeta.
    set (m1 := saveQueue writable _).
    assert (pending m1 = None) as Hp1 by (unfold m1; by destruct writable).
    simpl. case_match; [by apply Hsync|auto].
  - by apply Hsync.
  - simpl. auto.
  - by apply Hsync.
  - rewrite resume_idle by done. auto.
Qed.

Lemma enqueued_issued e o : o ∈ enqueued e -> issued e = Some (id o).
Proof.
  destruct e; simpl; intros H; try (by apply elem_of_nil in H).
  apply list_elem_of_singleton in H. by subst.
Qed.

Lemma aged_step x k e m :
  wf m -> bounded m -> aged x k m -> issued e <> Some x ->
  aged x (k + (if ends_pass e m then 1 else 0)) (step e m).
Proof.
  intros Hwf Hb Ha Hiss.
  pose proof (bounded_step e m Hwf Hb) as Hb'.
  unfold aged in Ha.
  destruct (decide (Z.of_nat k < MAX_RETRIES)%Z) as [Hk|Hk]; cycle 1.
  { (* gone for good *)
    unfold aged. rewrite decide_False by (destruct (ends_pass e m); lia).
    intros Hin. apply ids_step in Hin as [Hin|Hin]; [done|]. by apply Hiss. }
  destruct (settle_or_not e) as [(ok & w & ->)|Hns].
  - destruct (pending m) as [f|] eqn:Hp; cycle 1.
    { rewrite ends_pass_idle by done. rewrite Nat.add_0_r.
      unfold step. rewrite resume_idle by done.
      unfold aged. rewrite decide_True by done. by rewrite Hp. }
    destruct (wf_cursor _ _ Hwf Hp) as [op Hq].
    (* every position of the array after the loop body *)
    assert (forall i o, visited ok (cursor f) op (queue m) !! i = Some o ->
              id o = x ->
              if decide (i < S (cursor f))
              then (Z.of_nat k + 1 <= retryCount o)%Z \/
                   x ∈ marked ok op (successfulOperations f)
              else (Z.of_nat k <= retryCount o)%Z) as Hv.
    { intros i o Hi Hid. destruct (decide (i = cursor f)) as [->|Hne].
      - rewrite lookup_visited_eq in Hi by done.
        rewrite decide_True by lia.
        specialize (Ha _ _ Hq). rewrite decide_False in Ha by lia.
        unfold marked. destruct (delivered ok op); simplify_eq.
        + right. apply elem_of_app. right. by left.
        + left. simpl. specialize (Ha eq_refl). lia.
      - rewrite lookup_visited_ne in Hi by done.
        specialize (Ha _ _ Hi Hid).
        destruct (decide (i < cursor f)) as [Hlt|Hge].
        + rewrite decide_True by lia.
          destruct Ha as [Ha|Ha]; [by left|right; by apply marked_mono].
        + by rewrite decide_False by lia. }
    destruct (queue m !! S (cursor f)) as [next|] eqn:Hn.
    + assert (step (Settle ok w) m
              = attempt next (mkFrame (S (cursor f))
                                (marked ok op (successfulOperations f)))
                  (set_queue (visited ok (cursor f) op (queue m)) m)) as E.
      { unfold step. rewrite (resume_unfold _ _ _ _ _ Hp Hq). cbv zeta.
        by rewrite Hn. }
      rewrite (ends_pass_continue _ _ (mkFrame (S (cursor f))
                 (marked ok op (successfulOperations f)))) by (by rewrite E).
      rewrite Nat.add_0_r, E. unfold aged. rewrite decide_True by done.
      intros i o Hi Hid. exact (Hv i o Hi Hid).
    + assert (step (Settle ok w) m
              = finish w (marked ok op (successfulOperations f))
                  (set_queue (visited ok (cursor f) op (queue m)) m)) as E.
      { unfold step. rewrite (resume_unfold _ _ _ _ _ Hp Hq). cbv zeta.
        by rewrite Hn. }
      assert (pending (step (Settle ok w) m) = None) as Hp'
        by (rewrite E; by destruct w).
      assert (queue (step (Settle ok w) m)
              = filter (unmarked (marked ok op (successfulOperations f)))
                  (visited ok (cursor f) op (queue m))) as Hq'
        by (rewrite E; by destruct w).
      assert (ends_pass (Settle ok w) m = true) as ->
        by (apply ends_pass_spec; split; [by rewrite Hp|done]).
      assert (forall o, o ∈ queue (step (Settle ok w) m) -> id o = x ->
                (Z.of_nat k + 1 <= retryCount o)%Z) as Hold.
      { intros o Ho Hid. rewrite Hq' in Ho.
        apply list_elem_of_filter in Ho as [Hun Ho].
        apply list_elem_of_lookup_1 in Ho as [i Hi].
        specialize (Hv _ _ Hi Hid).
        assert (i < S (cursor f)) as Hlt.
        { apply lookup_lt_Some in Hi. rewrite length_visited in Hi.
          apply lookup_ge_None_1 in Hn. lia. }
        rewrite decide_True in Hv by done.
        destruct Hv as [Hv|Hv]; [done|]. unfold unmarked in Hun.
        rewrite Hid in Hun. done. }
      unfold aged. rewrite Nat.add_1_r.
      destruct (decide (Z.of_nat (S k) < MAX_RETRIES)%Z) as [Hk'|Hk'].
      * intros i o Hi Hid. rewrite Hp'.
        apply list_elem_of_lookup_2 in Hi. specialize (Hold _ Hi Hid). lia.
      * intros Hin. unfold ids in Hin.
        apply list_elem_of_fmap in Hin as (o & Hid & Ho).
        pose proof (Hold _ Ho (eq_sym Hid)) as Hrc.
        apply list_elem_of_lookup_1 in Ho as [i Hi].
        destruct (Hb' _ _ Hi) as [_ [Hlt|(f' & Hpf & _)]]; [lia|congruence].
  - assert (forall i o, queue (step e m) !! i = Some o -> id o = x ->
              queue m !! i = Some o) as Hsame.
    { intros i o Hi Hid. rewrite (queue_step_other _ _ Hns) in Hi.
      apply lookup_app_Some in Hi as [Hi|[_ Hi]]; [done|].
      exfalso. apply list_elem_of_lookup_2 in Hi. apply Hiss.
      rewrite <- Hid. by apply enqueued_issued. }
    destruct (pending m) as [f|] eqn:Hp.
    + destruct (step_busy e m f Hwf Hp Hns) as (Hp' & _ & _).
      rewrite (ends_pass_continue _ _ _ Hp'), Nat.add_0_r.
      unfold aged. rewrite decide_True by done.
      intros i o Hi Hid. rewrite Hp'. apply Ha; [by apply Hsame|done].
    + rewrite ends_pass_idle by done. rewrite Nat.add_0_r.
      unfold aged. rewrite decide_True by done.
      intros i o Hi Hid.
      pose proof (Ha _ _ (Hsame _ _ Hi Hid) Hid) as Hrc.
      destruct (idle_step_pending e m Hp) as [->| ->]; [done|].
      cbn [cursor]. by rewrite decide_False by lia.
Qed.

Lemma aged_run x tr : forall k m,
  wf m -> bounded m -> aged x k m -> never_reissued x tr ->
  aged x (k + passes tr m) (run tr m).
Proof.
  induction tr as [|e tr IH]; intros k m Hwf Hb Ha Hnr.
  - simpl. by rewrite Nat.add_0_r.
  - change (run (e :: tr) m) with (run tr (step e m)).
    cbn [passes]. rewrite Nat.add_assoc. apply IH.
    + by apply wf_step.
    + by apply bounded_step.
    + apply aged_step; [done..|]. apply Hnr. by left.
    + intros e' He'. apply Hnr. by right.
Qed.

(** X18.  Whatever the service answers, an operation does not stay queued
    past the cap: once [MAX_RETRIES] passes have completed, starting from a
    manager at rest whose counters are failure counts below the cap, no
    operation with an id that was queued at the start (or any id that no
    enqueue of the run is handed) is in the queue. *)
Theorem no_operation_outlives_cap x tr m :
  wf m -> pending m = None -> sane (queue m) -> never_reissued x tr ->
  (MAX_RETRIES <= Z.of_nat (passes tr m))%Z ->
  x ∉ ids (queue (run tr m)).
Proof.
  intros Hwf Hp Hs Hnr Hk.
  assert (aged x 0 m) as Ha0.
  { unfold aged. rewrite decide_True by (unfold MAX_RETRIES; lia).
    intros i o Hi _. rewrite Hp. apply list_elem_of_lookup_2 in Hi.
    apply Hs in Hi. lia. }
  pose proof (aged_run x tr 0 m Hwf (bounded_sane m Hs) Ha0 Hnr) as Ha.
  unfold aged in Ha. rewrite decide_False in Ha; [done|].
  simpl. lia.
Qed.

Lemma no_operation_outlives_cap_witness :
  let m := step enqueueA fresh_offline in
  pending m = None /\ sane (queue m) /\
  passes three_failures m = 3 /\
  idA ∉ ids (queue (run three_failures m)).
Proof.
  intros m.
  assert (wf m) as Hwf by (apply wf_step, wf_create).
  assert (sane (queue m)) as Hs.
  { intros o Ho. apply list_elem_of_singleton in Ho. subst o.
    vm_compute. split; [discriminate|reflexivity]. }
  assert (never_reissued idA three_failures) as Hn.
  { intros e He. unfold three_failures in He.
    repeat (apply elem_of_cons in He as [-> | He]; [discriminate|]).
    by apply elem_of_nil in He. }
  split; [reflexivity|]. split; [exact Hs|]. split; [reflexivity|].
  apply (no_operation_outlives_cap idA three_failures m Hwf eq_refl Hs Hn).
  vm_compute. discriminate.
Defined.

(** * A pass does not look at connectivity again *)

Lemma resume_offline ok w m :
  resume ok w (set_isOnline false m) = set_isOnline false (resume ok w m).
Proof.
  unfold resume. cbn [pending queue set_isOnline].
  destruct (pending m) as [f|]; [|done].
  destruct (queue m !! cursor f) as [op|]; [|done].
  cbv zeta. cbn [queue set_queue].
  destruct (visited ok (cursor f) op (queue m) !! S (cursor f)); [done|].
  unfold finish. by destruct w.
Qed.

Lemma settles_offline os : forall m,
  run (settles os) (set_isOnline false m)
  = set_isOnline false (run (settles os) m).
Proof.
  induction os as [|o os IH]; intros m; [done|].
  change (settles (o :: os)) with (Settle o.1 o.2 :: settles os).
  change (run (Settle o.1 o.2 :: settles os) ?a)
    with (run (settles os) (step (Settle o.1 o.2) a)).
  unfold step. by rewrite resume_offline, IH.
Qed.

(** X19.  The loop of [syncQueue] checks connectivity only at its entry
    (line 91): when the [offline] listener fires between two answers of a
    pass, the rest of the pass runs exactly as it would have, requests,
    counters, removals and storage write included; only the flag
    [isOnline] differs. *)
Theorem offline_mid_pass_ignored os1 os2 m :
  run (settles os1 ++ Offline :: settles os2) m
  = step Offline (run (settles os1 ++ settles os2) m).
Proof.
  unfold run. rewrite !foldl_app. cbn [foldl].
  exact (settles_offline os2 _).
Qed.

(** * The constructor *)

(** X20.  A manager started on a storage slot takes over the queue a
    restart reads back and leaves the slot as it is; started online it
    sends the first stored operation at once and nothing else, started
    offline it sends nothing; and a pass is in progress exactly when it
    was started online on a non-empty stored queue. *)
Theorem create_restores_then_syncs online s :
  queue (create online s) = persisted s /\
  store (create online s) = s /\
  isOnline (create online s) = online /\
  calls (create online s)
  = (if online then option_list (head (persisted s) ≫= executeOperation)
     else []) /\
  (is_Some (pending (create online s)) <-> online = true /\ persisted s <> []).
Proof.
  unfold create, loadQueue. cbn [store].
  destruct s as [| | |[|o q]], online; cbn; repeat split;
    try done; try (by intros [? ?]); try (by intros [? ?]; congruence);
    try (intros _; by eexists).
Qed.

End OfflineQueue.
